(** * TravelLines: the stop-name resolver and the trip aggregator

    A shallow embedding of [scripts/geocodeStops.mjs] (the resolver that turns
    stop names into geocoder queries and keeps a resumable coordinate store)
    and of the aggregation pipeline of the visualisation app ([parseDate],
    [trips], [filteredTrips], [analytics]), followed by the properties the
    design specification states about them.

    Conventions of the embedding.
    - A JavaScript string is a [string] of 8-bit code units (the Latin-1
      range of UTF-16); [undefined] is [None] of an [option].
    - A JavaScript number is a binary64 [float].
    - A plain object used as a dictionary ([coords], [output.stops],
      [overrides], a CSV row) is the finite map of its own properties. A
      read under a name taken from the data ([overrides[name]],
      [output.stops[name]], [coords[name]]) finds the own property or,
      without one, the property inherited from [Object.prototype]; a
      CSV row is read under fixed names, none of which is inherited.
    - A [Map] or [Set] whose iteration order is observable is an
      insertion-ordered association list.
    - What the host environment supplies ([Number] on strings, the local
      time zone, [localeCompare]) is a [Host]; every general statement
      holds for every host. *)

From Stdlib Require Import ZArith String Ascii List Bool Lia Sorted.
From Stdlib Require Import PrimFloat SpecFloat FloatOps.
From stdpp Require Import base option list gmap strings pretty.

Local Open Scope string_scope.
Local Open Scope list_scope.

(** ** JavaScript strings *)

Module JsString.

(** [s.startsWith(p)] *)
Definition startsWith (s p : string) : bool := String.prefix p s.

(** [s.includes(sub)]: [sub] occurs at some position of [s]. *)
Fixpoint includes (s sub : string) : bool :=
  if String.prefix sub s then true
  else match s with
       | EmptyString => false
       | String _ s' => includes s' sub
       end.

Definition code (c : ascii) : N := N_of_ascii c.

(** White space and line terminators with a code unit below 256:
    TAB, LF, VT, FF, CR, SP and NBSP. *)
Definition isWhiteSpace (c : ascii) : bool :=
  let n := code c in
  ((9 <=? n) && (n <=? 13) || (n =? 32) || (n =? 160))%N.

Fixpoint trimStart (s : string) : string :=
  match s with
  | String c s' => if isWhiteSpace c then trimStart s' else s
  | EmptyString => EmptyString
  end.

(** [trimEnd] keeps a character when it is not white space or when
    something that is kept follows it. *)
Fixpoint trimEnd (s : string) : string :=
  match s with
  | EmptyString => EmptyString
  | String c s' =>
      match trimEnd s' with
      | EmptyString => if isWhiteSpace c then EmptyString else String c EmptyString
      | r => String c r
      end
  end.

(** [s.trim()] *)
Definition trim (s : string) : string := trimEnd (trimStart s).

(** Lower-casing of one code unit: A-Z, and the upper-case letters of
    the Latin-1 supplement (U+00C0 to U+00DE without the sign U+00D7). *)
Definition lowerChar (c : ascii) : ascii :=
  let n := code c in
  if ((65 <=? n) && (n <=? 90))%N then ascii_of_N (n + 32)
  else if ((192 <=? n) && (n <=? 222) && negb (n =? 215))%N then ascii_of_N (n + 32)
  else c.

(** [s.toLowerCase()] *)
Fixpoint toLowerCase (s : string) : string :=
  match s with
  | EmptyString => EmptyString
  | String c s' => String (lowerChar c) (toLowerCase s')
  end.

(** [s.split(sep)] for a one-character separator; the accumulator holds
    the piece being read, reversed. *)
Fixpoint splitAcc (sep : ascii) (acc : string) (s : string) : list string :=
  match s with
  | EmptyString => [String.string_of_list_ascii (rev (String.list_ascii_of_string acc))]
  | String c s' =>
      if Ascii.eqb c sep
      then String.string_of_list_ascii (rev (String.list_ascii_of_string acc))
             :: splitAcc sep EmptyString s'
      else splitAcc sep (String c acc) s'
  end.

Definition split (sep : ascii) (s : string) : list string :=
  splitAcc sep EmptyString s.

(** Truthiness of a string value: only the empty string is falsy. *)
Definition truthy (s : string) : bool :=
  match s with EmptyString => false | _ => true end.

(** Truthiness of a value that is a string or [undefined]. *)
Definition truthyOpt (o : option string) : bool :=
  match o with Some s => truthy s | None => false end.

(** What a template literal prints for a string or [undefined]. *)
Definition show (o : option string) : string :=
  match o with Some s => s | None => "undefined" end.

(** The words of the specification: [q] is a substring of [s]. *)
Definition substring_of (q s : string) : Prop :=
  exists pre post, s = pre +:+ q +:+ post.

Definition ends_with (s suffix : string) : Prop :=
  exists pre, s = pre +:+ suffix.

End JsString.

(** ** Maps and sets in insertion order *)

Module JsCollections.

Section InsertionOrder.
Context {K V : Type} `{EqDecision K}.

(** [map.get(k)] *)
Fixpoint mapGet (m : list (K * V)) (k : K) : option V :=
  match m with
  | [] => None
  | (k', v) :: rest => if decide (k' = k) then Some v else mapGet rest k
  end.

(** [map.set(k, v)]: an existing key keeps its place. *)
Fixpoint mapSet (m : list (K * V)) (k : K) (v : V) : list (K * V) :=
  match m with
  | [] => [(k, v)]
  | (k', v') :: rest =>
      if decide (k' = k) then (k, v) :: rest else (k', v') :: mapSet rest k v
  end.

(** [set.add(k)] *)
Definition setAdd (s : list K) (k : K) : list K :=
  if decide (k ∈ s) then s else s ++ [k].

End InsertionOrder.

(** [map.set(k, (map.get(k) || 0) + 1)] *)
Definition increment {K} `{EqDecision K} (m : list (K * nat)) (k : K) : list (K * nat) :=
  mapSet m k (default 0%nat (mapGet m k) + 1)%nat.

End JsCollections.

(** ** Plain objects

    An object written as a literal or read by [JSON.parse] has its own
    properties and inherits those of [Object.prototype]: a read [obj[key]]
    finds the own property first and an inherited one otherwise. *)

Module JsObject.

(** The properties of [Object.prototype], as ECMAScript specifies them
    (the accessor [__proto__] and the four legacy methods of its annex
    included, which Node.js and the browsers have). Their values are
    functions, but for [__proto__], whose value is the prototype object;
    all of them are truthy. *)
Definition prototypeKeys : list string :=
  [ "constructor"; "hasOwnProperty"; "isPrototypeOf"; "propertyIsEnumerable";
    "toLocaleString"; "toString"; "valueOf"; "__proto__";
    "__defineGetter__"; "__defineSetter__"; "__lookupGetter__"; "__lookupSetter__" ].

Definition inherits (key : string) : bool := existsb (String.eqb key) prototypeKeys.

(** What a read that is not [undefined] yields: the value of the own
    property, or the value [Object.prototype] has for the key. *)
Inductive Value (A : Type) :=
| Own (value : A)
| Inherited (key : string).
Arguments Own {A} value.
Arguments Inherited {A} key.

(** [obj[key]], given the own property of that name; [None] is
    [undefined]. *)
Definition get {A} (own : option A) (key : string) : option (Value A) :=
  match own with
  | Some value => Some (Own value)
  | None => if inherits key then Some (Inherited key) else None
  end.

End JsObject.

(** ** JavaScript numbers and dates *)

Module JsNumber.

(** Truthiness of a number: [NaN], [+0] and [-0] are falsy. *)
Definition truthy (x : float) : bool :=
  negb (PrimFloat.is_nan x || PrimFloat.eqb x PrimFloat.zero).

(** Truthiness of a value that is a number or [undefined]. *)
Definition truthyOpt (o : option float) : bool :=
  match o with Some x => truthy x | None => false end.

Definition isFinite (x : float) : bool :=
  match Prim2SF x with
  | S754_nan | S754_infinity _ => false
  | _ => true
  end.

(** The integer [z] as a number, rounded to nearest (exact below 2^53). *)
Definition ofZ (z : Z) : float := SF2Prim (binary_normalize prec emax z 0 false).

Inductive integerOrInfinity := NegInfinity | Integer (z : Z) | PosInfinity.

(** [ToIntegerOrInfinity]: [NaN] and zeros give 0, a finite number is
    truncated towards zero. *)
Definition ToIntegerOrInfinity (x : float) : integerOrInfinity :=
  match Prim2SF x with
  | S754_nan | S754_zero _ => Integer 0
  | S754_infinity s => if s then NegInfinity else PosInfinity
  | S754_finite s m e =>
      let mag := Z.shiftl (Z.pos m) e in
      Integer (if s then - mag else mag)
  end.

End JsNumber.

Module JsDate.
Import JsNumber.
Local Open Scope Z_scope.

(** A [Date] object holds a time value: milliseconds since the epoch, or
    [NaN] ([None]) for an invalid date. *)
Record Date := mkDate { timeValue : option Z }.

Definition msPerDay : Z := 86400000.
Definition maxTime : Z := 8640000000000000.

Definition DayFromYear (y : Z) : Z :=
  365 * (y - 1970) + (y - 1969) / 4 - (y - 1901) / 100 + (y - 1601) / 400.

Definition InLeapYear (y : Z) : bool :=
  (y mod 4 =? 0) && (negb (y mod 100 =? 0) || (y mod 400 =? 0)).

Definition daysInMonth (leap : bool) (mn : Z) : Z :=
  if mn =? 1 then (if leap then 29 else 28)
  else if (mn =? 3) || (mn =? 5) || (mn =? 8) || (mn =? 10) then 30
  else 31.

(** Days from the start of the year to the start of month [mn] (0 to 11). *)
Definition dayOfMonthStart (leap : bool) (mn : Z) : Z :=
  fold_right Z.add 0 (map (daysInMonth leap) (map Z.of_nat (seq 0 (Z.to_nat mn)))).

(** The day number of the first of month [mn] of year [ym]. *)
Definition dayOfFirst (ym mn : Z) : Z :=
  DayFromYear ym + dayOfMonthStart (InLeapYear ym) mn.

(** [MakeDay] on integers: the month carries into the year, the day of the
    month is added to the day number of the first of that month. *)
Definition MakeDayZ (y m dt : Z) : option Z :=
  let ym := y + m / 12 in
  let mn := m mod 12 in
  let t := dayOfFirst ym mn * msPerDay in
  if Z.abs t <=? maxTime then Some (dayOfFirst ym mn + dt - 1) else None.

(** [MakeDay(year, month, date)] *)
Definition MakeDay (year month date : float) : option Z :=
  if isFinite year && isFinite month && isFinite date then
    match ToIntegerOrInfinity year, ToIntegerOrInfinity month, ToIntegerOrInfinity date with
    | Integer y, Integer m, Integer dt => MakeDayZ y m dt
    | _, _, _ => None
    end
  else None.

(** [MakeDate(day, time)] *)
Definition MakeDate (day : option Z) (time : Z) : option Z :=
  match day with
  | Some d => Some (d * msPerDay + time)
  | None => None
  end.

(** [TimeClip(time)] *)
Definition TimeClip (time : option Z) : option Z :=
  match time with
  | Some t => if Z.abs t <=? maxTime then Some t else None
  | None => None
  end.

(** [MakeFullYear(year)]: a year from 0 to 99 is taken in the 1900s. *)
Definition MakeFullYear (year : float) : float :=
  if PrimFloat.is_nan year then year
  else match ToIntegerOrInfinity year with
       | Integer t => if (0 <=? t) && (t <=? 99) then ofZ (1900 + t) else ofZ t
       | _ => year
       end.

End JsDate.

(** ** The host environment *)

(** What the program takes from its environment: [Number] applied to a
    string, the conversion of a local time value to UTC, and the collation
    behind [localeCompare]. *)
Class Host := {
  Number : string -> float;
  UTC : Z -> Z;
  localeCompare : string -> string -> Z
}.

Module JsHost.
Import JsString JsNumber JsDate.

(** [new Date(year, monthIndex, day)] *)
Definition newDate `{Host} (year monthIndex day : float) : Date :=
  let yr := MakeFullYear year in
  mkDate (TimeClip (UTC <$> MakeDate (MakeDay yr monthIndex day) 0)).

(** [a < b] and [a > b] on dates compare the time values; a comparison
    with [NaN] is false. *)
Definition dateLt (a b : Date) : bool :=
  match timeValue a, timeValue b with
  | Some x, Some y => (x <? y)%Z
  | _, _ => false
  end.

Definition dateGt (a b : Date) : bool := dateLt b a.

(** A generic stable sort, [array.sort(cmp)]: an element goes before the
    first later element that [cmp] does not put ahead of it. *)
Fixpoint sortInsert {A} (cmp : A -> A -> Z) (x : A) (l : list A) : list A :=
  match l with
  | [] => [x]
  | y :: l' => if (cmp x y <=? 0)%Z then x :: l else y :: sortInsert cmp x l'
  end.

Definition sort {A} (cmp : A -> A -> Z) (l : list A) : list A :=
  fold_right (sortInsert cmp) [] l.

(** *** A reference host

    UTC as the local time zone, code-unit order as the collation, and
    [Number] on the strings [DD-MM-YYYY] is made of: optional white space
    around an optionally signed run of decimal digits; the empty string is
    0. (The fraction, exponent, radix-prefix and [Infinity] forms of a
    numeric string are outside what this reference function reads.) *)

Definition digitValue (c : ascii) : option Z :=
  let n := code c in
  if ((48 <=? n) && (n <=? 57))%N then Some (Z.of_N n - 48)%Z else None.

Fixpoint digitsValue (acc : Z) (s : string) : option Z :=
  match s with
  | EmptyString => Some acc
  | String c s' =>
      match digitValue c with
      | Some d => digitsValue (10 * acc + d)%Z s'
      | None => None
      end
  end.

Definition unsignedDecimal (s : string) : option float :=
  match s with
  | EmptyString => None
  | _ => ofZ <$> digitsValue 0 s
  end.

Definition decimalNumber (s : string) : float :=
  match trim s with
  | EmptyString => PrimFloat.zero
  | String "+" r => default PrimFloat.nan (unsignedDecimal r)
  | String "-" r => default PrimFloat.nan (PrimFloat.opp <$> unsignedDecimal r)
  | r => default PrimFloat.nan (unsignedDecimal r)
  end.

Fixpoint compareCodeUnits (a b : string) : Z :=
  match a, b with
  | EmptyString, EmptyString => 0
  | EmptyString, String _ _ => -1
  | String _ _, EmptyString => 1
  | String x a', String y b' =>
      if (code x <? code y)%N then -1
      else if (code y <? code x)%N then 1
      else compareCodeUnits a' b'
  end.

Definition referenceHost : Host :=
  {| Number := decimalNumber; UTC := fun t => t; localeCompare := compareCodeUnits |}.

End JsHost.

(** ** The resolver: [scripts/geocodeStops.mjs] *)

Module Resolver.
Import JsString JsCollections JsObject JsHost.

Definition overrides : list (string * string) :=
  [ ("1e C. Huygensstraat", "1e Constantijn Huygensstraat, Amsterdam, Netherlands");
    ("1e Con. Huygensstraat", "1e Constantijn Huygensstraat, Amsterdam, Netherlands");
    ("Burg. Eliasstraat", "Burgemeester Eliasstraat, Amsterdam, Netherlands");
    ("Aachen Hbf", "Aachen Hauptbahnhof, Aachen, Germany");
    ("Amsterdam, Mosplein", "Mosplein, Amsterdam, Netherlands");
    ("Amsterdam, Stenendokweg", "Stenendokweg, Amsterdam, Netherlands");
    ("Apeldoorn, De Veenkamp", "De Veenkamp, Apeldoorn, Netherlands");
    ("Apeldoorn, Gedenknaald", "Gedenknaald, Apeldoorn, Netherlands");
    ("Apeldoorn, Station", "Station Apeldoorn, Apeldoorn, Netherlands");
    ("Centraal Station", "Amsterdam Centraal Station, Amsterdam, Netherlands");
    ("Centrum", "Centrum, Den Haag, Netherlands");
    ("C. van Eesterenlaan", "C. van Eesterenlaan, Amsterdam, Netherlands");
    ("Den Helder, Station", "Station Den Helder, Den Helder, Netherlands");
    ("Den Helder, Steiger Teso", "Steiger TESO, Den Helder, Netherlands");
    ("Frederik Hendrikplnts", "Frederik Hendrikplantsoen, Amsterdam, Netherlands");
    ("Heemstede, Stat.Heemstede-Aerd", "Station Heemstede-Aerdenhout, Heemstede, Netherlands");
    ("J.P. Heijestraat", "Jan Pieter Heijestraat, Amsterdam, Netherlands");
    ("Kievitslaan", "Kievitslaan, Rotterdam, Netherlands");
    ("muziekgebouw Bimhuis", "Bimhuis, Amsterdam, Netherlands");
    ("Noord", "Amsterdam Noord, Amsterdam, Netherlands");
    ("Purmerend, Anne Franklaan", "Anne Franklaan, Purmerend, Netherlands");
    ("Purmerend, Churchilllaan", "Churchilllaan, Purmerend, Netherlands");
    ("Purmerend, Kelvinstraat", "Kelvinstraat, Purmerend, Netherlands");
    ("Purmerend, Station Overwhere", "Station Overwhere, Purmerend, Netherlands");
    ("Purmerend, Tramplein", "Tramplein, Purmerend, Netherlands");
    ("Purmerend, Veenweidestraat", "Veenweidestraat, Purmerend, Netherlands");
    ("Schev.slag/beelden aan Zee", "Beelden aan Zee, Scheveningen, Den Haag, Netherlands");
    ("Station Blaak", "Rotterdam Blaak, Rotterdam, Netherlands");
    ("Station Hollands Spoor", "Den Haag Hollands Spoor, Den Haag, Netherlands");
    ("Station Lelylaan", "Amsterdam Lelylaan, Amsterdam, Netherlands");
    ("Station Mariahoeve", "Den Haag Mariahoeve, Den Haag, Netherlands");
    ("Station Zuid", "Amsterdam Zuid, Amsterdam, Netherlands");
    ("Van der Woertstraat", "Van der Woertstraat, Den Haag, Netherlands");
    ("Vogelenzang, Waterleiding", "Waterleiding, Vogelenzang, Netherlands");
    ("Zandvoort, Waterleiding/nw. Un", "Waterleiding, Zandvoort, Netherlands");
    ("Zandvoort, Zandvoort Centrum", "Zandvoort Centrum, Zandvoort, Netherlands") ].

Definition denHaagStops : list string :=
  [ "Bierkade"; "Hofzichtlaan"; "Kievitslaan"; "Kneuterdijk"; "Kunstmuseum";
    "Kurhaus"; "Schev.slag/beelden aan Zee"; "Statenplein"; "Vredespaleis";
    "Den Haag HS"; "Den Haag Centraal"; "Den Haag Mariahoeve";
    "Station Hollands Spoor"; "Station Mariahoeve"; "Centrum" ].

Definition rotterdamStops : list string :=
  [ "Kruisplein"; "Leuvehaven"; "Nieuwe Haven"; "Vasteland"; "Weena";
    "Witte de Withstraat"; "Woudestein"; "Museumpark"; "Rotterdam Centraal";
    "Rotterdam Blaak"; "Station Blaak" ].

Definition purmerendStops : list string :=
  [ "Purmerend Overwhere"; "Purmerend, Anne Franklaan"; "Purmerend, Churchilllaan";
    "Purmerend, Kelvinstraat"; "Purmerend, Signaal"; "Purmerend, Station Overwhere";
    "Purmerend, Tramplein"; "Purmerend, Veenweidestraat" ].

Definition zandvoortStops : list string :=
  [ "Zandvoort, Waterleiding/nw. Un"; "Zandvoort, Zandvoort Centrum";
    "Zandvoort aan Zee" ].

Definition allCityPrefixes : list string :=
  [ "Amsterdam"; "Rotterdam"; "Den Haag"; "Purmerend"; "Zaandam"; "Zandvoort";
    "Apeldoorn"; "Arnhem"; "Breda"; "Delft"; "Enschede"; "Haarlem"; "Heerlen";
    "Maastricht"; "Nijmegen"; "Aachen"; "Alkmaar"; "Den Helder"; "Schiphol";
    "Velp"; "Dieren"; "Uitgeest"; "Overveen"; "Santpoort Noord";
    "Heemstede-Aerdenhout"; "Zaandijk Zaanse Schans"; "Mook-Molenhoek" ].

(** The own property [key] of an object literal. *)
Fixpoint ownGet (obj : list (string * string)) (key : string) : option string :=
  match obj with
  | [] => None
  | (k, v) :: rest => if String.eqb k key then Some v else ownGet rest key
  end.

(** [obj[key]] on an object literal. *)
Definition objGet (obj : list (string * string)) (key : string) : option (Value string) :=
  get (ownGet obj key) key.

(** A query: a text, or the value [Object.prototype] has for a key. *)
Inductive Query :=
| QueryText (text : string)
| QueryInherited (key : string).

Coercion QueryText : string >-> Query.

#[global] Instance Query_eq_dec : EqDecision Query.
Proof. solve_decision. Defined.

(** The truth value of [overrides[name]], and the value as a query. *)
Definition truthyValue (v : option (Value string)) : bool :=
  match v with
  | Some (Own text) => truthy text
  | Some (Inherited _) => true
  | None => false
  end.

Definition asQuery (v : option (Value string)) : option Query :=
  match v with
  | Some (Own text) => Some (QueryText text)
  | Some (Inherited key) => Some (QueryInherited key)
  | None => None
  end.

(** [set.has(x)] on a set of strings given by its elements. *)
Definition has (set : list string) (x : string) : bool :=
  existsb (String.eqb x) set.

(** [guessQuery(name)]; [None] is [null]. *)
Definition guessQuery (name : string) : option Query :=
  if negb (truthy name) || String.eqb name "Onbekend" then None
  else if truthyValue (objGet overrides name) then asQuery (objGet overrides name)
  else if includes name "," then Some (QueryText (name +:+ ", Netherlands"))
  else if existsb (fun prefix => startsWith name prefix) allCityPrefixes
    then Some (QueryText (name +:+ ", Netherlands"))
  else if has denHaagStops name then Some (QueryText (name +:+ ", Den Haag, Netherlands"))
  else if has rotterdamStops name then Some (QueryText (name +:+ ", Rotterdam, Netherlands"))
  else if has purmerendStops name then Some (QueryText (name +:+ ", Purmerend, Netherlands"))
  else if has zandvoortStops name then Some (QueryText (name +:+ ", Zandvoort, Netherlands"))
  else Some (QueryText (name +:+ ", Amsterdam, Netherlands")).

(** A call returns a value or throws. *)
Inductive Completion (A : Type) :=
| Return (value : A)
| Throw (message : string).
Arguments Return {A} value.
Arguments Throw {A} message.

(** [parseCsvLine(line)]: [current] is the field being read, reversed.
    A quote inside quotes that is followed by a quote stands for one
    quote, and the loop steps over the second. *)
Fixpoint parseCsvFrom (line : string) (current : string) (inQuotes : bool) : list string :=
  let field := String.string_of_list_ascii (rev (String.list_ascii_of_string current)) in
  match line with
  | EmptyString => [field]
  | String char rest =>
      if Ascii.eqb char "034" then
        match inQuotes, rest with
        | true, String "034" rest' => parseCsvFrom rest' (String "034" current) inQuotes
        | _, _ => parseCsvFrom rest current (negb inQuotes)
        end
      else if Ascii.eqb char "," && negb inQuotes then
        field :: parseCsvFrom rest EmptyString inQuotes
      else parseCsvFrom rest (String char current) inQuotes
  end.

Definition parseCsvLine (line : string) : list string :=
  parseCsvFrom line EmptyString false.

(** [text.split(/\r?\n/)]: a line ends at a line feed, and a carriage
    return just before the line feed belongs to the separator. *)
Fixpoint splitLinesFrom (text : string) (current : string) : list string :=
  match text with
  | EmptyString => [String.string_of_list_ascii (rev (String.list_ascii_of_string current))]
  | String char rest =>
      if Ascii.eqb char "010" then
        let current' :=
          match current with
          | String last before => if Ascii.eqb last "013" then before else current
          | EmptyString => current
          end in
        String.string_of_list_ascii (rev (String.list_ascii_of_string current'))
          :: splitLinesFrom rest EmptyString
      else splitLinesFrom rest (String char current)
  end.

Definition splitLines (text : string) : list string := splitLinesFrom text EmptyString.

(** [array.indexOf(x)]; [None] is -1, and an array read at -1 is
    [undefined]. *)
Fixpoint indexOf (l : list string) (x : string) : option nat :=
  match l with
  | [] => None
  | y :: rest => if String.eqb y x then Some 0%nat else S <$> indexOf rest x
  end.

Definition at_ (parts : list string) (index : option nat) : option string :=
  match index with Some i => parts !! i | None => None end.

(** The body of the loop of [readCsvStops] for one line. *)
Definition collectStops (vertrekIndex bestemmingIndex : option nat)
    (stops : list string) (line : string) : list string :=
  let parts := parseCsvLine line in
  let vertrek := at_ parts vertrekIndex in
  let bestemming := at_ parts bestemmingIndex in
  let stops1 := if truthyOpt vertrek then setAdd stops (default "" vertrek) else stops in
  if truthyOpt bestemming then setAdd stops1 (default "" bestemming) else stops1.

(** [readCsvStops()], given the text of the CSV file ([None] when the
    file cannot be read). Without a first line, the read of [lines[0]]
    throws. *)
Definition readCsvStops `{Host} (csv : option string) : Completion (list string) :=
  match csv with
  | None => Throw "ENOENT"
  | Some text =>
      match List.filter truthy (splitLines text) with
      | [] => Throw "TypeError"
      | first :: lines =>
          let headers := split "," first in
          let vertrekIndex := indexOf headers "Vertrek" in
          let bestemmingIndex := indexOf headers "Bestemming" in
          Return (sort localeCompare
                    (fold_left (collectStops vertrekIndex bestemmingIndex) lines []))
      end
  end.

(** One element of the array the geocoding service answers with. *)
Record Place := mkPlace { place_lat : string; place_lon : string; display_name : string }.

(** What [res.json()] does: it throws, or yields the array. *)
Inductive JsonBody :=
| JsonThrows (message : string)
| JsonArray (data : list Place).

(** What [fetch] does: it throws (the request errors), or yields a
    response with its [ok] flag, its status and its body. *)
Inductive FetchOutcome :=
| FetchThrows (message : string)
| FetchResponse (ok : bool) (status : nat) (body : JsonBody).

(** The request [geocode] builds: the search parameters and the header.
    The parameter [q] is given by the query it is the text of. *)
Record Request := mkRequest {
  format : string; limit : string; addressdetails : string;
  q : Query; countrycodes : string; userAgent : string
}.

Definition USER_AGENT : string := "trains-visualizer/1.0 (local script)".

Definition searchRequest (query : Query) : Request :=
  {| format := "jsonv2"; limit := "1"; addressdetails := "1";
     q := query; countrycodes := "nl,de,be"; userAgent := USER_AGENT |}.

(** The network: the outcome of the request made while resolving a stop
    name (a run makes at most one request per name). *)
Definition Network := string -> Request -> FetchOutcome.

Record StopCoordinateEntry := mkEntry {
  lat : float; lng : float; label : string; query : Query
}.

(** [geocode(name, query)]; [Return None] is [null]. *)
Definition geocode `{Host} (net : Network) (name : string) (query : Query)
  : Completion (option StopCoordinateEntry) :=
  match net name (searchRequest query) with
  | FetchThrows message => Throw message
  | FetchResponse ok status body =>
      if negb ok then Throw ("Request failed " +:+ pretty status +:+ " for " +:+ name)
      else match body with
           | JsonThrows message => Throw message
           | JsonArray [] => Return None
           | JsonArray (match_ :: _) =>
               Return (Some {| lat := Number (place_lat match_);
                               lng := Number (place_lon match_);
                               label := display_name match_;
                               query := query |})
           end
  end.

(** The coordinate store. The file at [OUT_PATH] is modelled by the store
    it holds; a store file without [stops] or [unmatched] reads as one
    with the empty mapping or list. *)
Record Store := mkStore {
  generatedAt : option string;
  stops : gmap string StopCoordinateEntry;
  unmatched : list string
}.

Definition emptyStore : Store :=
  {| generatedAt := None; stops := ∅; unmatched := [] |}.

Inductive Event :=
| Fetch (name : string) (request : Request)
| ConsoleError (message : string)
| WriteFile (content : Store)
| Delay (ms : nat)
| ConsoleLog (message : string).

(** The state of a run: the [output] object in memory, the content of the
    file at [OUT_PATH] ([None] while there is no readable file), and what
    the run has done so far, oldest first. A write of the file and the
    delay are taken to succeed. *)
Record World := mkWorld {
  output : Store;
  disk : option Store;
  trace : list Event
}.

(** [output.unmatched.push(name)] and [output.stops[name] = result] *)
Definition pushUnmatched (name : string) (o : Store) : Store :=
  {| generatedAt := generatedAt o; stops := stops o; unmatched := unmatched o ++ [name] |}.

Definition setStop (name : string) (result : StopCoordinateEntry) (o : Store) : Store :=
  {| generatedAt := generatedAt o; stops := <[name := result]> (stops o);
     unmatched := unmatched o |}.

(** [output.stops[name] || output.unmatched.includes(name)]: an entry is
    an object, and truthy like every inherited value. *)
Definition classified (o : Store) (name : string) : bool :=
  bool_decide (is_Some (get (stops o !! name) name)) || has (unmatched o) name.

(** The body of the loop of [main] for one name. *)
Definition visit `{Host} (net : Network) (w : World) (name : string) : World :=
  if classified (output w) name then w
  else match guessQuery name with
       | None =>
           {| output := pushUnmatched name (output w); disk := disk w; trace := trace w |}
       | Some query =>
           let attempt :=
             match geocode net name query with
             | Return None => (pushUnmatched name (output w), [])
             | Return (Some result) => (setStop name result (output w), [])
             | Throw message => (pushUnmatched name (output w), [ConsoleError message])
             end in
           {| output := attempt.1;
              disk := Some attempt.1;
              trace := trace w ++ Fetch name (searchRequest query) :: attempt.2
                         ++ [WriteFile attempt.1; Delay 1100] |}
       end.

Definition mainLoop `{Host} (net : Network) (names : list string) (w : World) : World :=
  fold_left (visit net) names w.

(** [Array.join(', ')] *)
Fixpoint join (sep : string) (l : list string) : string :=
  match l with
  | [] => ""
  | [x] => x
  | x :: rest => x +:+ sep +:+ join sep rest
  end.

(** The store the run starts from: the file's store, or the default. *)
Definition existingStore (file : option Store) : Store := default emptyStore file.

Definition initialOutput (now : string) (file : option Store) : Store :=
  {| generatedAt := Some now;
     stops := stops (existingStore file);
     unmatched := unmatched (existingStore file) |}.

(** [main()], given the names [readCsvStops()] returned, the time stamp
    [new Date().toISOString()] and the content of the store file. *)
Definition start (now : string) (file : option Store) : World :=
  {| output := initialOutput now file; disk := file; trace := [] |}.

Definition main `{Host} (net : Network) (now : string) (csvStops : list string)
    (file : option Store) : World :=
  let w := mainLoop net csvStops (start now file) in
  {| output := output w;
     disk := Some (output w);
     trace := trace w
       ++ WriteFile (output w)
       :: ConsoleLog ("Geocoded " +:+ pretty (size (stops (output w))) +:+ " stops.")
       :: (if bool_decide (unmatched (output w) = []) then []
           else [ConsoleLog ("Unmatched stops: " +:+ join ", " (unmatched (output w)))]) |}.

(** The script: [main()] with its first line, the read of the CSV; when
    that read throws, the script logs the error and exits with status 1. *)
Definition script `{Host} (net : Network) (now : string) (csv : option string)
    (file : option Store) : Completion World :=
  match readCsvStops csv with
  | Return csvStops => Return (main net now csvStops file)
  | Throw message => Throw message
  end.

End Resolver.

(** ** The trip aggregator: the visualisation app *)

Module App.
Import JsString JsCollections JsObject JsDate JsHost.

(** [parseDate(value)]; [None] is [null]. The three names bound by the
    destructuring are the first three numbers, [undefined] when the split
    has fewer pieces; [undefined] reads as [NaN] in arithmetic. *)
Definition parseDate `{Host} (value : option string) : option Date :=
  if negb (JsString.truthyOpt value) then None
  else
    let parts := map Number (split "-" (default "" value)) in
    let day := parts !! 0%nat in
    let month := parts !! 1%nat in
    let year := parts !! 2%nat in
    if negb (JsNumber.truthyOpt day) || negb (JsNumber.truthyOpt month)
       || negb (JsNumber.truthyOpt year)
    then None
    else Some (newDate (default PrimFloat.nan year)
                       (PrimFloat.sub (default PrimFloat.nan month) PrimFloat.one)
                       (default PrimFloat.nan day)).

(** A parsed CSV row: column name to field text. *)
Abbreviation Row := (gmap string string).

Record Trip := mkTrip {
  id : string;
  date : Date;
  dateLabel : option string;
  checkIn : option string;
  checkOut : option string;
  from : string;
  to : string;
  transactie : option string;
  product : option string;
  class : option string;
  note : string
}.

(** [x || ''] *)
Definition orEmpty (x : option string) : string :=
  if JsString.truthyOpt x then default "" x else "".

(** The object built for one row, kept when its date is not [null]. *)
Definition tripOfRow `{Host} (index : nat) (row : Row) : option Trip :=
  match parseDate (row !! "Datum") with
  | None => None
  | Some d =>
      Some {| id := show (row !! "Datum") +:+ "-" +:+ show (row !! "Check in")
                      +:+ "-" +:+ pretty index;
              date := d;
              dateLabel := row !! "Datum";
              checkIn := row !! "Check in";
              checkOut := row !! "Check uit";
              from := orEmpty (row !! "Vertrek");
              to := orEmpty (row !! "Bestemming");
              transactie := row !! "Transactie";
              product := row !! "Product";
              class := row !! "Kl";
              note := orEmpty (row !! "Opmerking") |}
  end.

(** [trips]: the rows mapped with their index, then those with a date. *)
Definition trips `{Host} (rows : list Row) : list Trip :=
  omap (fun x => x) (imap tripOfRow rows).

(** The filter state. *)
Record FilterState := mkFilter {
  includeNonTrips : bool;
  selectedProducts : gset string;
  dateStart : option Date;
  dateEnd : option Date;
  search : string
}.

(** [x === 'Reis'] for a string or [undefined] *)
Definition isReis (x : option string) : bool :=
  match x with Some s => String.eqb s "Reis" | None => false end.

(** [selectedProducts.has(trip.product)] *)
Definition hasProduct (set : gset string) (p : option string) : bool :=
  match p with Some s => bool_decide (s ∈ set) | None => false end.

(** The callback of the filter of [filteredTrips]. *)
Definition passes (f : FilterState) (trip : Trip) : bool :=
  let query := toLowerCase (trim (search f)) in
  if negb (includeNonTrips f) && negb (isReis (transactie trip)) then false
  else if (size (selectedProducts f) =? 0)%nat then false
  else if negb (hasProduct (selectedProducts f) (product trip)) then false
  else if match dateStart f with Some s => dateLt (date trip) s | None => false end then false
  else if match dateEnd f with Some e => dateGt (date trip) e | None => false end then false
  else if JsString.truthy query then
    let match_ := toLowerCase (from trip +:+ " " +:+ to trip) in
    if negb (includes match_ query) then false else true
  else true.

Definition filteredTrips (f : FilterState) (trips : list Trip) : list Trip :=
  List.filter (passes f) trips.

(** The coordinate object, [coordsJson.stops], by its own properties. *)
Abbreviation Coords := (gmap string Resolver.StopCoordinateEntry).

(** [coords[name]]: the entry of the name, or the value the object
    inherits under it; both are truthy. *)
Definition coordOf (coords : Coords) (name : string)
  : option (Value Resolver.StopCoordinateEntry) :=
  get (coords !! name) name.

(** A route object: the value of an entry of [routeMap]. *)
Module Route.
Record t := mk {
  from : string;
  to : string;
  fromCoord : Value Resolver.StopCoordinateEntry;
  toCoord : Value Resolver.StopCoordinateEntry;
  count : nat;
  products : list (option string * nat);
  dates : list Date
}.
End Route.

(** The four collections the loop of [analytics] fills. *)
Module Tally.
Record t := mk {
  routeMap : list (string * Route.t);
  stopMap : list (string * nat);
  productMap : list (option string * nat);
  missing : list string
}.
Definition empty : t := mk [] [] [] [].
End Tally.

(** The key of a route: the template [from -> to]. *)
Definition routeKey (from to : string) : string := from +:+ " -> " +:+ to.

(** The callback of [filteredTrips.forEach] in [analytics]. *)
Definition tally (coords : Coords) (acc : Tally.t) (trip : Trip) : Tally.t :=
  let productMap := increment (Tally.productMap acc) (product trip) in
  if negb (isReis (transactie trip)) then
    Tally.mk (Tally.routeMap acc) (Tally.stopMap acc) productMap (Tally.missing acc)
  else if negb (JsString.truthy (from trip)) || negb (JsString.truthy (to trip)) then
    Tally.mk (Tally.routeMap acc) (Tally.stopMap acc) productMap (Tally.missing acc)
  else
    let missing1 :=
      if coordOf coords (from trip) is None
      then setAdd (Tally.missing acc) (from trip) else Tally.missing acc in
    let missing2 :=
      if coordOf coords (to trip) is None then setAdd missing1 (to trip) else missing1 in
    match coordOf coords (from trip), coordOf coords (to trip) with
    | Some fromCoord, Some toCoord =>
        let key := routeKey (from trip) (to trip) in
        let route :=
          default (Route.mk (from trip) (to trip) fromCoord toCoord 0 [] [])
                  (mapGet (Tally.routeMap acc) key) in
        let route' :=
          Route.mk (Route.from route) (Route.to route)
                   (Route.fromCoord route) (Route.toCoord route)
                   (Route.count route + 1)
                   (increment (Route.products route) (product trip))
                   (Route.dates route ++ [date trip]) in
        Tally.mk (mapSet (Tally.routeMap acc) key route')
                 (increment (increment (Tally.stopMap acc) (from trip)) (to trip))
                 productMap missing2
    | _, _ => Tally.mk (Tally.routeMap acc) (Tally.stopMap acc) productMap missing2
    end.

Definition tallyAll (coords : Coords) (filteredTrips : list Trip) : Tally.t :=
  fold_left (tally coords) filteredTrips Tally.empty.

Module StopAggregate.
Record t := mk {
  name : string;
  count : nat;
  coord : option (Value Resolver.StopCoordinateEntry)
}.
End StopAggregate.

Module ProductAggregate.
Record t := mk {
  name : option string;
  count : nat
}.
End ProductAggregate.

Module Analytics.
Record t := mk {
  routes : list Route.t;
  stops : list StopAggregate.t;
  products : list ProductAggregate.t;
  missing : list string
}.
End Analytics.

(** [(a, b) => b.count - a.count] *)
Definition byCountDesc {A} (count : A -> nat) (a b : A) : Z :=
  (Z.of_nat (count b) - Z.of_nat (count a))%Z.

(** [analytics] *)
Definition analytics `{Host} (coords : Coords) (filteredTrips : list Trip) : Analytics.t :=
  let acc := tallyAll coords filteredTrips in
  {| Analytics.routes := sort (byCountDesc Route.count) (map snd (Tally.routeMap acc));
     Analytics.stops :=
       sort (byCountDesc StopAggregate.count)
            (map (fun e => StopAggregate.mk e.1 e.2 (coordOf coords (e.1))) (Tally.stopMap acc));
     Analytics.products :=
       sort (byCountDesc ProductAggregate.count)
            (map (fun e => ProductAggregate.mk e.1 e.2) (Tally.productMap acc));
     Analytics.missing := sort localeCompare (Tally.missing acc) |}.

End App.

(** ** What the app derives from the trips and the aggregates *)

Module AppView.
Import JsObject JsString JsCollections JsDate JsHost App.

(** [allProducts]: the products of the trips that are truthy, each once,
    sorted. *)
Definition addProduct (set : list string) (trip : Trip) : list string :=
  if truthyOpt (product trip) then setAdd set (default "" (product trip)) else set.

Definition allProducts `{Host} (trips : list Trip) : list string :=
  sort localeCompare (fold_left addProduct trips []).

(** [Math.min(...dates)] and [Math.max(...dates)] on the time values of
    at least one date: [NaN] as soon as one of them is [NaN]. *)
Definition minNumber (a b : option Z) : option Z :=
  match a, b with
  | Some x, Some y => Some (Z.min x y)
  | _, _ => None
  end.

Definition maxNumber (a b : option Z) : option Z :=
  match a, b with
  | Some x, Some y => Some (Z.max x y)
  | _, _ => None
  end.

Module DataRange.
Record t := mk { min : option Date; max : option Date }.
End DataRange.

(** [dataRange]; a [null] bound is [None]. *)
Definition dataRange (trips : list Trip) : DataRange.t :=
  match map (fun trip => timeValue (date trip)) trips with
  | [] => DataRange.mk None None
  | first :: rest =>
      DataRange.mk (Some (mkDate (TimeClip (fold_left minNumber rest first))))
                   (Some (mkDate (TimeClip (fold_left maxNumber rest first))))
  end.

(** The filter state the component starts with. *)
Definition initialFilter : FilterState :=
  {| includeNonTrips := false;
     selectedProducts := ∅;
     dateStart := None;
     dateEnd := None;
     search := "" |}.

(** The effect that selects every product once there are products. *)
Definition initProducts (allProducts : list string) (f : FilterState) : FilterState :=
  match allProducts with
  | [] => f
  | _ =>
      {| includeNonTrips := includeNonTrips f;
         selectedProducts := list_to_set allProducts;
         dateStart := dateStart f;
         dateEnd := dateEnd f;
         search := search f |}
  end.

(** The effect that sets the bounds that are not set to the data range,
    once the range has both bounds. *)
Definition initDates (range : DataRange.t) (f : FilterState) : FilterState :=
  match DataRange.min range, DataRange.max range with
  | Some lo, Some hi =>
      {| includeNonTrips := includeNonTrips f;
         selectedProducts := selectedProducts f;
         dateStart := if dateStart f is None then Some lo else dateStart f;
         dateEnd := if dateEnd f is None then Some hi else dateEnd f;
         search := search f |}
  | _, _ => f
  end.

(** The filter state after both effects have run on the loaded trips. *)
Definition defaultFilter `{Host} (trips : list Trip) : FilterState :=
  initDates (dataRange trips) (initProducts (allProducts trips) initialFilter).

(** [toggleProduct(product)], [clearProducts()] and [selectAllProducts()],
    as the set they pass to [setSelectedProducts]. *)
Definition toggleProduct (selectedProducts : gset string) (product : string) : gset string :=
  if bool_decide (product ∈ selectedProducts)
  then selectedProducts ∖ {[ product ]}
  else selectedProducts ∪ {[ product ]}.

Definition clearProducts : gset string := ∅.

Definition selectAllProducts (allProducts : list string) : gset string :=
  list_to_set allProducts.

(** [routeThreshold] and [visibleRoutes]; the slider yields whole
    numbers. *)
Definition routeThreshold (minRouteCount : Z) : Z := Z.max 1 minRouteCount.

Definition visibleRoutes (minRouteCount : Z) (a : Analytics.t) : list Route.t :=
  List.filter (fun route => (routeThreshold minRouteCount <=? Z.of_nat (Route.count route))%Z)
              (Analytics.routes a).

(** [counts.length ? Math.max(...counts) : 1] *)
Definition maxOrOne (counts : list nat) : nat :=
  match counts with
  | [] => 1
  | _ => fold_right Nat.max 0 counts
  end.

Definition maxRouteCount (a : Analytics.t) : nat :=
  maxOrOne (map Route.count (Analytics.routes a)).

Definition visibleMaxRouteCount (minRouteCount : Z) (a : Analytics.t) : nat :=
  maxOrOne (map Route.count (visibleRoutes minRouteCount a)).

Definition maxStopCount (a : Analytics.t) : nat :=
  maxOrOne (map StopAggregate.count (Analytics.stops a)).

(** [coord.lat] and [coord.lng]: an inherited value has neither
    property, and the read is [undefined]. *)
Definition latOf (coord : Value Resolver.StopCoordinateEntry) : option float :=
  match coord with Own entry => Some (Resolver.lat entry) | Inherited _ => None end.

Definition lngOf (coord : Value Resolver.StopCoordinateEntry) : option float :=
  match coord with Own entry => Some (Resolver.lng entry) | Inherited _ => None end.

(** [boundsPoints]: latitude and longitude of the stops with a
    coordinate. *)
Definition boundsPoints (a : Analytics.t) : list (option float * option float) :=
  omap (fun stop => (fun c => (latOf c, lngOf c)) <$> StopAggregate.coord stop)
       (Analytics.stops a).

Definition filteredCount (filteredTrips : list Trip) : nat := length filteredTrips.

Definition tripCount (filteredTrips : list Trip) : nat :=
  length (List.filter (fun trip => isReis (transactie trip)) filteredTrips).

Definition uniqueStops (a : Analytics.t) : nat := length (Analytics.stops a).

Definition uniqueRoutes (a : Analytics.t) : nat := length (Analytics.routes a).

Definition topStop (a : Analytics.t) : option StopAggregate.t := head (Analytics.stops a).

(** [Array.from(route.products.entries()).sort((a, b) => b[1] - a[1])[0]] *)
Definition dominant (route : Route.t) : option (option string * nat) :=
  head (sort (byCountDesc snd) (Route.products route)).

End AppView.

(** * Specification

    The predicates the statements below are written with. *)

Module ResolverSpec.
Import JsObject JsString Resolver.

(** The ways a lookup fails, in the words of the specification: the
    request errors, the response has a non-success status, or the
    response contains zero results. *)
Inductive LookupFails : FetchOutcome -> Prop :=
| RequestErrors (message : string) :
    LookupFails (FetchThrows message)
| NonSuccessStatus (status : nat) (body : JsonBody) :
    LookupFails (FetchResponse false status body)
| ZeroResults (status : nat) :
    LookupFails (FetchResponse true status (JsonArray [])).

(** The store a visit leaves in memory: untouched, or the name pushed on
    [unmatched], or the name set in [stops]. *)
Inductive VisitOutcome (o : Store) (name : string) : Store -> Prop :=
| Skipped :
    classified o name = true -> VisitOutcome o name o
| Unmatched :
    classified o name = false -> VisitOutcome o name (pushUnmatched name o)
| Resolved (result : StopCoordinateEntry) :
    classified o name = false -> is_Some (guessQuery name) ->
    VisitOutcome o name (setStop name result o).

(** No name is both a key of [stops] and an element of [unmatched]. *)
Definition consistent (o : Store) : Prop :=
  forall name, name ∈ unmatched o -> stops o !! name = None.

(** Every store the run has written, and the store in memory, is
    consistent. *)
Definition worldConsistent (w : World) : Prop :=
  consistent (output w) /\
  forall content, WriteFile content ∈ trace w -> consistent content.

(** A name that is unmatched and not a key of [stops] stays so. *)
Definition settledUnmatched (o : Store) (n : string) : Prop :=
  n ∈ unmatched o /\ stops o !! n = None.

(** The file holds the [stops] of the memory, and the [unmatched] of the
    memory but for names without a query pushed since the last write. *)
Definition lagging (w : World) : Prop :=
  stops (output w) = stops (existingStore (disk w)) /\
  exists pending,
    unmatched (output w) = (unmatched (existingStore (disk w)) ++ pending)%list /\
    forall n, n ∈ pending -> guessQuery n = None.

(** The classifications in memory are those of the file. *)
Definition durable (w : World) : Prop :=
  stops (output w) = stops (existingStore (disk w))
  /\ unmatched (output w) = unmatched (existingStore (disk w)).

End ResolverSpec.

Module AppSpec.
Import JsObject JsString JsCollections JsNumber JsDate JsHost App.

(** A journey with both stop names: the trips [analytics] looks at for
    routes and stops. *)
Definition isJourney (trip : Trip) : bool :=
  isReis (transactie trip) && JsString.truthy (from trip) && JsString.truthy (to trip).

(** Every route and every stop of the tally has coordinates for the
    names it holds. *)
Definition resolvedEnds (coords : Coords) (acc : Tally.t) : Prop :=
  (forall e, e ∈ Tally.routeMap acc ->
     is_Some (coordOf coords (Route.from e.2)) /\ is_Some (coordOf coords (Route.to e.2)))
  /\ (forall e, e ∈ Tally.stopMap acc -> is_Some (coordOf coords (e.1))).

(** The count of the route stored under [key], 0 without one. *)
Definition routeCount (acc : Tally.t) (key : string) : nat :=
  default 0%nat (Route.count <$> mapGet (Tally.routeMap acc) key).

(** The trips that [analytics] adds to the route stored under [key]. *)
Definition countedUnder (coords : Coords) (key : string) (trip : Trip) : bool :=
  isJourney trip
  && bool_decide (is_Some (coordOf coords (from trip)))
  && bool_decide (is_Some (coordOf coords (to trip)))
  && String.eqb (routeKey (from trip) (to trip)) key.

(** [d] is not before [s], and [d] is not after [e], as the comparison
    of time values decides it: a comparison with an invalid date
    excludes nothing. *)
Definition notBefore (d s : Date) : Prop :=
  forall x y, timeValue d = Some x -> timeValue s = Some y -> (y <= x)%Z.

Definition notAfter (d e : Date) : Prop :=
  forall x y, timeValue d = Some x -> timeValue e = Some y -> (x <= y)%Z.

(** The date lies within the inclusive range; a bound that is not set
    excludes nothing. *)
Definition inDateRange (f : FilterState) (d : Date) : Prop :=
  (forall s, dateStart f = Some s -> notBefore d s)
  /\ (forall e, dateEnd f = Some e -> notAfter d e).

(** The tests of the filter callback, one by one. *)
Definition passesType (f : FilterState) (trip : Trip) : Prop :=
  transactie trip = Some "Reis" \/ includeNonTrips f = true.

Definition passesProduct (f : FilterState) (trip : Trip) : Prop :=
  selectedProducts f <> ∅
  /\ exists p, product trip = Some p /\ p ∈ selectedProducts f.

(** The search text the callback looks for, and the text it looks in. *)
Definition searchMatches (f : FilterState) (trip : Trip) : Prop :=
  trim (search f) <> "" ->
  substring_of (toLowerCase (trim (search f)))
               (toLowerCase (from trip +:+ " " +:+ to trip)).

(** The number the destructuring binds at position [i] of a [Datum]. *)
Definition component `{Host} (value : string) (i : nat) : option float :=
  map Number (split "-" value) !! i.

End AppSpec.

(** Inputs for the runs on concrete data. *)

Module Samples.
Import JsObject JsString JsDate JsHost Resolver App.
Local Existing Instance referenceHost.

(** A network on which every request errors. *)
Definition offline : Network := fun _ _ => FetchThrows "fetch failed".

Definition timeStamp : string := "2026-01-01T00:00:00.000Z".

Definition classifiedStore : Store :=
  {| generatedAt := Some "2025-12-30T10:00:00.000Z";
     stops := {[ "Dam" := mkEntry (JsNumber.ofZ 52) (JsNumber.ofZ 4) "Dam, Amsterdam"
                            "Dam, Amsterdam, Netherlands" ]};
     unmatched := ["Onbekend"] |}.

Definition somewhere : Resolver.StopCoordinateEntry :=
  Resolver.mkEntry (JsNumber.ofZ 52) (JsNumber.ofZ 5) "somewhere" "somewhere, Netherlands".

(** A journey on 1 February 2024 between two stops. *)
Definition journey (from to : string) : Trip :=
  {| id := "01-02-2024-08:15-0";
     date := mkDate (Some 1706745600000%Z);
     dateLabel := Some "01-02-2024";
     checkIn := Some "08:15";
     checkOut := Some "08:40";
     from := from;
     to := to;
     transactie := Some "Reis";
     product := Some "Bus, Tram en Metro reizen";
     class := Some "";
     note := "" |}.

Definition searching (text : string) : FilterState :=
  {| includeNonTrips := false;
     selectedProducts := {[ "Bus, Tram en Metro reizen" ]};
     dateStart := None;
     dateEnd := None;
     search := text |}.

Definition nothingSelected : FilterState :=
  {| includeNonTrips := true;
     selectedProducts := ∅;
     dateStart := None;
     dateEnd := None;
     search := "" |}.

End Samples.

(** Predicates and measures for the further properties. *)

Module MoreSpec.
Import JsObject JsString JsCollections JsDate JsHost Resolver App AppView.
Local Open Scope list_scope.

(** The names the run made a request for, oldest first. *)
Definition fetchedName (e : Event) : option string :=
  match e with Fetch name _ => Some name | _ => None end.

Definition fetched (trace : list Event) : list string := omap fetchedName trace.

(** The name is a key of [stops] or an element of [unmatched]. *)
Definition recorded (o : Store) (n : string) : Prop :=
  is_Some (stops o !! n) \/ n ∈ unmatched o.

Definition isWrite (e : Event) : bool :=
  match e with WriteFile _ => true | _ => false end.

Definition isDelay (e : Event) : bool :=
  match e with Delay _ => true | _ => false end.

(** A field as a CSV writer quotes it: every quote doubled, the whole
    between quotes. *)
Fixpoint escapeQuotes (field : string) : string :=
  match field with
  | EmptyString => EmptyString
  | String c rest =>
      if Ascii.eqb c "034" then String "034" (String "034" (escapeQuotes rest))
      else String c (escapeQuotes rest)
  end.

Definition quoteField (field : string) : string :=
  String "034" (escapeQuotes field +:+ String "034" EmptyString).

(** The character occurs in the string. *)
Fixpoint hasChar (c : ascii) (s : string) : bool :=
  match s with
  | EmptyString => false
  | String d rest => Ascii.eqb d c || hasChar c rest
  end.

(** A journey for both of whose stops the read of the coordinate object
    finds a value: the trips that [analytics] counts in a route and in
    two stops. *)
Definition resolvedJourney (coords : Coords) (trip : Trip) : bool :=
  AppSpec.isJourney trip
  && bool_decide (is_Some (coordOf coords (from trip)))
  && bool_decide (is_Some (coordOf coords (to trip))).

(** The count a map of counts holds for a key, 0 without one. *)
Definition countOf {K} `{EqDecision K} (m : list (K * nat)) (k : K) : nat :=
  default 0%nat (mapGet m k).

(** The counts of a map are at least 1. *)
Definition positive {K} (m : list (K * nat)) : Prop :=
  forall e, e ∈ m -> (1 <= e.2)%nat.

(** What holds of every route object of the tally. *)
Definition routeSound (coords : Coords) (e : string * Route.t) : Prop :=
  let r := e.2 in
  e.1 = routeKey (Route.from r) (Route.to r)
  /\ (1 <= Route.count r)%nat
  /\ Route.count r = length (Route.dates r)
  /\ Route.count r = sum_list_with snd (Route.products r)
  /\ NoDup (Route.products r).*1
  /\ positive (Route.products r)
  /\ Route.from r <> "" /\ Route.to r <> ""
  /\ coordOf coords (Route.from r) = Some (Route.fromCoord r)
  /\ coordOf coords (Route.to r) = Some (Route.toCoord r).

(** What the loop of [analytics] keeps true of its four collections. *)
Definition tallySound (coords : Coords) (acc : Tally.t) : Prop :=
  (NoDup (Tally.routeMap acc).*1
   /\ forall e, e ∈ Tally.routeMap acc -> routeSound coords e)
  /\ (NoDup (Tally.stopMap acc).*1 /\ positive (Tally.stopMap acc)
      /\ forall e, e ∈ Tally.stopMap acc -> is_Some (coordOf coords (e.1)))
  /\ (NoDup (Tally.productMap acc).*1 /\ positive (Tally.productMap acc))
  /\ (NoDup (Tally.missing acc)
      /\ forall x, x ∈ Tally.missing acc -> coordOf coords x = None).

(** The journeys that leave from, and that arrive at, a stop. *)
Definition leavesFrom (coords : Coords) (name : string) (trip : Trip) : bool :=
  resolvedJourney coords trip && String.eqb (from trip) name.

Definition arrivesAt (coords : Coords) (name : string) (trip : Trip) : bool :=
  resolvedJourney coords trip && String.eqb (to trip) name.

(** The trips of a product. *)
Definition hasProductName (p : option string) (trip : Trip) : bool :=
  bool_decide (product trip = p).

(** The names of the requests made so far are classified, and no name
    has two requests. *)
Definition fetchedOnce (w : World) : Prop :=
  NoDup (fetched (trace w))
  /\ forall n, n ∈ fetched (trace w) -> classified (output w) n = true.

(** The accumulator after the characters of [s] have been added. *)
Fixpoint pushed (s current : string) : string :=
  match s with
  | EmptyString => current
  | String c rest => pushed rest (String c current)
  end.

(** The stop names a data line holds in the two columns. *)
Definition namesOf (vertrekIndex bestemmingIndex : option nat) (line n : string) : Prop :=
  n <> "" /\
  (at_ (parseCsvLine line) vertrekIndex = Some n
   \/ at_ (parseCsvLine line) bestemmingIndex = Some n).

(** The route object a resolved journey leaves under its key. *)
Definition routeAfter (coords : Coords) (acc : Tally.t) (trip : Trip)
    (fromCoord toCoord : Value Resolver.StopCoordinateEntry) : Route.t :=
  let route :=
    default (Route.mk (from trip) (to trip) fromCoord toCoord 0 [] [])
            (mapGet (Tally.routeMap acc) (routeKey (from trip) (to trip))) in
  Route.mk (Route.from route) (Route.to route)
           (Route.fromCoord route) (Route.toCoord route)
           (Route.count route + 1)
           (increment (Route.products route) (product trip))
           (Route.dates route ++ [date trip]).

End MoreSpec.

(** ** More sample data *)

Module MoreSamples.
Import JsObject JsString JsDate JsHost Resolver App Samples.

(** A network that knows one place, whatever the request. *)
Definition online : Network :=
  fun _ _ =>
    FetchResponse true 200
      (JsonArray [mkPlace "52" "4" "Dam, Amsterdam, Noord-Holland, Nederland"]).

(** An export of two journeys. *)
Definition twoJourneys : string :=
  "Datum,Check in,Vertrek,Check uit,Bestemming"
    +:+ String "010" "01-02-2024,08:15,Spui,08:40,Dam"
    +:+ String "010" "02-02-2024,17:05,Dam,17:30,Spui".

(** The route aggregate of one sample journey from "A" to "B". *)
Definition routeAB : Route.t :=
  Route.mk "A" "B" (Own somewhere) (Own somewhere) 1
           [(Some "Bus, Tram en Metro reizen", 1%nat)]
           [mkDate (Some 1706745600000%Z)].

End MoreSamples.

(** * Properties *)

(** ** Strings *)

Section StringFacts.
Import JsString.

Lemma prefix_spec (p s : string) :
  String.prefix p s = true <-> exists post, s = p +:+ post.
Proof.
  revert s; induction p as [|c p IH]; intros [|d s]; simpl.
  - split; [intros _; by exists "" | done].
  - split; [intros _; by exists (String d s) | done].
  - split; [done | intros [post Hp]; discriminate].
  - destruct (ascii_dec c d) as [->|Hne].
    + rewrite IH. split; intros [post Hp]; exists post.
      * by subst.
      * change (String d s = String d (p +:+ post)) in Hp. congruence.
    + split; [done | intros [post Hp]].
      change (String d s = String c (p +:+ post)) in Hp. congruence.
Qed.

Lemma includes_unfold (s sub : string) :
  includes s sub =
    if String.prefix sub s then true
    else match s with EmptyString => false | String _ s' => includes s' sub end.
Proof. by destruct s. Qed.

Lemma includes_spec (s sub : string) :
  includes s sub = true <-> substring_of sub s.
Proof.
  split.
  - induction s as [|c s IH]; rewrite includes_unfold.
    + destruct (String.prefix sub "") eqn:Hp; [|done].
      intros _. apply prefix_spec in Hp as [post ->]. by exists "", post.
    + destruct (String.prefix sub (String c s)) eqn:Hp.
      * intros _. apply prefix_spec in Hp as [post ->]. by exists "", post.
      * intros Hi. destruct (IH Hi) as (pre & post & ->).
        by exists (String c pre), post.
  - intros (pre & post & ->). induction pre as [|c pre IH]; rewrite includes_unfold.
    + replace (String.prefix sub ("" +:+ sub +:+ post)) with true; [done|].
      symmetry. apply prefix_spec. by exists post.
    + change (String c pre +:+ sub +:+ post) with (String c (pre +:+ sub +:+ post)).
      cbv iota. rewrite IH. by destruct (String.prefix sub _).
Qed.

Lemma includes_false (s sub : string) :
  includes s sub = false <-> ~ substring_of sub s.
Proof.
  rewrite <- includes_spec. destruct (includes s sub); split; congruence.
Qed.

Lemma truthy_spec (s : string) : truthy s = true <-> s <> "".
Proof. destruct s; simpl; split; congruence. Qed.

Lemma truthy_false (s : string) : truthy s = false <-> s = "".
Proof. destruct s; simpl; split; congruence. Qed.

End StringFacts.

(** ** Collections *)

Section CollectionFacts.
Import JsCollections JsHost.

(** Sorting keeps the elements. *)

Lemma elem_of_sortInsert {A} (cmp : A -> A -> Z) (x y : A) (l : list A) :
  y ∈ sortInsert cmp x l <-> y = x \/ y ∈ l.
Proof.
  induction l as [|z l IH]; simpl.
  - rewrite list_elem_of_singleton. split; [by left | intros [?|Hn]; [done|]].
    by apply not_elem_of_nil in Hn.
  - destruct (cmp x z <=? 0)%Z.
    + by rewrite elem_of_cons.
    + rewrite !elem_of_cons, IH. tauto.
Qed.

Lemma elem_of_sort {A} (cmp : A -> A -> Z) (y : A) (l : list A) :
  y ∈ sort cmp l <-> y ∈ l.
Proof.
  induction l as [|x l IH]; simpl; [done|].
  by rewrite elem_of_sortInsert, elem_of_cons, IH.
Qed.

(** Insertion-ordered maps and sets. *)

Lemma mapGet_mapSet_eq {K V} `{EqDecision K} (m : list (K * V)) (k : K) (v : V) :
  mapGet (mapSet m k v) k = Some v.
Proof.
  induction m as [|[k' v'] m IH]; simpl.
  - by rewrite decide_True.
  - destruct (decide (k' = k)) as [->|Hne]; simpl.
    + by rewrite decide_True.
    + by rewrite decide_False.
Qed.

Lemma mapGet_mapSet_ne {K V} `{EqDecision K} (m : list (K * V)) (k k' : K) (v : V) :
  k <> k' -> mapGet (mapSet m k v) k' = mapGet m k'.
Proof.
  intros Hne. induction m as [|[k0 v0] m IH]; simpl.
  - by rewrite decide_False.
  - destruct (decide (k0 = k)) as [->|Hne0]; simpl.
    + by rewrite !decide_False.
    + by rewrite IH.
Qed.

Lemma elem_of_setAdd {K} `{EqDecision K} (s : list K) (k x : K) :
  x ∈ setAdd s k <-> x = k \/ x ∈ s.
Proof.
  unfold setAdd. destruct (decide (k ∈ s)) as [Hin|Hnin].
  - split; [by right | intros [->|?]; done].
  - rewrite elem_of_app, list_elem_of_singleton. tauto.
Qed.

Lemma mapGet_Some_elem {K V} `{EqDecision K} (m : list (K * V)) (k : K) (v : V) :
  mapGet m k = Some v -> (k, v) ∈ m.
Proof.
  induction m as [|[k' v'] m IH]; simpl; [done|].
  destruct (decide (k' = k)) as [->|Hne].
  - intros [= ->]. left.
  - intros Hg. right. by apply IH.
Qed.

Lemma elem_of_mapSet {K V} `{EqDecision K} (m : list (K * V)) (k : K) (v : V) (e : K * V) :
  e ∈ mapSet m k v -> e = (k, v) \/ e ∈ m.
Proof.
  induction m as [|[k' v'] m IH]; simpl.
  - rewrite list_elem_of_singleton. by left.
  - destruct (decide (k' = k)) as [->|Hne]; rewrite !elem_of_cons; [tauto|].
    intros [->|He]; [by right; left|]. destruct (IH He); auto.
Qed.

End CollectionFacts.

(** ** The resolver *)

Section ResolverFacts.
Import JsString JsCollections JsObject JsHost Resolver ResolverSpec.
Context `{Host}.

Lemma inherits_spec (key : string) : inherits key = true <-> key ∈ prototypeKeys.
Proof.
  unfold inherits. rewrite existsb_exists. split.
  - intros (y & Hin & Heq). apply String.eqb_eq in Heq as ->. by apply list_elem_of_In.
  - intros Hin. exists key. split; [by apply list_elem_of_In | apply String.eqb_refl].
Qed.

Lemma inherits_false (key : string) : inherits key = false <-> key ∉ prototypeKeys.
Proof. rewrite <- inherits_spec. destruct (inherits key); split; congruence. Qed.

Lemma get_None {A} (own : option A) (key : string) :
  get own key = None <-> own = None /\ inherits key = false.
Proof.
  unfold get. destruct own as [v|].
  - split; [done | by intros [? _]].
  - destruct (inherits key); split; try done. by intros [_ ?].
Qed.

Lemma get_is_Some {A} (own : option A) (key : string) :
  is_Some (get own key) <-> is_Some own \/ inherits key = true.
Proof.
  unfold get. destruct own as [v|].
  - split; [by left; eexists | by eexists].
  - destruct (inherits key).
    + split; [by right | by eexists].
    + split; [by intros [? ?] | by intros [[? ?]|?]].
Qed.

Lemma has_spec (set : list string) (x : string) : has set x = true <-> x ∈ set.
Proof.
  unfold has. rewrite existsb_exists. split.
  - intros (y & Hin & Heq). apply String.eqb_eq in Heq as ->. by apply list_elem_of_In.
  - intros Hin. exists x. split; [by apply list_elem_of_In | apply String.eqb_refl].
Qed.

Lemma has_false (set : list string) (x : string) : has set x = false <-> x ∉ set.
Proof. rewrite <- has_spec. destruct (has set x); split; congruence. Qed.

Lemma ownGet_None (obj : list (string * string)) (key : string) :
  ownGet obj key = None <-> key ∉ obj.*1.
Proof.
  induction obj as [|[k v] obj IH]; simpl.
  - split; [intros _; apply not_elem_of_nil | done].
  - destruct (String.eqb k key) eqn:E.
    + apply String.eqb_eq in E as ->. split; [done | intros Hn].
      exfalso. apply Hn. apply list_elem_of_here.
    + apply String.eqb_neq in E. rewrite IH, not_elem_of_cons.
      split; [intros Hx; split; [congruence | done] | by intros [_ Hx]].
Qed.

(** The fallback rule of [guessQuery], for a name the earlier rules pass. *)
Lemma guessQuery_fallback (name : string) :
  name <> "" -> name <> "Onbekend" ->
  ~ substring_of "," name ->
  name ∉ overrides.*1 -> name ∉ prototypeKeys ->
  (forall prefix, prefix ∈ allCityPrefixes -> ~ exists rest, name = prefix +:+ rest) ->
  name ∉ denHaagStops -> name ∉ rotterdamStops ->
  name ∉ purmerendStops -> name ∉ zandvoortStops ->
  guessQuery name = Some (QueryText (name +:+ ", Amsterdam, Netherlands")).
Proof.
  intros Hne Hs Hc Ho Hi Hp Hd Hr Hpu Hz. unfold guessQuery.
  apply truthy_spec in Hne. apply String.eqb_neq in Hs. rewrite Hne, Hs.
  cbn [negb orb]. apply ownGet_None in Ho. apply inherits_false in Hi.
  unfold objGet, get. rewrite Ho, Hi. cbn [truthyValue].
  apply includes_false in Hc. rewrite Hc.
  replace (existsb _ allCityPrefixes) with false.
  2:{ symmetry. apply not_true_is_false. rewrite existsb_exists.
      intros (p & Hin & Hst). apply list_elem_of_In in Hin.
      apply (Hp p Hin). by apply prefix_spec. }
  apply has_false in Hd, Hr, Hpu, Hz. by rewrite Hd, Hr, Hpu, Hz.
Qed.

(** *** One visit *)

Lemma classified_false (o : Store) (name : string) :
  classified o name = false <->
    stops o !! name = None /\ (name ∉ unmatched o) /\ inherits name = false.
Proof.
  unfold classified. rewrite orb_false_iff, has_false, bool_decide_eq_false.
  rewrite <- eq_None_not_Some, get_None. tauto.
Qed.

Lemma classified_true (o : Store) (name : string) :
  classified o name = true <->
    is_Some (stops o !! name) \/ name ∈ unmatched o \/ inherits name = true.
Proof.
  unfold classified. rewrite orb_true_iff, has_spec, bool_decide_eq_true, get_is_Some.
  tauto.
Qed.

Lemma visit_outcome (net : Network) (w : World) (name : string) :
  VisitOutcome (output w) name (output (visit net w name)).
Proof.
  unfold visit. destruct (classified (output w) name) eqn:Hc.
  - by constructor.
  - destruct (guessQuery name) as [query|] eqn:Hq; simpl.
    + destruct (geocode net name query) as [[result|]|message]; simpl;
        by constructor.
    + by constructor.
Qed.

Lemma visit_classified (net : Network) (w : World) (name : string) :
  classified (output w) name = true -> visit net w name = w.
Proof. intros Hc. unfold visit. by rewrite Hc. Qed.

(** A visit of a name without a query touches neither the file nor the
    trace. *)
Lemma visit_no_query (net : Network) (w : World) (name : string) :
  guessQuery name = None ->
  disk (visit net w name) = disk w /\ trace (visit net w name) = trace w /\
  stops (output (visit net w name)) = stops (output w) /\
  unmatched (output (visit net w name)) =
    if classified (output w) name then unmatched (output w)
    else (unmatched (output w) ++ [name])%list.
Proof.
  intros Hq. unfold visit. destruct (classified (output w) name); [done|].
  by rewrite Hq.
Qed.

(** A visit that makes an attempt writes the store it leaves in memory. *)
Lemma visit_attempt_written (net : Network) (w : World) (name : string) (query : Query) :
  classified (output w) name = false -> guessQuery name = Some query ->
  let w' := visit net w name in
  disk w' = Some (output w') /\
  exists events,
    trace w' = (trace w ++ Fetch name (searchRequest query) :: events
                  ++ [WriteFile (output w'); Delay 1100])%list /\
    forall e, e ∈ events -> exists message, e = ConsoleError message.
Proof.
  intros Hc Hq. unfold visit. rewrite Hc, Hq. simpl. split; [done|].
  destruct (geocode net name query) as [[result|]|message]; simpl.
  - exists []. split; [done | intros e He; by apply not_elem_of_nil in He].
  - exists []. split; [done | intros e He; by apply not_elem_of_nil in He].
  - exists [ConsoleError message]. split; [done|].
    intros e He. apply list_elem_of_singleton in He. by exists message.
Qed.

(** *** The invariant of the store *)

Lemma outcome_consistent (o o' : Store) (name : string) :
  VisitOutcome o name o' -> consistent o -> consistent o'.
Proof.
  intros Ho Hcons. destruct Ho as [Hc|Hc|result Hc _]; [done| |].
  - apply classified_false in Hc as (Hs & Hu & _). intros n Hn. simpl in *.
    apply elem_of_app in Hn as [Hn|Hn]; [by apply Hcons|].
    apply list_elem_of_singleton in Hn. by subst.
  - apply classified_false in Hc as (Hs & Hu & _). intros n Hn. simpl in *.
    rewrite lookup_insert_ne; [by apply Hcons | congruence].
Qed.

Lemma visit_worldConsistent (net : Network) (w : World) (name : string) :
  worldConsistent w -> worldConsistent (visit net w name).
Proof.
  intros [Ho Ht]. split.
  - eapply outcome_consistent; [apply visit_outcome | done].
  - pose proof (outcome_consistent _ _ _ (visit_outcome net w name) Ho) as Ho'.
    destruct (classified (output w) name) eqn:Hc.
    { by rewrite visit_classified. }
    destruct (guessQuery name) as [query|] eqn:Hq.
    + destruct (visit_attempt_written net w name query Hc Hq) as (_ & events & -> & Hev).
      intros content Hin.
      rewrite elem_of_app, elem_of_cons, elem_of_app in Hin.
      destruct Hin as [Hin|[Hin|[Hin|Hin]]]; [by apply Ht | done | |].
      * apply Hev in Hin as [message Hin]. done.
      * apply elem_of_cons in Hin as [Hin|Hin]; [by injection Hin as ->|].
        apply list_elem_of_singleton in Hin. done.
    + destruct (visit_no_query net w name Hq) as (_ & -> & _). done.
Qed.

Lemma mainLoop_worldConsistent (net : Network) (names : list string) (w : World) :
  worldConsistent w -> worldConsistent (mainLoop net names w).
Proof.
  revert w. induction names as [|name names IH]; intros w Hw; [done|].
  apply IH. by apply visit_worldConsistent.
Qed.

(** *** The loop *)

Lemma mainLoop_app (net : Network) (pre post : list string) (w : World) :
  mainLoop net (pre ++ post) w = mainLoop net post (mainLoop net pre w).
Proof. apply fold_left_app. Qed.

Lemma mainLoop_cons (net : Network) (name : string) (names : list string) (w : World) :
  mainLoop net (name :: names) w = mainLoop net names (visit net w name).
Proof. done. Qed.

Lemma mainLoop_all_classified (net : Network) (names : list string) (w : World) :
  (forall n, n ∈ names -> classified (output w) n = true) ->
  mainLoop net names w = w.
Proof.
  induction names as [|name names IH]; intros Hall; [done|].
  rewrite mainLoop_cons, visit_classified; [|apply Hall; left].
  apply IH. intros n Hn. apply Hall. by right.
Qed.

(** A visit changes the classification of the visited name only. *)
Lemma visit_other (net : Network) (w : World) (name n : string) :
  n <> name ->
  stops (output (visit net w name)) !! n = stops (output w) !! n /\
  (n ∈ unmatched (output (visit net w name)) <-> n ∈ unmatched (output w)).
Proof.
  intros Hne. destruct (visit_outcome net w name) as [Hc|Hc|result Hc _]; simpl.
  - done.
  - split; [done|]. rewrite elem_of_app, list_elem_of_singleton.
    split; [by intros [Hn|Hn] | by left].
  - split; [|done]. by rewrite lookup_insert_ne.
Qed.

Lemma visit_other_classified (net : Network) (w : World) (name n : string) :
  n <> name ->
  classified (output (visit net w name)) n = classified (output w) n.
Proof.
  intros Hne. destruct (visit_other net w name n Hne) as [Hs Hu].
  destruct (classified (output w) n) eqn:Hc.
  - apply classified_true. apply classified_true in Hc. rewrite Hs, Hu. done.
  - apply classified_false. apply classified_false in Hc. rewrite Hs, Hu. done.
Qed.

(** After its visit a name is classified, and it stays so. *)
Lemma visit_classifies (net : Network) (w : World) (name : string) :
  classified (output (visit net w name)) name = true.
Proof.
  destruct (visit_outcome net w name) as [Hc|Hc|result Hc _];
    [done| |]; apply classified_true; simpl.
  - right. left. apply elem_of_app. right. by apply list_elem_of_singleton.
  - left. by rewrite lookup_insert_eq.
Qed.

Lemma visit_keeps_classified (net : Network) (w : World) (name n : string) :
  classified (output w) n = true -> classified (output (visit net w name)) n = true.
Proof.
  intros Hc. destruct (decide (n = name)) as [->|Hne].
  - apply visit_classifies.
  - by rewrite visit_other_classified.
Qed.

Lemma mainLoop_keeps_classified (net : Network) (names : list string) (w : World) (n : string) :
  classified (output w) n = true -> classified (output (mainLoop net names w)) n = true.
Proof.
  revert w. induction names as [|name names IH]; intros w Hc; [done|].
  rewrite mainLoop_cons. apply IH. by apply visit_keeps_classified.
Qed.

Lemma mainLoop_classifies (net : Network) (names : list string) (w : World) (n : string) :
  n ∈ names -> classified (output (mainLoop net names w)) n = true.
Proof.
  revert w. induction names as [|name names IH]; intros w Hn.
  - by apply not_elem_of_nil in Hn.
  - rewrite mainLoop_cons. apply elem_of_cons in Hn as [->|Hn]; [|by apply IH].
    apply mainLoop_keeps_classified, visit_classifies.
Qed.

Lemma visit_settled (net : Network) (w : World) (name n : string) :
  settledUnmatched (output w) n -> settledUnmatched (output (visit net w name)) n.
Proof.
  intros [Hu Hs]. destruct (decide (n = name)) as [->|Hne].
  - rewrite visit_classified; [done|]. apply classified_true. right. by left.
  - destruct (visit_other net w name n Hne) as [Hs' Hu']. split; [by apply Hu'|].
    by rewrite Hs'.
Qed.

Lemma mainLoop_settled (net : Network) (names : list string) (w : World) (n : string) :
  settledUnmatched (output w) n -> settledUnmatched (output (mainLoop net names w)) n.
Proof.
  revert w. induction names as [|name names IH]; intros w Hs; [done|].
  rewrite mainLoop_cons. apply IH. by apply visit_settled.
Qed.

Lemma geocode_fails (net : Network) (name : string) (query : Query) :
  LookupFails (net name (searchRequest query)) ->
  geocode net name query = Return None \/ exists message, geocode net name query = Throw message.
Proof.
  intros Hf. unfold geocode. destruct Hf; simpl; eauto.
Qed.

Lemma visit_lookup_fails (net : Network) (w : World) (name : string) (query : Query) :
  classified (output w) name = false -> guessQuery name = Some query ->
  LookupFails (net name (searchRequest query)) ->
  output (visit net w name) = pushUnmatched name (output w).
Proof.
  intros Hc Hq Hf. unfold visit. rewrite Hc, Hq.
  destruct (geocode_fails net name query Hf) as [->|[message ->]]; done.
Qed.

Lemma mainLoop_lookup_fails (net : Network) (names : list string) (w : World)
    (name : string) (query : Query) :
  name ∈ names -> classified (output w) name = false ->
  guessQuery name = Some query -> LookupFails (net name (searchRequest query)) ->
  settledUnmatched (output (mainLoop net names w)) name.
Proof.
  intros Hin Hc Hq Hf. revert w Hc.
  induction names as [|n names IH]; intros w Hc.
  - by apply not_elem_of_nil in Hin.
  - rewrite mainLoop_cons. destruct (decide (name = n)) as [<-|Hne].
    + apply mainLoop_settled. rewrite (visit_lookup_fails net w name query Hc Hq Hf).
      apply classified_false in Hc as (Hs & Hu & _). split; simpl; [|done].
      apply elem_of_app. right. by apply list_elem_of_singleton.
    + apply elem_of_cons in Hin as [->|Hin]; [done|]. apply IH; [done|].
      by rewrite visit_other_classified.
Qed.

(** Which requests a run makes. *)
Lemma visit_fetch (net : Network) (w : World) (name n : string) (req : Request) :
  Fetch n req ∈ trace (visit net w name) ->
  Fetch n req ∈ trace w \/
  (n = name /\ classified (output w) name = false /\
   exists query, guessQuery name = Some query /\ req = searchRequest query).
Proof.
  destruct (classified (output w) name) eqn:Hc.
  { rewrite visit_classified; auto. }
  destruct (guessQuery name) as [query|] eqn:Hq.
  - destruct (visit_attempt_written net w name query Hc Hq) as (_ & events & -> & Hev).
    rewrite elem_of_app, elem_of_cons, elem_of_app. intros [Hin|[Hin|[Hin|Hin]]]; auto.
    + injection Hin as -> ->. right. eauto.
    + apply Hev in Hin as [message Hin]. done.
    + apply elem_of_cons in Hin as [Hin|Hin]; [done|].
      apply list_elem_of_singleton in Hin. done.
  - destruct (visit_no_query net w name Hq) as (_ & -> & _). auto.
Qed.

Lemma mainLoop_fetch (net : Network) (names : list string) (w : World) (n : string)
    (req : Request) :
  Fetch n req ∈ trace (mainLoop net names w) ->
  Fetch n req ∈ trace w \/
  (n ∈ names /\ exists query, guessQuery n = Some query /\ req = searchRequest query).
Proof.
  revert w. induction names as [|name names IH]; intros w Hin; [by left|].
  rewrite mainLoop_cons in Hin. apply IH in Hin as [Hin|(Hn & query & Hq & ->)].
  - apply visit_fetch in Hin as [Hin|(-> & _ & query & Hq & ->)]; [by left|].
    right. split; [left | eauto].
  - right. split; [by right | eauto].
Qed.

(** A name without a query is never set in [stops]. *)
Lemma mainLoop_stops_no_query (net : Network) (names : list string) (w : World) (n : string) :
  guessQuery n = None ->
  stops (output (mainLoop net names w)) !! n = stops (output w) !! n.
Proof.
  intros Hq. revert w. induction names as [|name names IH]; intros w; [done|].
  rewrite mainLoop_cons, IH. destruct (decide (n = name)) as [<-|Hne].
  - by destruct (visit_no_query net w n Hq) as (_ & _ & -> & _).
  - by destruct (visit_other net w name n Hne) as [-> _].
Qed.

Lemma guessQuery_None (name : string) :
  guessQuery name = None <-> name = "" \/ name = "Onbekend".
Proof.
  unfold guessQuery. destruct (truthy name) eqn:Ht; cbn [negb orb].
  - destruct (String.eqb name "Onbekend") eqn:Hs.
    + split; [intros _; right; by apply String.eqb_eq | done].
    + split; [|intros [-> | ->]; discriminate].
      intros Hx. exfalso. revert Hx.
      destruct (objGet overrides name) as [[v|key]|]; cbn [truthyValue asQuery];
        [destruct (truthy v)| |];
        repeat (match goal with |- context [if ?b then _ else _] => destruct b end);
        discriminate.
  - apply truthy_false in Ht. split; [by left | done].
Qed.

(** *** The names of the CSV *)

Lemma collectStops_truthy (vertrekIndex bestemmingIndex : option nat)
    (stops : list string) (line : string) :
  (forall n, n ∈ stops -> n <> "") ->
  forall n, n ∈ collectStops vertrekIndex bestemmingIndex stops line -> n <> "".
Proof.
  intros Hall n. unfold collectStops.
  destruct (at_ (parseCsvLine line) vertrekIndex) as [v|],
           (at_ (parseCsvLine line) bestemmingIndex) as [b|]; simpl;
    repeat (match goal with |- context [JsString.truthy ?x] =>
              destruct (JsString.truthy x) eqn:? end);
    rewrite ?elem_of_setAdd; intros Hn;
    repeat (match goal with
            | Hn : _ \/ _ |- _ => destruct Hn as [->|Hn]
            | Ht : JsString.truthy _ = true |- _ => apply truthy_spec in Ht
            end); auto.
Qed.

(** The names [readCsvStops] returns are not empty: among them only the
    sentinel has no query. *)
Lemma readCsvStops_truthy (csv : option string) (names : list string) :
  readCsvStops csv = Return names -> forall n, n ∈ names -> n <> "".
Proof.
  unfold readCsvStops. destruct csv as [text|]; [|done].
  destruct (List.filter _ _) as [|first lines]; [done|].
  intros [= <-] n Hn. apply elem_of_sort in Hn. revert n Hn.
  generalize (indexOf (split "," first) "Vertrek") as vi.
  generalize (indexOf (split "," first) "Bestemming") as bi. intros bi vi.
  assert (forall n, n ∈ @nil string -> n <> "") as Hnil.
  { intros n Hn. by apply not_elem_of_nil in Hn. }
  revert Hnil. generalize (@nil string) as stops.
  induction lines as [|line lines IH]; intros stops Hstops; [done|].
  simpl. apply IH. by apply collectStops_truthy.
Qed.

Lemma readCsvStops_no_query (csv : option string) (names : list string) (n : string) :
  readCsvStops csv = Return names -> n ∈ names ->
  guessQuery n = None <-> n = "Onbekend".
Proof.
  intros Hr Hn. rewrite guessQuery_None.
  pose proof (readCsvStops_truthy csv names Hr n Hn). split; [by intros [?|?] | by right].
Qed.

(** *** The file lags behind the memory by names without a query only *)

Lemma visit_lagging (net : Network) (w : World) (name : string) :
  lagging w -> lagging (visit net w name).
Proof.
  intros (Hs & pending & Hu & Hp).
  destruct (classified (output w) name) eqn:Hc.
  { rewrite visit_classified; [|done]. split; eauto. }
  destruct (guessQuery name) as [query|] eqn:Hq.
  - destruct (visit_attempt_written net w name query Hc Hq) as (Hd & _).
    unfold lagging. rewrite Hd. simpl. split; [done|]. exists [].
    split; [by rewrite app_nil_r | intros n Hn; by apply not_elem_of_nil in Hn].
  - destruct (visit_no_query net w name Hq) as (Hd & _ & Hs' & Hu').
    rewrite Hc in Hu'. unfold lagging. rewrite Hd, Hs', Hu'. split; [done|].
    exists (pending ++ [name]). split; [by rewrite Hu, app_assoc|].
    intros n Hn. apply elem_of_app in Hn as [Hn|Hn]; [by apply Hp|].
    apply list_elem_of_singleton in Hn. by subst.
Qed.

Lemma mainLoop_lagging (net : Network) (names : list string) (w : World) :
  lagging w -> lagging (mainLoop net names w).
Proof.
  revert w. induction names as [|name names IH]; intros w Hw; [done|].
  rewrite mainLoop_cons. by apply IH, visit_lagging.
Qed.

Lemma start_lagging (now : string) (file : option Store) : lagging (start now file).
Proof.
  split; [done|]. exists []. simpl.
  split; [by rewrite app_nil_r | intros n Hn; by apply not_elem_of_nil in Hn].
Qed.

End ResolverFacts.

(** *** What the specification states about the resolver *)

Section ResolverClaims.
Import JsObject JsString JsHost Resolver ResolverSpec.
Context `{Host}.

Lemma no_city_prefix (name : string) :
  existsb (fun prefix => startsWith name prefix) allCityPrefixes = false ->
  forall prefix, prefix ∈ allCityPrefixes -> ~ exists rest, name = prefix +:+ rest.
Proof.
  intros Hex prefix Hin Hrest. apply prefix_spec in Hrest.
  apply not_true_iff_false in Hex. apply Hex, existsb_exists.
  exists prefix. split; [by apply list_elem_of_In | done].
Qed.

Lemma main_output (net : Network) (now : string) (csvStops : list string)
    (file : option Store) :
  output (main net now csvStops file) = output (mainLoop net csvStops (start now file)).
Proof. done. Qed.

Lemma main_trace (net : Network) (now : string) (csvStops : list string)
    (file : option Store) :
  exists logs,
    trace (main net now csvStops file) =
      trace (mainLoop net csvStops (start now file))
        ++ WriteFile (output (main net now csvStops file)) :: logs /\
    forall e, e ∈ logs -> exists message, e = ConsoleLog message.
Proof.
  unfold main. simpl. eexists. split; [done|].
  intros e He. apply elem_of_cons in He as [->|He]; [eauto|].
  destruct (bool_decide _); [by apply not_elem_of_nil in He|].
  apply list_elem_of_singleton in He as ->. eauto.
Qed.

Lemma main_fetch (net : Network) (now : string) (csvStops : list string)
    (file : option Store) (n : string) (req : Request) :
  Fetch n req ∈ trace (main net now csvStops file) ->
  Fetch n req ∈ trace (mainLoop net csvStops (start now file)).
Proof.
  destruct (main_trace net now csvStops file) as (logs & -> & Hlogs).
  rewrite elem_of_app, elem_of_cons. intros [Hin|[Hin|Hin]]; [done|done|].
  apply Hlogs in Hin as [message Hin]. done.
Qed.

Lemma main_written (net : Network) (now : string) (csvStops : list string)
    (file : option Store) (content : Store) :
  WriteFile content ∈ trace (main net now csvStops file) ->
  WriteFile content ∈ trace (mainLoop net csvStops (start now file))
  \/ content = output (main net now csvStops file).
Proof.
  destruct (main_trace net now csvStops file) as (logs & -> & Hlogs).
  rewrite elem_of_app, elem_of_cons. intros [Hin|[Hin|Hin]]; [by left| |].
  - right. by injection Hin.
  - apply Hlogs in Hin as [message Hin]. done.
Qed.

(** C4. After a run that starts from a store in which no name is both a
    key of [stops] and an element of [unmatched] (the empty store of a
    first run is one), the store in memory and every store the run wrote
    have the same property. A visit skips a name that is already in
    either set; a name that is in neither it adds to one of the two: it
    pushes it on [unmatched] and leaves [stops] alone, or sets it in
    [stops] and leaves [unmatched] alone. *)
Theorem stops_and_unmatched_stay_disjoint (net : Network) (now : string)
    (csvStops : list string) (file : option Store) :
  consistent (existingStore file) ->
  let w := main net now csvStops file in
  consistent (output w)
  /\ (forall content, WriteFile content ∈ trace w -> consistent content)
  /\ (forall w0 name, classified (output w0) name = true -> visit net w0 name = w0)
  /\ (forall w0 name,
        let o := output w0 in
        let o' := output (visit net w0 name) in
        (stops o' = stops o /\ unmatched o' = unmatched o)
        \/ (classified o name = false /\
            stops o' = stops o /\ unmatched o' = unmatched o ++ [name])
        \/ (classified o name = false /\ unmatched o' = unmatched o /\
            exists result, stops o' = <[name := result]> (stops o))).
Proof.
  intros Hfile w.
  assert (worldConsistent (mainLoop net csvStops (start now file))) as [Ho Ht].
  { apply mainLoop_worldConsistent. split; [done|].
    intros content Hin. by apply not_elem_of_nil in Hin. }
  split; [done|]. split; [|split].
  - intros content Hin. apply main_written in Hin as [Hin| ->]; [by apply Ht | done].
  - intros w0 name. apply visit_classified.
  - intros w0 name o o'. subst o o'.
    destruct (visit_outcome net w0 name) as [Hc|Hc|result Hc _]; simpl; eauto 10.
Qed.

(** C5, as the code has it. For the sentinel name "Onbekend" the resolver
    produces no query and makes no request, and it never sets the name in
    [stops]; a visit of the name writes nothing and, unless the name is
    already classified, pushes it on [unmatched]: after a run over names
    that include it, the sentinel is an element of [unmatched] when the
    starting store did not classify it. *)
Theorem sentinel_is_pushed_on_unmatched (net : Network) (now : string)
    (csvStops : list string) (file : option Store) :
  guessQuery "Onbekend" = None
  /\ (forall req, Fetch "Onbekend" req ∉ trace (main net now csvStops file))
  /\ stops (output (main net now csvStops file)) !! "Onbekend"
       = stops (existingStore file) !! "Onbekend"
  /\ (forall w0,
        let w' := visit net w0 "Onbekend" in
        disk w' = disk w0 /\ trace w' = trace w0 /\
        stops (output w') = stops (output w0) /\
        unmatched (output w') =
          if classified (output w0) "Onbekend" then unmatched (output w0)
          else unmatched (output w0) ++ ["Onbekend"])
  /\ ("Onbekend" ∈ csvStops -> classified (existingStore file) "Onbekend" = false ->
      "Onbekend" ∈ unmatched (output (main net now csvStops file))).
Proof.
  assert (guessQuery "Onbekend" = None) as Hq by done.
  split; [done|]. split; [|split; [|split]].
  - intros req Hin. apply main_fetch, mainLoop_fetch in Hin as [Hin|Hin].
    + by apply not_elem_of_nil in Hin.
    + destruct Hin as (_ & query & Hq' & _). congruence.
  - rewrite main_output. by rewrite mainLoop_stops_no_query.
  - intros w0. by apply visit_no_query.
  - intros Hin Hc. rewrite main_output.
    pose proof (mainLoop_classifies net csvStops (start now file) _ Hin) as Hcl.
    apply classified_true in Hcl as [Hs|[Hu|Hi]]; [|done|done].
    rewrite mainLoop_stops_no_query in Hs by done.
    apply classified_false in Hc as (Hc & _ & _). simpl in Hs. rewrite Hc in Hs.
    by destruct Hs.
Qed.

(** C6, as the code has it. After every geocoding attempt (success, no
    match or error) the whole store is written to the file before the
    next name is visited. A name for which there is no query is pushed on
    [unmatched] in memory without a write of its own: at every point of
    the loop the file differs from the memory by such names only, and the
    write that ends the run leaves nothing unwritten. *)
Theorem store_written_after_every_attempt (net : Network) (now : string)
    (csvStops : list string) (file : option Store) :
  (forall pre name post query,
     csvStops = pre ++ name :: post ->
     let w := mainLoop net pre (start now file) in
     classified (output w) name = false -> guessQuery name = Some query ->
     disk (visit net w name) = Some (output (visit net w name)) /\
     exists events,
       trace (visit net w name) =
         trace w ++ Fetch name (searchRequest query) :: events
           ++ [WriteFile (output (visit net w name)); Delay 1100] /\
       forall e, e ∈ events -> exists message, e = ConsoleError message)
  /\ (forall pre post, csvStops = pre ++ post ->
      lagging (mainLoop net pre (start now file)))
  /\ disk (main net now csvStops file) = Some (output (main net now csvStops file))
  /\ WriteFile (output (main net now csvStops file)) ∈ trace (main net now csvStops file).
Proof.
  split; [|split; [|split]].
  - intros pre name post query _ w Hc Hq. by apply visit_attempt_written.
  - intros pre post _. apply mainLoop_lagging, start_lagging.
  - done.
  - unfold main. simpl. apply elem_of_app. right. left.
Qed.

(** C7. A run over names that are all classified in the existing store
    makes no request and leaves [stops] and [unmatched] as they were: the
    store it writes is the existing one with a new [generatedAt]. *)
Theorem rerun_on_classified_names_changes_nothing (net : Network) (now : string)
    (csvStops : list string) (file : option Store) :
  (forall n, n ∈ csvStops -> classified (existingStore file) n = true) ->
  let w := main net now csvStops file in
  (forall n req, Fetch n req ∉ trace w)
  /\ stops (output w) = stops (existingStore file)
  /\ unmatched (output w) = unmatched (existingStore file)
  /\ output w = {| generatedAt := Some now;
                   stops := stops (existingStore file);
                   unmatched := unmatched (existingStore file) |}
  /\ disk w = Some (output w)
  /\ forall content, WriteFile content ∈ trace w -> content = output w.
Proof.
  intros Hall w.
  assert (mainLoop net csvStops (start now file) = start now file) as Hloop.
  { apply mainLoop_all_classified. intros n Hn. by apply Hall. }
  assert (output w = initialOutput now file) as Ho.
  { unfold w. by rewrite main_output, Hloop. }
  split; [|split; [|split; [|split; [|split]]]].
  - intros n req Hin. apply main_fetch in Hin. rewrite Hloop in Hin.
    by apply not_elem_of_nil in Hin.
  - by rewrite Ho.
  - by rewrite Ho.
  - by rewrite Ho.
  - done.
  - intros content Hin. apply main_written in Hin as [Hin|Hin].
    + rewrite Hloop in Hin. by apply not_elem_of_nil in Hin.
    + by rewrite Hin.
Qed.

(** C8, as the code has it. For every stop name that is not empty and not
    the sentinel "Onbekend", contains no comma, is not a key of the
    override table and not the name of a property the table inherits from
    [Object.prototype], starts with none of the city prefixes and is in
    none of the four stop-name sets, the guessed query is the name
    followed by ", Amsterdam, Netherlands". *)
Theorem fallback_query_ends_with_amsterdam (name : string) :
  name <> "" -> name <> "Onbekend" ->
  ~ substring_of "," name ->
  name ∉ overrides.*1 -> name ∉ prototypeKeys ->
  (forall prefix, prefix ∈ allCityPrefixes -> ~ exists rest, name = prefix +:+ rest) ->
  name ∉ denHaagStops -> name ∉ rotterdamStops ->
  name ∉ purmerendStops -> name ∉ zandvoortStops ->
  exists query,
    guessQuery name = Some (QueryText query)
    /\ ends_with query ", Amsterdam, Netherlands"
    /\ query = name +:+ ", Amsterdam, Netherlands".
Proof.
  intros Hne Hs Hc Ho Hi Hp Hd Hr Hpu Hz.
  exists (name +:+ ", Amsterdam, Netherlands"). split; [|split].
  - by apply guessQuery_fallback.
  - by exists name.
  - done.
Qed.

(** C9. A name that the guard of the loop does not skip at the start (it
    is no key of [stops], no element of [unmatched] and no name of a
    property every object inherits, for which the guard is truthy and no
    lookup is made) and that is neither empty nor the sentinel, whose
    lookup fails (the request errors, the response has a non-success
    status, or it has zero results), is an element of [unmatched] and no
    key of [stops] after the run; the run goes on to the end: every name
    of the input is a key of [stops] or an element of [unmatched] in the
    final store, unless it is such an inherited name, and that store is
    in the file. *)
Theorem failed_lookup_is_unmatched_and_run_continues (net : Network) (now : string)
    (csvStops : list string) (file : option Store) (name : string) :
  name ∈ csvStops ->
  classified (existingStore file) name = false ->
  name <> "" -> name <> "Onbekend" ->
  (forall query, guessQuery name = Some query ->
     LookupFails (net name (searchRequest query))) ->
  let w := main net now csvStops file in
  name ∈ unmatched (output w)
  /\ stops (output w) !! name = None
  /\ (forall n, n ∈ csvStops ->
        is_Some (stops (output w) !! n) \/ n ∈ unmatched (output w)
        \/ n ∈ prototypeKeys)
  /\ disk w = Some (output w).
Proof.
  intros Hin Hc Hne Hs Hf w.
  destruct (guessQuery name) as [query|] eqn:Hq.
  2:{ apply guessQuery_None in Hq as [?|?]; done. }
  destruct (mainLoop_lookup_fails net csvStops (start now file) name query)
    as [Hu Hst]; [done|done|done|by apply Hf|].
  split; [done|]. split; [done|]. split; [|done].
  intros n Hn. unfold w. rewrite main_output, <- inherits_spec.
  by apply classified_true, mainLoop_classifies.
Qed.

End ResolverClaims.

(** *** Runs of the resolver on concrete inputs *)

Section ResolverRuns.
Import JsObject JsString JsHost Resolver ResolverSpec Samples.
Local Existing Instance referenceHost.

Lemma stops_and_unmatched_stay_disjoint_witness :
  consistent (existingStore None)
  /\ consistent (output (main offline timeStamp ["Dam"; "Onbekend"] None)).
Proof.
  assert (consistent (existingStore None)) as Hempty.
  { intros n Hn. reflexivity. }
  split; [exact Hempty|].
  exact (proj1 (stops_and_unmatched_stay_disjoint offline timeStamp
                  ["Dam"; "Onbekend"] None Hempty)).
Defined.

(** The sentinel alone, on a first run: it ends up in [unmatched]. *)
Lemma sentinel_run_counterexample :
  unmatched (output (main offline timeStamp ["Onbekend"] None)) = ["Onbekend"]
  /\ "Onbekend" ∈ unmatched (output (main offline timeStamp ["Onbekend"] None)).
Proof. split; [reflexivity | left]. Qed.

(** The sentinel first, then a name with a query: the second name is
    attempted while the classification of the first is in memory only. *)
Lemma sentinel_unwritten_counterexample :
  let w := mainLoop offline ["Onbekend"] (start timeStamp None) in
  unmatched (output w) = ["Onbekend"]
  /\ disk w = None
  /\ (durable w -> False)
  /\ Fetch "Zzz" (searchRequest "Zzz, Amsterdam, Netherlands")
       ∈ trace (visit offline w "Zzz").
Proof.
  split; [reflexivity|]. split; [reflexivity|]. split.
  - intros [_ Hu]. discriminate Hu.
  - left.
Qed.

Lemma rerun_on_classified_names_changes_nothing_witness :
  (forall n, n ∈ ["Dam"; "Onbekend"] ->
     classified (existingStore (Some classifiedStore)) n = true)
  /\ stops (output (main offline timeStamp ["Dam"; "Onbekend"] (Some classifiedStore)))
       = stops classifiedStore.
Proof.
  assert (forall n, n ∈ ["Dam"; "Onbekend"] ->
            classified (existingStore (Some classifiedStore)) n = true) as Hall.
  { intros n Hn. apply elem_of_cons in Hn as [->|Hn]; [reflexivity|].
    apply list_elem_of_singleton in Hn as ->. reflexivity. }
  split; [exact Hall|].
  exact (proj1 (proj2 (rerun_on_classified_names_changes_nothing offline timeStamp
                         ["Dam"; "Onbekend"] (Some classifiedStore) Hall))).
Defined.

Lemma dam_passes_earlier_rules :
  "Dam" <> "" /\ "Dam" <> "Onbekend"
  /\ ~ substring_of "," "Dam"
  /\ ("Dam" ∉ overrides.*1) /\ ("Dam" ∉ prototypeKeys)
  /\ (forall prefix, prefix ∈ allCityPrefixes -> ~ exists rest, "Dam" = prefix +:+ rest)
  /\ ("Dam" ∉ denHaagStops) /\ ("Dam" ∉ rotterdamStops)
  /\ ("Dam" ∉ purmerendStops) /\ ("Dam" ∉ zandvoortStops).
Proof.
  repeat split; try discriminate.
  - by apply includes_false.
  - by apply ownGet_None.
  - by apply inherits_false.
  - by apply no_city_prefix.
  - by apply has_false.
  - by apply has_false.
  - by apply has_false.
  - by apply has_false.
Defined.

Lemma fallback_query_ends_with_amsterdam_witness :
  exists query,
    guessQuery "Dam" = Some (QueryText query)
    /\ ends_with query ", Amsterdam, Netherlands"
    /\ query = "Dam" +:+ ", Amsterdam, Netherlands".
Proof.
  destruct dam_passes_earlier_rules
    as (H1 & H2 & H3 & H4 & H5 & H6 & H7 & H8 & H9 & H10).
  exact (fallback_query_ends_with_amsterdam "Dam" H1 H2 H3 H4 H5 H6 H7 H8 H9 H10).
Defined.

(** The sentinel passes every test before the fallback and has no query. *)
Lemma sentinel_fallback_counterexample :
  ~ substring_of "," "Onbekend"
  /\ ("Onbekend" ∉ overrides.*1)
  /\ (forall prefix, prefix ∈ allCityPrefixes ->
        ~ exists rest, "Onbekend" = prefix +:+ rest)
  /\ ("Onbekend" ∉ denHaagStops) /\ ("Onbekend" ∉ rotterdamStops)
  /\ ("Onbekend" ∉ purmerendStops) /\ ("Onbekend" ∉ zandvoortStops)
  /\ guessQuery "Onbekend" = None.
Proof.
  repeat split.
  - by apply includes_false.
  - by apply ownGet_None.
  - by apply no_city_prefix.
  - by apply has_false.
  - by apply has_false.
  - by apply has_false.
  - by apply has_false.
Qed.

Lemma failed_lookup_is_unmatched_and_run_continues_witness :
  "Spui" ∈ ["Dam"; "Spui"; "Weesperplein"]
  /\ classified (existingStore None) "Spui" = false
  /\ "Spui" ∈ unmatched (output (main offline timeStamp ["Dam"; "Spui"; "Weesperplein"] None)).
Proof.
  assert ("Spui" ∈ ["Dam"; "Spui"; "Weesperplein"]) as Hin by (right; left).
  split; [exact Hin|]. split; [reflexivity|].
  refine (proj1 (failed_lookup_is_unmatched_and_run_continues offline timeStamp
                  ["Dam"; "Spui"; "Weesperplein"] None "Spui" Hin eq_refl _ _ _)).
  - discriminate.
  - discriminate.
  - intros query _. constructor.
Defined.

(** A CSV export with a trip from "Onbekend": the script makes requests
    for the other two names and leaves the sentinel in [unmatched]. *)
Example script_on_csv_with_sentinel :
  let csv :=
    "Datum,Check in,Vertrek,Check uit,Bestemming,Bedrag,Transactie,Kl,Product"
      +:+ String "013" (String "010"
    "01-02-2024,08:15,Onbekend,08:40,Dam,1.20,Reis,,Bus")
      +:+ String "010"
    "02-02-2024,17:05,Dam,17:30,Spui,1.10,Reis,,Bus" in
  readCsvStops (Some csv) = Return ["Dam"; "Onbekend"; "Spui"]
  /\ exists w, script offline timeStamp (Some csv) None = Return w
       /\ unmatched (output w) = ["Dam"; "Onbekend"; "Spui"]
       /\ stops (output w) = ∅
       /\ disk w = Some (output w).
Proof. split; [by vm_compute|]. eexists. split; [by vm_compute|]. done. Qed.

Lemma sentinel_is_pushed_on_unmatched_witness :
  "Onbekend" ∈ ["Dam"; "Onbekend"]
  /\ classified (existingStore None) "Onbekend" = false
  /\ "Onbekend" ∈ unmatched (output (main offline timeStamp ["Dam"; "Onbekend"] None)).
Proof.
  assert ("Onbekend" ∈ ["Dam"; "Onbekend"]) as Hin by (right; left).
  split; [exact Hin|]. split; [reflexivity|].
  exact (proj2 (proj2 (proj2 (proj2
    (sentinel_is_pushed_on_unmatched offline timeStamp ["Dam"; "Onbekend"] None))))
    Hin eq_refl).
Defined.

Lemma store_written_after_every_attempt_witness :
  ["Onbekend"; "Dam"; "Spui"] = ["Onbekend"] ++ "Dam" :: ["Spui"]
  /\ classified (output (mainLoop offline ["Onbekend"] (start timeStamp None))) "Dam" = false
  /\ guessQuery "Dam" = Some (QueryText "Dam, Amsterdam, Netherlands")
  /\ disk (visit offline (mainLoop offline ["Onbekend"] (start timeStamp None)) "Dam")
     = Some (output (visit offline (mainLoop offline ["Onbekend"] (start timeStamp None)) "Dam")).
Proof.
  split; [reflexivity|]. split; [reflexivity|]. split; [reflexivity|].
  exact (proj1 (proj1
    (store_written_after_every_attempt offline timeStamp ["Onbekend"; "Dam"; "Spui"] None)
    ["Onbekend"] "Dam" ["Spui"] "Dam, Amsterdam, Netherlands" eq_refl eq_refl eq_refl)).
Defined.

End ResolverRuns.

(** ** The aggregator *)

Section AppFacts.
Import JsObject JsString JsCollections JsDate JsHost App AppSpec.

(** *** One trip *)

Lemma isReis_spec (x : option string) : isReis x = true <-> x = Some "Reis".
Proof.
  destruct x as [s|]; simpl; [|done].
  rewrite String.eqb_eq. split; congruence.
Qed.

Lemma tally_not_journey (coords : Coords) (acc : Tally.t) (trip : Trip) :
  isJourney trip = false ->
  tally coords acc trip =
    Tally.mk (Tally.routeMap acc) (Tally.stopMap acc)
             (increment (Tally.productMap acc) (product trip)) (Tally.missing acc).
Proof.
  unfold isJourney, tally. intros Hj.
  destruct (isReis (transactie trip)); [|done].
  destruct (JsString.truthy (from trip)); [|done].
  destruct (JsString.truthy (to trip)); done.
Qed.

Lemma tally_journey (coords : Coords) (acc : Tally.t) (trip : Trip) :
  isJourney trip = true ->
  tally coords acc trip =
    let productMap := increment (Tally.productMap acc) (product trip) in
    let missing1 :=
      if coordOf coords (from trip) is None
      then setAdd (Tally.missing acc) (from trip) else Tally.missing acc in
    let missing2 :=
      if coordOf coords (to trip) is None then setAdd missing1 (to trip) else missing1 in
    match coordOf coords (from trip), coordOf coords (to trip) with
    | Some fromCoord, Some toCoord =>
        let key := routeKey (from trip) (to trip) in
        let route :=
          default (Route.mk (from trip) (to trip) fromCoord toCoord 0 [] [])
                  (mapGet (Tally.routeMap acc) key) in
        Tally.mk
          (mapSet (Tally.routeMap acc) key
             (Route.mk (Route.from route) (Route.to route)
                (Route.fromCoord route) (Route.toCoord route)
                (Route.count route + 1)
                (increment (Route.products route) (product trip))
                (Route.dates route ++ [date trip])))
          (increment (increment (Tally.stopMap acc) (from trip)) (to trip))
          productMap missing2
    | _, _ => Tally.mk (Tally.routeMap acc) (Tally.stopMap acc) productMap missing2
    end.
Proof.
  unfold isJourney, tally. intros Hj.
  apply andb_true_iff in Hj as [Hj Ht]. apply andb_true_iff in Hj as [Hr Hf].
  by rewrite Hr, Hf, Ht.
Qed.

(** A journey with an endpoint that has no coordinate leaves the route
    and stop maps as they are. *)
Lemma tally_unresolved (coords : Coords) (acc : Tally.t) (trip : Trip) :
  coordOf coords (from trip) = None \/ coordOf coords (to trip) = None ->
  Tally.routeMap (tally coords acc trip) = Tally.routeMap acc
  /\ Tally.stopMap (tally coords acc trip) = Tally.stopMap acc.
Proof.
  intros Hnone. destruct (isJourney trip) eqn:Hj.
  - rewrite tally_journey by done. simpl.
    destruct (coordOf coords (from trip)), (coordOf coords (to trip)); try done.
    by destruct Hnone.
  - by rewrite tally_not_journey.
Qed.

Lemma tally_missing_from (coords : Coords) (acc : Tally.t) (trip : Trip) :
  isJourney trip = true -> coordOf coords (from trip) = None ->
  from trip ∈ Tally.missing (tally coords acc trip).
Proof.
  intros Hj Hnone. rewrite tally_journey by done. simpl. rewrite Hnone.
  destruct (coordOf coords (to trip)); simpl; rewrite ?elem_of_setAdd; auto.
Qed.

Lemma tally_missing_to (coords : Coords) (acc : Tally.t) (trip : Trip) :
  isJourney trip = true -> coordOf coords (to trip) = None ->
  to trip ∈ Tally.missing (tally coords acc trip).
Proof.
  intros Hj Hnone. rewrite tally_journey by done. simpl. rewrite Hnone.
  destruct (coordOf coords (from trip)); simpl; apply elem_of_setAdd; by left.
Qed.

Lemma tally_missing_mono (coords : Coords) (acc : Tally.t) (trip : Trip) (x : string) :
  x ∈ Tally.missing acc -> x ∈ Tally.missing (tally coords acc trip).
Proof.
  intros Hx. destruct (isJourney trip) eqn:Hj.
  - rewrite tally_journey by done. simpl.
    destruct (coordOf coords (from trip)), (coordOf coords (to trip)); simpl;
      rewrite ?elem_of_setAdd; auto.
  - by rewrite tally_not_journey.
Qed.

(** *** The loop *)

Lemma foldTally_missing_mono (coords : Coords) (l : list Trip) (acc : Tally.t) (x : string) :
  x ∈ Tally.missing acc -> x ∈ Tally.missing (fold_left (tally coords) l acc).
Proof.
  revert acc. induction l as [|t l IH]; intros acc Hx; [done|].
  simpl. by apply IH, tally_missing_mono.
Qed.

(** The route and stop maps after a trip depend on the route and stop
    maps before it only. *)
Lemma tally_routes_stops_congr (coords : Coords) (a1 a2 : Tally.t) (trip : Trip) :
  Tally.routeMap a1 = Tally.routeMap a2 -> Tally.stopMap a1 = Tally.stopMap a2 ->
  Tally.routeMap (tally coords a1 trip) = Tally.routeMap (tally coords a2 trip)
  /\ Tally.stopMap (tally coords a1 trip) = Tally.stopMap (tally coords a2 trip).
Proof.
  intros Hr Hs. destruct (isJourney trip) eqn:Hj.
  - rewrite !tally_journey by done. simpl.
    destruct (coordOf coords (from trip)), (coordOf coords (to trip)); simpl; by rewrite ?Hr, ?Hs.
  - by rewrite !tally_not_journey.
Qed.

Lemma foldTally_routes_stops_congr (coords : Coords) (l : list Trip) (a1 a2 : Tally.t) :
  Tally.routeMap a1 = Tally.routeMap a2 -> Tally.stopMap a1 = Tally.stopMap a2 ->
  Tally.routeMap (fold_left (tally coords) l a1)
    = Tally.routeMap (fold_left (tally coords) l a2)
  /\ Tally.stopMap (fold_left (tally coords) l a1)
    = Tally.stopMap (fold_left (tally coords) l a2).
Proof.
  revert a1 a2. induction l as [|t l IH]; intros a1 a2 Hr Hs; [done|].
  simpl. by apply IH; apply tally_routes_stops_congr.
Qed.

(** *** Routes and stops are made of resolved names only *)

Lemma tally_resolvedEnds (coords : Coords) (acc : Tally.t) (trip : Trip) :
  resolvedEnds coords acc -> resolvedEnds coords (tally coords acc trip).
Proof.
  intros [Hr Hs]. destruct (isJourney trip) eqn:Hj.
  2:{ by rewrite tally_not_journey. }
  rewrite tally_journey by done. simpl.
  destruct (coordOf coords (from trip)) as [fc|] eqn:Hf, (coordOf coords (to trip)) as [tc|] eqn:Ht;
    try done.
  split; simpl.
  - intros e He. apply elem_of_mapSet in He as [->|He]; [|by apply Hr]. simpl.
    destruct (mapGet (Tally.routeMap acc) _) as [r|] eqn:Hg; simpl.
    + apply mapGet_Some_elem in Hg. by apply Hr in Hg.
    + by rewrite Hf, Ht.
  - intros e He. unfold increment in He.
    apply elem_of_mapSet in He as [->|He]; [cbn [fst]; by rewrite Ht|].
    apply elem_of_mapSet in He as [->|He]; [cbn [fst]; by rewrite Hf|]. by apply Hs.
Qed.

Lemma tallyAll_resolvedEnds (coords : Coords) (l : list Trip) :
  resolvedEnds coords (tallyAll coords l).
Proof.
  unfold tallyAll.
  assert (resolvedEnds coords Tally.empty) as Hempty.
  { split; intros e He; by apply not_elem_of_nil in He. }
  revert Hempty. generalize Tally.empty.
  induction l as [|t l IH]; intros acc Hacc; [done|].
  simpl. by apply IH, tally_resolvedEnds.
Qed.

(** *** The count of a route is the number of trips tallied under its key *)

Lemma tally_routeCount (coords : Coords) (acc : Tally.t) (trip : Trip) (key : string) :
  routeCount (tally coords acc trip) key =
    (routeCount acc key + if countedUnder coords key trip then 1 else 0)%nat.
Proof.
  unfold countedUnder. destruct (isJourney trip) eqn:Hj.
  2:{ rewrite tally_not_journey by done. simpl. unfold routeCount. simpl. lia. }
  rewrite tally_journey by done. simpl.
  destruct (coordOf coords (from trip)) as [fc|] eqn:Hf, (coordOf coords (to trip)) as [tc|] eqn:Ht;
    simpl; try (unfold routeCount; simpl; lia).
  unfold routeCount. simpl.
  destruct (String.eqb (routeKey (from trip) (to trip)) key) eqn:Hk.
  - apply String.eqb_eq in Hk as <-. rewrite mapGet_mapSet_eq. simpl.
    by destruct (mapGet (Tally.routeMap acc) _).
  - apply String.eqb_neq in Hk. rewrite mapGet_mapSet_ne by done. lia.
Qed.

Lemma foldTally_routeCount (coords : Coords) (l : list Trip) (acc : Tally.t) (key : string) :
  routeCount (fold_left (tally coords) l acc) key =
    (routeCount acc key + length (List.filter (countedUnder coords key) l))%nat.
Proof.
  revert acc. induction l as [|t l IH]; intros acc; simpl; [lia|].
  rewrite IH, tally_routeCount. destruct (countedUnder coords key t); simpl; lia.
Qed.

(** Two routes whose keys differ are counted apart, each by the trips
    of its own key. *)
Lemma route_counts_by_key (coords : Coords) (l : list Trip) (key : string) :
  routeCount (tallyAll coords l) key = length (List.filter (countedUnder coords key) l).
Proof. unfold tallyAll. by rewrite foldTally_routeCount. Qed.

End AppFacts.

(** *** The filter *)

Section FilterFacts.
Import JsObject JsString JsDate JsHost App AppSpec.
Local Open Scope Z_scope.

Lemma dateLt_false (a b : Date) : dateLt a b = false <-> notBefore a b.
Proof.
  unfold dateLt, notBefore.
  destruct (timeValue a) as [x|], (timeValue b) as [y|];
    [|split; [by intros _ x' y' Hx Hy | done]..].
  rewrite Z.ltb_ge. split.
  - by intros Hle x' y' [= <-] [= <-].
  - intros Hle. by apply Hle.
Qed.

Lemma dateGt_false (a b : Date) : dateGt a b = false <-> notAfter a b.
Proof.
  unfold dateGt, dateLt, notAfter.
  destruct (timeValue a) as [x|], (timeValue b) as [y|];
    [|split; [by intros _ x' y' Hx Hy | done]..].
  rewrite Z.ltb_ge. split.
  - by intros Hle x' y' [= <-] [= <-].
  - intros Hle. by apply Hle.
Qed.

Lemma toLowerCase_truthy (s : string) : JsString.truthy (toLowerCase s) = JsString.truthy s.
Proof. by destruct s. Qed.

Lemma hasProduct_spec (set : gset string) (p : option string) :
  hasProduct set p = true <-> exists s, p = Some s /\ s ∈ set.
Proof.
  destruct p as [s|]; simpl.
  - rewrite bool_decide_eq_true. split; [eauto | by intros (s' & [= <-] & Hs)].
  - split; [done | by intros (s' & ? & _)].
Qed.

Lemma passes_spec (f : FilterState) (trip : Trip) :
  passes f trip = true <->
    passesType f trip /\ passesProduct f trip /\ inDateRange f (date trip)
    /\ searchMatches f trip.
Proof.
  unfold passes, passesType, passesProduct, inDateRange, searchMatches.
  destruct (negb (includeNonTrips f) && negb (isReis (transactie trip))) eqn:H1.
  { apply andb_true_iff in H1 as [Hi Hr]. apply negb_true_iff in Hi, Hr.
    split; [done|]. intros ([Ht|Ht] & _); [|congruence].
    apply isReis_spec in Ht. congruence. }
  assert (transactie trip = Some "Reis" \/ includeNonTrips f = true) as Htype.
  { apply andb_false_iff in H1 as [Hi|Hr].
    - right. by apply negb_false_iff in Hi.
    - left. apply isReis_spec. by apply negb_false_iff in Hr. }
  destruct (size (selectedProducts f) =? 0)%nat eqn:H2.
  { apply Nat.eqb_eq, size_empty_iff in H2. split; [done|].
    intros (_ & (Hne & _) & _). exfalso. apply Hne. by apply leibniz_equiv. }
  destruct (hasProduct (selectedProducts f) (product trip)) eqn:H3; simpl.
  2:{ split; [done|]. intros (_ & (_ & Hp) & _). apply hasProduct_spec in Hp. congruence. }
  assert (selectedProducts f <> ∅
          /\ exists p, product trip = Some p /\ p ∈ selectedProducts f) as Hprod.
  { split; [|by apply hasProduct_spec]. intros He. rewrite He in H2. done. }
  destruct (match dateStart f with Some s => dateLt (date trip) s | None => false end)
    eqn:H4.
  { split; [done|]. intros (_ & _ & [Hs _] & _).
    destruct (dateStart f) as [s|]; [|done].
    specialize (Hs s eq_refl). apply dateLt_false in Hs. congruence. }
  destruct (match dateEnd f with Some e => dateGt (date trip) e | None => false end)
    eqn:H5.
  { split; [done|]. intros (_ & _ & [_ He] & _).
    destruct (dateEnd f) as [e|]; [|done].
    specialize (He e eq_refl). apply dateGt_false in He. congruence. }
  assert ((forall s, dateStart f = Some s -> notBefore (date trip) s)
          /\ (forall e, dateEnd f = Some e -> notAfter (date trip) e)) as Hrange.
  { split.
    - intros s Hs. rewrite Hs in H4. by apply dateLt_false.
    - intros e He. rewrite He in H5. by apply dateGt_false. }
  rewrite toLowerCase_truthy.
  destruct (JsString.truthy (trim (search f))) eqn:H6.
  - apply truthy_spec in H6.
    destruct (includes _ _) eqn:H7; simpl.
    + apply includes_spec in H7. split; [intros _|done]. done.
    + apply includes_false in H7. split; [done|].
      intros (_ & _ & _ & Hq). exfalso. by apply H7, Hq.
  - apply truthy_false in H6. split; [intros _|done]. done.
Qed.

Lemma filteredTrips_empty_selection (f : FilterState) (trips : list Trip) :
  selectedProducts f = ∅ -> filteredTrips f trips = [].
Proof.
  intros He. unfold filteredTrips. induction trips as [|t trips IH]; [done|].
  simpl. rewrite IH. unfold passes. rewrite He.
  destruct (negb (includeNonTrips f) && negb (isReis (transactie t))); done.
Qed.

End FilterFacts.

(** *** What the specification states about the aggregator *)

Section AppClaims.
Import JsObject JsString JsCollections JsDate JsHost App AppSpec.
Context `{Host}.

Lemma elem_of_filteredTrips (f : FilterState) (trips : list Trip) (trip : Trip) :
  trip ∈ filteredTrips f trips <-> trip ∈ trips /\ passes f trip = true.
Proof. unfold filteredTrips. by rewrite !list_elem_of_In, filter_In. Qed.

(** C1, as the code has it. A trip is in the filtered list if and only
    if it is a trip of the list and: its transaction type is "Reis" or
    the include-non-journey flag is set; the accepted-product set is not
    empty and contains its product; its date is not before the start and
    not after the end of the range (a bound that is not set, or a
    comparison with an invalid date, excludes nothing); and, when the
    search text with the white space at its ends removed is not empty,
    that trimmed text, lower-cased, is a substring of the lower-cased
    "origin destination". With an empty accepted-product set no trip
    passes, and the aggregates of every kind are empty. *)
Theorem filtered_trips_characterised (coords : Coords) (f : FilterState)
    (trips : list Trip) :
  (forall trip,
     trip ∈ filteredTrips f trips <->
       trip ∈ trips
       /\ (transactie trip = Some "Reis" \/ includeNonTrips f = true)
       /\ (selectedProducts f <> ∅
           /\ exists p, product trip = Some p /\ p ∈ selectedProducts f)
       /\ inDateRange f (date trip)
       /\ (trim (search f) <> "" ->
           substring_of (toLowerCase (trim (search f)))
                        (toLowerCase (from trip +:+ " " +:+ to trip))))
  /\ (selectedProducts f = ∅ ->
      filteredTrips f trips = []
      /\ analytics coords (filteredTrips f trips) = Analytics.mk [] [] [] []).
Proof.
  split.
  - intros trip. rewrite elem_of_filteredTrips, passes_spec. done.
  - intros He. rewrite filteredTrips_empty_selection by done. done.
Qed.

Lemma isJourney_spec (trip : Trip) :
  isJourney trip = true <->
    transactie trip = Some "Reis" /\ from trip <> "" /\ to trip <> "".
Proof.
  unfold isJourney. rewrite !andb_true_iff, isReis_spec, !truthy_spec. tauto.
Qed.

(** X29. A journey of the filtered list ("Reis", both stop names not
    empty) with an endpoint under which the read of the coordinate object
    finds nothing (the object has no entry of that name and inherits no
    property of that name): each such endpoint is in the missing set; the
    route and stop aggregates are those of the list without the trip, so
    the trip adds to no route and to the count of no stop (its step of
    the loop leaves the route and stop maps as they are); and no route or
    stop aggregate names a stop under which the read finds nothing. *)
Theorem journey_with_unresolved_endpoint (coords : Coords) (before after : list Trip)
    (trip : Trip) :
  transactie trip = Some "Reis" -> from trip <> "" -> to trip <> "" ->
  coordOf coords (from trip) = None \/ coordOf coords (to trip) = None ->
  let a := analytics coords (before ++ trip :: after) in
  (coordOf coords (from trip) = None -> from trip ∈ Analytics.missing a)
  /\ (coordOf coords (to trip) = None -> to trip ∈ Analytics.missing a)
  /\ Analytics.routes a = Analytics.routes (analytics coords (before ++ after))
  /\ Analytics.stops a = Analytics.stops (analytics coords (before ++ after))
  /\ (forall acc,
        Tally.routeMap (tally coords acc trip) = Tally.routeMap acc
        /\ Tally.stopMap (tally coords acc trip) = Tally.stopMap acc)
  /\ (forall x, coordOf coords x = None ->
        (forall r, r ∈ Analytics.routes a -> Route.from r <> x /\ Route.to r <> x)
        /\ (forall s, s ∈ Analytics.stops a -> StopAggregate.name s <> x)).
Proof.
  intros Hr Hf Ht Hnone a.
  assert (isJourney trip = true) as Hj by by apply isJourney_spec.
  assert (tallyAll coords (before ++ trip :: after) =
          fold_left (tally coords) after
            (tally coords (tallyAll coords before) trip)) as Hfold.
  { unfold tallyAll. by rewrite fold_left_app. }
  destruct (tally_unresolved coords (tallyAll coords before) trip Hnone) as [Hrm Hsm].
  destruct (foldTally_routes_stops_congr coords after _ _ Hrm Hsm) as [Hrm' Hsm'].
  assert (tallyAll coords (before ++ after) =
          fold_left (tally coords) after (tallyAll coords before)) as Hfold'.
  { unfold tallyAll. by rewrite fold_left_app. }
  split; [|split; [|split; [|split; [|split]]]].
  - intros Hx. unfold a, analytics. simpl. rewrite elem_of_sort, Hfold.
    by apply foldTally_missing_mono, tally_missing_from.
  - intros Hx. unfold a, analytics. simpl. rewrite elem_of_sort, Hfold.
    by apply foldTally_missing_mono, tally_missing_to.
  - unfold a, analytics. simpl. by rewrite Hfold, Hfold', Hrm'.
  - unfold a, analytics. simpl. by rewrite Hfold, Hfold', Hsm'.
  - intros acc. by apply tally_unresolved.
  - intros x Hx.
    destruct (tallyAll_resolvedEnds coords (before ++ trip :: after)) as [Hres Hstop].
    split.
    + intros r Hin. unfold a, analytics in Hin. simpl in Hin.
      apply elem_of_sort, list_elem_of_fmap in Hin as (e & -> & He).
      destruct (Hres e He) as [[c1 Hc1] [c2 Hc2]]. split; congruence.
    + intros s Hin. unfold a, analytics in Hin. simpl in Hin.
      apply elem_of_sort, list_elem_of_fmap in Hin as (e & -> & He).
      destruct (Hstop e He) as [c Hc]. simpl. congruence.
Qed.

End AppClaims.

(** *** The aggregator on concrete inputs *)

Section AppRuns.
Import JsObject JsString JsCollections JsDate JsHost App AppSpec Samples.
Local Existing Instance referenceHost.

(** A search text with a space in front: the trip from "Dam" to "Spui"
    passes the filter, and the search text as typed is no substring of
    "dam spui". *)
Lemma untrimmed_search_counterexample :
  journey "Dam" "Spui" ∈ filteredTrips (searching " dam") [journey "Dam" "Spui"]
  /\ search (searching " dam") <> ""
  /\ (substring_of (toLowerCase (search (searching " dam")))
        (toLowerCase (from (journey "Dam" "Spui") +:+ " " +:+ to (journey "Dam" "Spui")))
      -> False).
Proof.
  split; [|split].
  - apply elem_of_filteredTrips. split; [left | by vm_compute].
  - discriminate.
  - by apply includes_false.
Qed.

Lemma filtered_trips_characterised_witness :
  selectedProducts nothingSelected = ∅
  /\ filteredTrips nothingSelected [journey "Dam" "Spui"; journey "Spui" "Dam"] = [].
Proof.
  split; [reflexivity|].
  exact (proj1 (proj2
    (filtered_trips_characterised ∅ nothingSelected
       [journey "Dam" "Spui"; journey "Spui" "Dam"]) eq_refl)).
Defined.

Lemma journey_with_unresolved_endpoint_witness :
  let coords : Coords := {[ "Dam" := somewhere ]} in
  (coordOf coords (from (journey "Dam" "Spui")) = None
   \/ coordOf coords (to (journey "Dam" "Spui")) = None)
  /\ Analytics.routes (analytics coords ([journey "Dam" "Dam"] ++ journey "Dam" "Spui" :: []))
     = Analytics.routes (analytics coords ([journey "Dam" "Dam"] ++ [])).
Proof.
  intros coords.
  assert (coordOf coords (from (journey "Dam" "Spui")) = None
          \/ coordOf coords (to (journey "Dam" "Spui")) = None) as Hnone.
  { right. reflexivity. }
  split; [exact Hnone|].
  refine (proj1 (proj2 (proj2
    (journey_with_unresolved_endpoint coords [journey "Dam" "Dam"] []
       (journey "Dam" "Spui") eq_refl _ _ Hnone)))); discriminate.
Defined.

(** Journeys A to B three times and B to A two times: two aggregates. *)
Example routes_there_and_back :
  let coords : Coords := {[ "A" := somewhere; "B" := somewhere ]} in
  map (fun r => (Route.from r, Route.to r, Route.count r))
      (Analytics.routes
         (analytics coords [journey "A" "B"; journey "B" "A"; journey "A" "B";
                            journey "B" "A"; journey "A" "B"]))
  = [("A", "B", 3%nat); ("B", "A", 2%nat)].
Proof. by vm_compute. Qed.

(** C3, where the code departs from it. The key of a route is the text
    [from -> to]; the stop names "x" and "x -> x" are distinct and both
    have coordinates, and the two directions between them have the same
    key: three journeys one way and two the other way are reported as a
    single aggregate with count 5. *)
Theorem colliding_route_keys_are_merged :
  let coords : Coords := {[ "x" := somewhere; "x -> x" := somewhere ]} in
  "x" <> "x -> x"
  /\ is_Some (coords !! "x") /\ is_Some (coords !! "x -> x")
  /\ routeKey "x" "x -> x" = routeKey "x -> x" "x"
  /\ map (fun r => (Route.from r, Route.to r, Route.count r))
       (Analytics.routes
          (analytics coords
             [journey "x" "x -> x"; journey "x" "x -> x"; journey "x" "x -> x";
              journey "x -> x" "x"; journey "x -> x" "x"]))
     = [("x", "x -> x", 5%nat)].
Proof.
  intros coords. split; [discriminate|]. split; [by eexists|]. split; [by eexists|].
  split; [reflexivity|]. by vm_compute.
Qed.

(** C2, where the code departs from it. The coordinate object is read
    with [coords[name]], and that read also finds the properties every
    object inherits. The object has an entry for "Dam" and none for
    "constructor"; the journey from "constructor" to "Dam" is counted in
    a route aggregate, whose origin coordinate is the inherited value,
    and in the stop aggregates of both names, and "constructor" is not
    in the missing set. *)
Theorem inherited_name_passes_for_a_coordinate :
  let coords : Coords := {[ "Dam" := somewhere ]} in
  let a := analytics coords [journey "constructor" "Dam"] in
  coords !! "constructor" = None
  /\ transactie (journey "constructor" "Dam") = Some "Reis"
  /\ map (fun r => (Route.from r, Route.to r, Route.count r, Route.fromCoord r))
       (Analytics.routes a)
     = [("constructor", "Dam", 1%nat, Inherited "constructor")]
  /\ map (fun s => (StopAggregate.name s, StopAggregate.count s)) (Analytics.stops a)
     = [("constructor", 1%nat); ("Dam", 1%nat)]
  /\ Analytics.missing a = [].
Proof. intros coords a. split; [reflexivity|]. split; [reflexivity|]. by vm_compute. Qed.

End AppRuns.

(** ** Dates *)

Section DateFacts.
Import JsObject JsString JsNumber JsDate JsHost App AppSpec.
Local Open Scope Z_scope.

(** A day of the month beyond the month's end rolls over into the days
    that follow: the day number moves by as much as the day of the month. *)
Lemma MakeDayZ_day_shift (y m dt k : Z) :
  MakeDayZ y m (dt + k) = (fun d => d + k) <$> MakeDayZ y m dt.
Proof.
  unfold MakeDayZ. destruct (Z.abs _ <=? maxTime); simpl; [f_equal; lia | done].
Qed.

(** A month index beyond 11 rolls over into the next year. *)
Lemma MakeDayZ_month_carry (y m dt : Z) :
  MakeDayZ y (m + 12) dt = MakeDayZ (y + 1) m dt.
Proof.
  unfold MakeDayZ.
  replace (m + 12) with (m + 1 * 12) by lia.
  rewrite Z.div_add, Z.mod_add by lia.
  by replace (y + (m / 12 + 1)) with (y + 1 + m / 12) by lia.
Qed.

Lemma number_falsy (o : option float) :
  JsNumber.truthyOpt o = false <->
    o = None
    \/ exists x, o = Some x
         /\ (PrimFloat.is_nan x = true \/ PrimFloat.eqb x PrimFloat.zero = true).
Proof.
  destruct o as [x|]; simpl.
  - unfold JsNumber.truthy. rewrite negb_false_iff, orb_true_iff. split.
    + intros Hx. right. by exists x.
    + by intros [?|(x' & [= <-] & Hx)].
  - split; [by left | done].
Qed.

End DateFacts.

Section DateClaims.
Import JsObject JsString JsNumber JsDate JsHost App AppSpec.
Context `{Host}.

Lemma parseDate_None (value : option string) :
  parseDate value = None <->
    value = None \/ value = Some ""
    \/ exists v i, value = Some v /\ (i < 3)%nat /\ JsNumber.truthyOpt (component v i) = false.
Proof.
  unfold parseDate. destruct value as [v|]; simpl; [|split; [by left | done]].
  destruct (JsString.truthy v) eqn:Hv; simpl.
  2:{ apply truthy_false in Hv as ->. split; [by right; left | done]. }
  apply truthy_spec in Hv.
  fold (component v 0) (component v 1) (component v 2).
  destruct (JsNumber.truthyOpt (component v 0)) eqn:H0; simpl.
  2:{ split; [intros _|done]. right. right. exists v, 0%nat. split; [done|]. split; [lia|done]. }
  destruct (JsNumber.truthyOpt (component v 1)) eqn:H1; simpl.
  2:{ split; [intros _|done]. right. right. exists v, 1%nat. split; [done|]. split; [lia|done]. }
  destruct (JsNumber.truthyOpt (component v 2)) eqn:H2; simpl.
  2:{ split; [intros _|done]. right. right. exists v, 2%nat. split; [done|]. split; [lia|done]. }
  split; [done|]. intros [?|[[= ->]|(v' & i & [= <-] & Hi & Hf)]]; [done|done|].
  destruct i as [|[|[|i]]]; [congruence..|lia].
Qed.

Lemma parseDate_accepts (v : string) (d m y : float) :
  v <> "" ->
  component v 0 = Some d -> component v 1 = Some m -> component v 2 = Some y ->
  JsNumber.truthy d = true -> JsNumber.truthy m = true -> JsNumber.truthy y = true ->
  parseDate (Some v) = Some (newDate y (PrimFloat.sub m PrimFloat.one) d).
Proof.
  intros Hv Hd Hm Hy Td Tm Ty. unfold parseDate. simpl.
  apply truthy_spec in Hv. rewrite Hv. simpl.
  fold (component v 0) (component v 1) (component v 2).
  rewrite Hd, Hm, Hy. simpl. by rewrite Td, Tm, Ty.
Qed.

Lemma tripOfRow_date (index : nat) (row : Row) (d : Date) :
  parseDate (row !! "Datum") = Some d ->
  exists trip, tripOfRow index row = Some trip
    /\ date trip = d /\ dateLabel trip = row !! "Datum".
Proof. intros Hp. unfold tripOfRow. rewrite Hp. by eexists. Qed.

Lemma elem_of_trips (rows : list Row) (trip : Trip) :
  trip ∈ trips rows <->
    exists index row, rows !! index = Some row /\ tripOfRow index row = Some trip.
Proof.
  unfold trips. rewrite list_elem_of_omap. split.
  - intros (o & Ho & ->). apply elem_of_lookup_imap in Ho as (index & row & -> & Hrow).
    eauto.
  - intros (index & row & Hrow & Ht). exists (Some trip). split; [|done].
    rewrite <- Ht. by apply elem_of_lookup_imap_2.
Qed.

End DateClaims.

Section DateRuns.
Import JsObject JsString JsNumber JsDate JsHost App AppSpec Samples.
Local Existing Instance referenceHost.

(** C10. [parseDate] rejects a [Datum] only when it is missing or empty,
    or when one of its first three components is missing, not a number
    or zero. Three components that are numbers other than zero are
    accepted as they are, whether or not they form a calendar date: the
    date is the one the constructor computes, in which a day beyond the
    end of the month runs on into the following days and a month beyond
    the twelfth into the next year (31-04-2024 is 1 May 2024, 01-13-2024
    is 1 January 2025); the row is kept in [trips] under that date. *)
Theorem parseDate_accepts_nonzero_numbers_and_rolls_over :
  (forall (host : Host) (value : option string),
     parseDate value = None <->
       value = None \/ value = Some ""
       \/ exists v i, value = Some v /\ (i < 3)%nat
            /\ (component v i = None
                \/ exists x, component v i = Some x
                     /\ (PrimFloat.is_nan x = true
                         \/ PrimFloat.eqb x PrimFloat.zero = true)))
  /\ (forall (host : Host) (v : string) (d m y : float),
        v <> "" ->
        component v 0 = Some d -> component v 1 = Some m -> component v 2 = Some y ->
        JsNumber.truthy d = true -> JsNumber.truthy m = true ->
        JsNumber.truthy y = true ->
        parseDate (Some v) = Some (newDate y (PrimFloat.sub m PrimFloat.one) d))
  /\ (forall (host : Host) (rows : list Row) (index : nat) (row : Row) (d : Date),
        rows !! index = Some row -> parseDate (row !! "Datum") = Some d ->
        exists trip, trip ∈ trips rows /\ date trip = d
                     /\ dateLabel trip = row !! "Datum")
  /\ (forall y m dt k : Z,
        MakeDayZ y m (dt + k) = (fun d => (d + k)%Z) <$> MakeDayZ y m dt
        /\ MakeDayZ y (m + 12) dt = MakeDayZ (y + 1) m dt)
  /\ parseDate (H := referenceHost) (Some "31-04-2024")
     = Some (mkDate (Some 1714521600000%Z))
  /\ parseDate (H := referenceHost) (Some "31-04-2024")
     = parseDate (H := referenceHost) (Some "01-05-2024")
  /\ parseDate (H := referenceHost) (Some "01-13-2024")
     = Some (mkDate (Some 1735689600000%Z))
  /\ parseDate (H := referenceHost) (Some "01-13-2024")
     = parseDate (H := referenceHost) (Some "01-01-2025").
Proof.
  split; [|split; [|split; [|split]]].
  - intros host value. rewrite parseDate_None. split.
    + intros [?|[?|(v & i & Hv & Hi & Hf)]]; [by left | by right; left |].
      right. right. exists v, i. by rewrite <- number_falsy.
    + intros [?|[?|(v & i & Hv & Hi & Hf)]]; [by left | by right; left |].
      right. right. exists v, i. by rewrite number_falsy.
  - intros host. apply parseDate_accepts.
  - intros host rows index row d Hrow Hp.
    destruct (tripOfRow_date index row d Hp) as (trip & Ht & Hd & Hl).
    exists trip. split; [|done]. apply elem_of_trips. eauto.
  - intros y m dt k. split; [apply MakeDayZ_day_shift | apply MakeDayZ_month_carry].
  - repeat split; by vm_compute.
Qed.

Lemma parseDate_accepts_nonzero_numbers_and_rolls_over_witness :
  "31-04-2024" <> ""
  /\ component (H := referenceHost) "31-04-2024" 0 = Some (Number "31")
  /\ component (H := referenceHost) "31-04-2024" 1 = Some (Number "04")
  /\ component (H := referenceHost) "31-04-2024" 2 = Some (Number "2024")
  /\ JsNumber.truthy (Number "31") = true
  /\ JsNumber.truthy (Number "04") = true
  /\ JsNumber.truthy (Number "2024") = true
  /\ parseDate (H := referenceHost) (Some "31-04-2024")
     = Some (newDate (Number "2024") (PrimFloat.sub (Number "04") PrimFloat.one)
               (Number "31")).
Proof.
  assert ("31-04-2024" <> "") as Hv by discriminate.
  split; [exact Hv|]. repeat (split; [reflexivity|]).
  exact (proj1 (proj2 parseDate_accepts_nonzero_numbers_and_rolls_over)
           referenceHost "31-04-2024" (Number "31") (Number "04") (Number "2024")
           Hv eq_refl eq_refl eq_refl eq_refl eq_refl eq_refl).
Defined.

End DateRuns.


(** * More of the code *)

(** ** Sorting *)

Section SortFacts.
Import JsHost.
Context {A : Type} (cmp : A -> A -> Z).

Lemma sortInsert_Permutation (x : A) (l : list A) : sortInsert cmp x l ≡ₚ x :: l.
Proof.
  induction l as [|y l IH]; simpl; [done|].
  destruct (cmp x y <=? 0)%Z; [done|]. rewrite IH. apply perm_swap.
Qed.

Lemma sort_Permutation (l : list A) : sort cmp l ≡ₚ l.
Proof.
  induction l as [|x l IH]; simpl; [done|].
  by rewrite sortInsert_Permutation, IH.
Qed.

Lemma sort_length (l : list A) : length (sort cmp l) = length l.
Proof. by rewrite sort_Permutation. Qed.

Lemma sort_NoDup (l : list A) : NoDup l -> NoDup (sort cmp l).
Proof. by rewrite sort_Permutation. Qed.

(** The comparator orders the elements: it is total and transitive. *)
Hypothesis cmp_total : forall x y, (0 < cmp x y)%Z -> (cmp y x <= 0)%Z.
Hypothesis cmp_trans : forall x y z, (cmp x y <= 0)%Z -> (cmp y z <= 0)%Z -> (cmp x z <= 0)%Z.

Lemma sortInsert_sorted (x : A) (l : list A) :
  StronglySorted (fun a b => (cmp a b <= 0)%Z) l ->
  StronglySorted (fun a b => (cmp a b <= 0)%Z) (sortInsert cmp x l).
Proof.
  induction 1 as [|y l Hl IH Hy]; simpl.
  - repeat constructor.
  - destruct (cmp x y <=? 0)%Z eqn:Hxy.
    + apply Z.leb_le in Hxy. constructor; [by constructor|].
      constructor; [done|]. eapply Forall_impl; [exact Hy|].
      intros z Hz. by eapply cmp_trans.
    + apply Z.leb_gt in Hxy. constructor; [done|].
      rewrite sortInsert_Permutation. constructor; [by apply cmp_total | done].
Qed.

Lemma sort_sorted (l : list A) :
  StronglySorted (fun a b => (cmp a b <= 0)%Z) (sort cmp l).
Proof.
  induction l as [|x l IH]; simpl; [constructor|]. by apply sortInsert_sorted.
Qed.

End SortFacts.

Lemma StronglySorted_weaken {A} (R1 R2 : A -> A -> Prop) (l : list A) :
  (forall a b, R1 a b -> R2 a b) -> StronglySorted R1 l -> StronglySorted R2 l.
Proof.
  intros HR. induction 1 as [|x l Hl IH Hx]; constructor; [done|].
  eapply Forall_impl; [exact Hx|]. intros y. apply HR.
Qed.

Section CountOrder.
Import JsObject JsHost App.
Context {A : Type} (count : A -> nat).

Lemma byCountDesc_le (a b : A) : (byCountDesc count a b <= 0)%Z <-> (count b <= count a)%nat.
Proof. unfold byCountDesc. lia. Qed.

(** Sorting by count puts every element before the elements of a smaller
    or equal count that follow it. *)
Lemma sort_byCountDesc (l : list A) :
  StronglySorted (fun a b => (count b <= count a)%nat) (sort (byCountDesc count) l).
Proof.
  eapply StronglySorted_weaken; [|apply (sort_sorted (byCountDesc count))].
  - intros a b. apply byCountDesc_le.
  - unfold byCountDesc. intros; lia.
  - unfold byCountDesc. intros; lia.
Qed.

End CountOrder.

(** ** More on [guessQuery] *)

Section GuessQueryMore.
Import JsObject JsString Resolver ResolverSpec.

Lemma ownGet_Some_elem (obj : list (string * string)) (key value : string) :
  ownGet obj key = Some value -> (key, value) ∈ obj.
Proof.
  induction obj as [|[k v] obj IH]; simpl; [done|].
  destruct (String.eqb k key) eqn:E.
  - apply String.eqb_eq in E as ->. intros [= ->]. left.
  - intros Hg. right. by apply IH.
Qed.

(** X1. A name that is a key of the override table gets the value the
    table holds for it, whatever the later rules would give. *)
Theorem override_wins (name value : string) :
  (name, value) ∈ overrides -> guessQuery name = Some (QueryText value).
Proof.
  intros Hin.
  assert (forallb (fun e => bool_decide (guessQuery e.1 = Some (QueryText e.2)))
            overrides = true)
    as Hall by by vm_compute.
  rewrite forallb_forall in Hall. apply list_elem_of_In, Hall in Hin.
  by apply bool_decide_eq_true in Hin.
Qed.

Lemma override_wins_witness :
  ("Kievitslaan", "Kievitslaan, Rotterdam, Netherlands") ∈ overrides
  /\ guessQuery "Kievitslaan" = Some (QueryText "Kievitslaan, Rotterdam, Netherlands").
Proof.
  assert (("Kievitslaan", "Kievitslaan, Rotterdam, Netherlands") ∈ overrides) as Hin.
  { apply ownGet_Some_elem. reflexivity. }
  split; [exact Hin|]. exact (override_wins _ _ Hin).
Defined.

(** The members of the Purmerend and Zandvoort sets contain a comma or
    start with a city prefix. *)
Lemma purmerend_zandvoort_caught (name : string) :
  has purmerendStops name = true \/ has zandvoortStops name = true ->
  includes name "," = true
  \/ existsb (fun prefix => startsWith name prefix) allCityPrefixes = true.
Proof.
  assert (forallb (fun n => includes n ","
                            || existsb (fun prefix => startsWith n prefix) allCityPrefixes)
            (purmerendStops ++ zandvoortStops) = true) as Hall by by vm_compute.
  rewrite forallb_forall in Hall. intros Hin.
  apply orb_true_iff, Hall, list_elem_of_In, elem_of_app.
  by rewrite <- !has_spec.
Qed.

(** X2. When the query of a name that is no key of the override table is
    a text (it is one unless the name is that of a property the table
    inherits), the text is the name, then nothing or one of ", Den Haag",
    ", Rotterdam" and ", Amsterdam", then ", Netherlands"; a name with a
    comma gets ", Netherlands" alone. The rules for the Purmerend and
    Zandvoort sets are never reached. *)
Theorem guessed_query_shape (name query : string) :
  guessQuery name = Some (QueryText query) -> name ∉ overrides.*1 ->
  (name ∉ prototypeKeys)
  /\ (exists city,
        city ∈ [""; ", Den Haag"; ", Rotterdam"; ", Amsterdam"]
        /\ query = name +:+ city +:+ ", Netherlands")
  /\ (substring_of "," name -> query = name +:+ ", Netherlands").
Proof.
  intros Hq Ho. apply ownGet_None in Ho. unfold guessQuery, objGet, get in Hq.
  rewrite Ho in Hq.
  destruct (negb (truthy name) || String.eqb name "Onbekend"); [done|].
  destruct (inherits name) eqn:Hi; [done|]. cbn [truthyValue] in Hq.
  split; [by apply inherits_false|].
  destruct (includes name ",") eqn:Hc.
  { injection Hq as <-. split; [|done]. exists "". split; [left | done]. }
  split; [|intros Hs; by apply includes_false in Hc].
  destruct (existsb _ allCityPrefixes) eqn:Hp.
  { injection Hq as <-. exists "". split; [left | done]. }
  destruct (has denHaagStops name).
  { injection Hq as <-. exists ", Den Haag". split; [right; left | done]. }
  destruct (has rotterdamStops name).
  { injection Hq as <-. exists ", Rotterdam". split; [do 2 right; left | done]. }
  destruct (has purmerendStops name) eqn:Hpu.
  { destruct (purmerend_zandvoort_caught name (or_introl Hpu)); congruence. }
  destruct (has zandvoortStops name) eqn:Hz.
  { destruct (purmerend_zandvoort_caught name (or_intror Hz)); congruence. }
  injection Hq as <-. exists ", Amsterdam". split; [do 3 right; left | done].
Qed.

Lemma guessed_query_shape_witness :
  guessQuery "Kruisplein" = Some (QueryText "Kruisplein, Rotterdam, Netherlands")
  /\ ("Kruisplein" ∉ overrides.*1)
  /\ exists city,
       city ∈ [""; ", Den Haag"; ", Rotterdam"; ", Amsterdam"]
       /\ "Kruisplein, Rotterdam, Netherlands" = "Kruisplein" +:+ city +:+ ", Netherlands".
Proof.
  assert ("Kruisplein" ∉ overrides.*1) as Ho by by apply ownGet_None.
  split; [reflexivity|]. split; [exact Ho|].
  exact (proj1 (proj2 (guessed_query_shape "Kruisplein" _ eq_refl Ho))).
Defined.

Lemma append_not_empty (a b : string) : a <> "" -> a +:+ b <> "".
Proof. by destruct a. Qed.

(** X3. [guessQuery] returns [null] for the empty name and for
    "Onbekend" only. For the name of a property the override table
    inherits from [Object.prototype] it returns the inherited value, which
    is no text. For every other name it returns a text that is not
    empty. *)
Theorem guessQuery_null_only_for_sentinel (name : string) :
  (guessQuery name = None <-> name = "" \/ name = "Onbekend")
  /\ (name ∈ prototypeKeys -> guessQuery name = Some (QueryInherited name))
  /\ (name <> "" -> name <> "Onbekend" -> name ∉ prototypeKeys ->
      exists text, guessQuery name = Some (QueryText text) /\ text <> "").
Proof.
  split; [apply guessQuery_None|]. split.
  - intros Hin.
    assert (forallb (fun key => bool_decide (guessQuery key = Some (QueryInherited key)))
              prototypeKeys = true) as Hall by by vm_compute.
    rewrite forallb_forall in Hall. apply list_elem_of_In, Hall in Hin.
    by apply bool_decide_eq_true in Hin.
  - intros Hne Hs Hi. unfold guessQuery, objGet, get.
    apply truthy_spec in Hne as Ht. apply String.eqb_neq in Hs.
    apply inherits_false in Hi. rewrite Ht, Hs, Hi. cbn [negb orb].
    assert (forall rest, exists text,
              Some (QueryText (name +:+ rest)) = Some (QueryText text) /\ text <> "")
      as Hrule.
    { intros rest. eexists. split; [done|]. by apply append_not_empty. }
    destruct (ownGet overrides name) as [value|]; cbn [truthyValue asQuery].
    + destruct (truthy value) eqn:Hv.
      { exists value. split; [done|]. by apply truthy_spec. }
      repeat (match goal with |- context [if ?b then _ else _] => destruct b end);
        apply Hrule.
    + repeat (match goal with |- context [if ?b then _ else _] => destruct b end);
        apply Hrule.
Qed.

End GuessQueryMore.

(** ** More on the run of the resolver *)

Section ResolverMore.
Import JsObject JsString JsCollections JsHost Resolver ResolverSpec MoreSpec.
Context `{Host}.

Lemma mainLoop_fetch_unclassified (net : Network) (names : list string) (w : World)
    (n : string) (req : Request) :
  Fetch n req ∈ trace (mainLoop net names w) ->
  Fetch n req ∈ trace w \/
  (n ∈ names /\ classified (output w) n = false /\
   exists query, guessQuery n = Some query /\ req = searchRequest query).
Proof.
  revert w. induction names as [|name names IH]; intros w Hin; [by left|].
  rewrite mainLoop_cons in Hin. apply IH in Hin as [Hin|(Hn & Hc & Hq)].
  - apply visit_fetch in Hin as [Hin|(-> & Hc & Hq)]; [by left|].
    right. split; [left | done].
  - right. split; [by right|]. split; [|done].
    destruct (classified (output w) n) eqn:Hcw; [|done].
    by rewrite (visit_keeps_classified net w name n Hcw) in Hc.
Qed.

(** X4. Every request of a run is made for a name of the input that the
    existing store does not classify, with the query [guessQuery] gives
    for that name, for one result in the three countries, and with the
    client-identification header. *)
Theorem requests_are_for_new_names (net : Network) (now : string)
    (csvStops : list string) (file : option Store) (n : string) (req : Request) :
  Fetch n req ∈ trace (main net now csvStops file) ->
  n ∈ csvStops
  /\ classified (existingStore file) n = false
  /\ guessQuery n = Some (q req)
  /\ userAgent req = USER_AGENT
  /\ format req = "jsonv2" /\ limit req = "1" /\ addressdetails req = "1"
  /\ countrycodes req = "nl,de,be".
Proof.
  intros Hin. apply main_fetch, mainLoop_fetch_unclassified in Hin as [Hin|Hin].
  { by apply not_elem_of_nil in Hin. }
  destruct Hin as (Hn & Hc & query & Hq & ->). done.
Qed.

Lemma fetched_app (t1 t2 : list Event) : fetched (t1 ++ t2) = fetched t1 ++ fetched t2.
Proof. unfold fetched. by rewrite omap_app. Qed.

Lemma fetched_errors (events : list Event) :
  (forall e, e ∈ events -> exists message, e = ConsoleError message) ->
  fetched events = [].
Proof.
  induction events as [|e events IH]; intros Hev; [done|].
  destruct (Hev e) as [message ->]; [left|]. simpl. apply IH.
  intros e He. apply Hev. by right.
Qed.

Lemma elem_of_fetched (trace : list Event) (n : string) :
  n ∈ fetched trace <-> exists req, Fetch n req ∈ trace.
Proof.
  unfold fetched. rewrite list_elem_of_omap. split.
  - intros (e & He & Hf). destruct e; try done. injection Hf as ->. eauto.
  - intros (req & Hin). by exists (Fetch n req).
Qed.

Lemma visit_fetchedOnce (net : Network) (w : World) (name : string) :
  fetchedOnce w -> fetchedOnce (visit net w name).
Proof.
  intros [Hnd Hcl]. destruct (classified (output w) name) eqn:Hc.
  { by rewrite visit_classified. }
  destruct (guessQuery name) as [query|] eqn:Hq.
  - destruct (visit_attempt_written net w name query Hc Hq) as (_ & events & Ht & Hev).
    assert (fetched (trace (visit net w name)) = fetched (trace w) ++ [name]) as Hf.
    { rewrite Ht, fetched_app. simpl. rewrite fetched_app, (fetched_errors _ Hev). done. }
    split.
    + rewrite Hf. apply NoDup_app. split; [done|]. split; [|apply NoDup_singleton].
      intros n Hn Hn'. apply list_elem_of_singleton in Hn' as ->.
      apply Hcl in Hn. congruence.
    + intros n. rewrite Hf, elem_of_app, list_elem_of_singleton. intros [Hn| ->].
      * by apply visit_keeps_classified, Hcl.
      * apply visit_classifies.
  - destruct (visit_no_query net w name Hq) as (_ & Ht & _). split.
    + by rewrite Ht.
    + intros n Hn. rewrite Ht in Hn. by apply visit_keeps_classified, Hcl.
Qed.

Lemma mainLoop_fetchedOnce (net : Network) (names : list string) (w : World) :
  fetchedOnce w -> fetchedOnce (mainLoop net names w).
Proof.
  revert w. induction names as [|name names IH]; intros w Hw; [done|].
  rewrite mainLoop_cons. by apply IH, visit_fetchedOnce.
Qed.

Lemma main_fetched (net : Network) (now : string) (csvStops : list string)
    (file : option Store) :
  fetched (trace (main net now csvStops file))
  = fetched (trace (mainLoop net csvStops (start now file))).
Proof.
  destruct (main_trace net now csvStops file) as (logs & -> & Hlogs).
  rewrite fetched_app. simpl.
  assert (fetched logs = []) as ->; [|by rewrite app_nil_r].
  clear -Hlogs. induction logs as [|e logs IH]; [done|].
  destruct (Hlogs e) as [message ->]; [left|]. simpl. apply IH.
  intros e He. apply Hlogs. by right.
Qed.

(** X5. A run makes at most one request for a name, also when the name
    occurs more than once in the input. *)
Theorem at_most_one_request_per_name (net : Network) (now : string)
    (csvStops : list string) (file : option Store) :
  NoDup (fetched (trace (main net now csvStops file))).
Proof.
  rewrite main_fetched.
  apply (mainLoop_fetchedOnce net csvStops (start now file)).
  split; [constructor|]. intros n Hn. by apply not_elem_of_nil in Hn.
Qed.

(** *** A run only adds to the store *)

Lemma visit_grows (net : Network) (w : World) (name : string) :
  stops (output w) ⊆ stops (output (visit net w name))
  /\ unmatched (output w) `prefix_of` unmatched (output (visit net w name)).
Proof.
  destruct (visit_outcome net w name) as [Hc|Hc|result Hc _]; simpl.
  - done.
  - split; [done | by apply prefix_app_r].
  - split; [|done]. apply classified_false in Hc as (Hs & _ & _). by apply insert_subseteq.
Qed.

Lemma mainLoop_grows (net : Network) (names : list string) (w : World) :
  stops (output w) ⊆ stops (output (mainLoop net names w))
  /\ unmatched (output w) `prefix_of` unmatched (output (mainLoop net names w)).
Proof.
  revert w. induction names as [|name names IH]; intros w; [done|].
  rewrite mainLoop_cons. destruct (visit_grows net w name) as [Hs Hu].
  destruct (IH (visit net w name)) as [Hs' Hu']. split; by etrans.
Qed.

(** X6. A run removes and overwrites nothing: every entry of [stops] of
    the existing store is in the final store with the same value, and
    the final [unmatched] list starts with the existing one. *)
Theorem run_only_adds (net : Network) (now : string) (csvStops : list string)
    (file : option Store) :
  let w := main net now csvStops file in
  (forall n entry, stops (existingStore file) !! n = Some entry ->
     stops (output w) !! n = Some entry)
  /\ unmatched (existingStore file) `prefix_of` unmatched (output w).
Proof.
  intros w. unfold w. rewrite main_output.
  destruct (mainLoop_grows net csvStops (start now file)) as [Hs Hu]. split; [|done].
  intros n entry Hn. by eapply lookup_weaken.
Qed.

End ResolverMore.

Section ResolverMore2.
Import JsObject JsString JsCollections JsHost Resolver ResolverSpec MoreSpec.
Context `{Host}.

(** *** A lookup that succeeds *)

Lemma visit_resolved_stays (net : Network) (w : World) (name n : string)
    (entry : StopCoordinateEntry) :
  stops (output w) !! n = Some entry /\ n ∉ unmatched (output w) ->
  stops (output (visit net w name)) !! n = Some entry
  /\ n ∉ unmatched (output (visit net w name)).
Proof.
  intros [Hs Hu]. destruct (decide (n = name)) as [->|Hne].
  - rewrite visit_classified; [done|]. apply classified_true. left. by eexists.
  - destruct (visit_other net w name n Hne) as [-> Hu']. by rewrite Hu'.
Qed.

Lemma mainLoop_resolved_stays (net : Network) (names : list string) (w : World)
    (n : string) (entry : StopCoordinateEntry) :
  stops (output w) !! n = Some entry /\ n ∉ unmatched (output w) ->
  stops (output (mainLoop net names w)) !! n = Some entry
  /\ n ∉ unmatched (output (mainLoop net names w)).
Proof.
  revert w. induction names as [|name names IH]; intros w Hw; [done|].
  rewrite mainLoop_cons. by apply IH, visit_resolved_stays.
Qed.

(** X7. A name of the input that the guard of the loop does not pass
    over at the start (it is no key of [stops] and no element of
    [unmatched] in the existing store, and no name of a property every
    object inherits) and whose request is answered with success and at
    least one place is a key of [stops] after the run, and no element of
    [unmatched]: its entry holds the latitude and longitude of the first
    place as numbers, the display name of that place, and the query that
    was sent. *)
Theorem successful_lookup_is_recorded (net : Network) (now : string)
    (csvStops : list string) (file : option Store) (name : string) (query : Query)
    (status : nat) (place : Place) (others : list Place) :
  name ∈ csvStops ->
  classified (existingStore file) name = false ->
  guessQuery name = Some query ->
  net name (searchRequest query) = FetchResponse true status (JsonArray (place :: others)) ->
  let w := main net now csvStops file in
  stops (output w) !! name
    = Some {| lat := Number (place_lat place); lng := Number (place_lon place);
              label := display_name place; Resolver.query := query |}
  /\ name ∉ unmatched (output w).
Proof.
  intros Hin Hc Hq Hnet w. unfold w. rewrite main_output.
  assert (classified (output (start now file)) name = false) as Hc0 by done.
  revert Hc0. generalize (start now file) as w0. clear w.
  induction csvStops as [|n names IH]; intros w0 Hc0.
  { by apply not_elem_of_nil in Hin. }
  rewrite mainLoop_cons. destruct (decide (name = n)) as [<-|Hne].
  - apply mainLoop_resolved_stays. apply classified_false in Hc0 as (Hs & Hu & Hi).
    unfold visit. assert (classified (output w0) name = false) as ->.
    { by apply classified_false. }
    rewrite Hq. unfold geocode. rewrite Hnet. simpl. by rewrite lookup_insert_eq.
  - apply elem_of_cons in Hin as [->|Hin]; [done|]. apply IH; [done|].
    by rewrite visit_other_classified.
Qed.

(** *** Writes and delays *)

Lemma filter_errors (p : Event -> bool) (events : list Event) :
  (forall message, p (ConsoleError message) = false) ->
  (forall e, e ∈ events -> exists message, e = ConsoleError message) ->
  List.filter p events = [].
Proof.
  intros Hp. induction events as [|e events IH]; intros Hev; [done|].
  destruct (Hev e) as [message ->]; [left|]. simpl. rewrite Hp. apply IH.
  intros e He. apply Hev. by right.
Qed.

Lemma visit_counts (net : Network) (w : World) (name : string) :
  length (fetched (trace w)) = length (List.filter isWrite (trace w)) ->
  length (fetched (trace w)) = length (List.filter isDelay (trace w)) ->
  length (fetched (trace (visit net w name)))
    = length (List.filter isWrite (trace (visit net w name)))
  /\ length (fetched (trace (visit net w name)))
    = length (List.filter isDelay (trace (visit net w name))).
Proof.
  intros Hw Hd. destruct (classified (output w) name) eqn:Hc.
  { by rewrite visit_classified. }
  destruct (guessQuery name) as [query|] eqn:Hq.
  - destruct (visit_attempt_written net w name query Hc Hq) as (_ & events & -> & Hev).
    rewrite fetched_app, !List.filter_app. simpl.
    rewrite fetched_app, !List.filter_app, (fetched_errors _ Hev).
    rewrite (filter_errors isWrite events), (filter_errors isDelay events) by done.
    simpl. rewrite !length_app. simpl. lia.
  - by destruct (visit_no_query net w name Hq) as (_ & -> & _).
Qed.

Lemma mainLoop_counts (net : Network) (names : list string) (w : World) :
  length (fetched (trace w)) = length (List.filter isWrite (trace w)) ->
  length (fetched (trace w)) = length (List.filter isDelay (trace w)) ->
  length (fetched (trace (mainLoop net names w)))
    = length (List.filter isWrite (trace (mainLoop net names w)))
  /\ length (fetched (trace (mainLoop net names w)))
    = length (List.filter isDelay (trace (mainLoop net names w))).
Proof.
  revert w. induction names as [|name names IH]; intros w Hw Hd; [done|].
  rewrite mainLoop_cons. destruct (visit_counts net w name Hw Hd). by apply IH.
Qed.

Lemma visit_delay (net : Network) (w : World) (name : string) (ms : nat) :
  Delay ms ∈ trace (visit net w name) -> Delay ms ∈ trace w \/ ms = 1100%nat.
Proof.
  destruct (classified (output w) name) eqn:Hc.
  { rewrite visit_classified; auto. }
  destruct (guessQuery name) as [query|] eqn:Hq.
  - destruct (visit_attempt_written net w name query Hc Hq) as (_ & events & -> & Hev).
    rewrite elem_of_app, elem_of_cons, elem_of_app. intros [Hin|[Hin|[Hin|Hin]]]; auto.
    + done.
    + apply Hev in Hin as [message Hin]. done.
    + apply elem_of_cons in Hin as [Hin|Hin]; [done|].
      apply list_elem_of_singleton in Hin. injection Hin as ->. by right.
  - destruct (visit_no_query net w name Hq) as (_ & -> & _). auto.
Qed.

Lemma mainLoop_delay (net : Network) (names : list string) (w : World) (ms : nat) :
  Delay ms ∈ trace (mainLoop net names w) -> Delay ms ∈ trace w \/ ms = 1100%nat.
Proof.
  revert w. induction names as [|name names IH]; intros w Hin; [by left|].
  rewrite mainLoop_cons in Hin. apply IH in Hin as [Hin|Hin]; [|by right].
  by apply visit_delay in Hin.
Qed.

(** X8. A run that makes k requests writes the store k + 1 times and
    waits k times, each time 1100 ms. *)
Theorem writes_and_delays_follow_requests (net : Network) (now : string)
    (csvStops : list string) (file : option Store) :
  let w := main net now csvStops file in
  length (List.filter isWrite (trace w)) = S (length (fetched (trace w)))
  /\ length (List.filter isDelay (trace w)) = length (fetched (trace w))
  /\ forall ms, Delay ms ∈ trace w -> ms = 1100%nat.
Proof.
  intros w. unfold w. rewrite main_fetched.
  destruct (mainLoop_counts net csvStops (start now file)) as [Hw Hd]; [done..|].
  destruct (main_trace net now csvStops file) as (logs & -> & Hlogs).
  assert (forall p, (forall message, p (ConsoleLog message) = false) ->
            List.filter p logs = []) as Hnone.
  { intros p Hp. clear -Hp Hlogs. induction logs as [|e logs IH]; [done|].
    destruct (Hlogs e) as [message ->]; [left|]. simpl. rewrite Hp. apply IH.
    intros e He. apply Hlogs. by right. }
  rewrite !List.filter_app. simpl. rewrite !Hnone by done.
  rewrite !length_app. simpl. split; [lia|]. split; [lia|].
  intros ms. rewrite elem_of_app, elem_of_cons. intros [Hin|[Hin|Hin]].
  - apply mainLoop_delay in Hin as [Hin|Hin]; [|done]. by apply not_elem_of_nil in Hin.
  - done.
  - apply Hlogs in Hin as [message Hin]. done.
Qed.

(** *** A second run *)

(** X9. A second run over the same names, started from the file the
    first run left as it is read back (with the keys of [stops] and the
    list [unmatched] that were written, which is what the conversion to
    JSON and back keeps of them), makes no request, whatever the network
    answers, and ends with the [stops] it read and the [unmatched] of the
    first run. *)
Theorem second_run_changes_nothing (net net' : Network) (now now' : string)
    (csvStops : list string) (file : option Store) (reread : Store) :
  let first := main net now csvStops file in
  (forall n, is_Some (stops reread !! n) <-> is_Some (stops (output first) !! n)) ->
  unmatched reread = unmatched (output first) ->
  let second := main net' now' csvStops (Some reread) in
  fetched (trace second) = []
  /\ stops (output second) = stops reread
  /\ unmatched (output second) = unmatched (output first)
  /\ generatedAt (output second) = Some now'.
Proof.
  intros first Hkeys Hun second.
  assert (mainLoop net' csvStops (start now' (Some reread)) = start now' (Some reread))
    as Hloop.
  { apply mainLoop_all_classified. intros n Hn.
    pose proof (mainLoop_classifies net csvStops (start now file) n Hn) as Hc.
    apply classified_true. apply classified_true in Hc. simpl.
    rewrite Hkeys, Hun. unfold first. by rewrite main_output. }
  unfold second. rewrite main_fetched, main_output, Hloop. simpl.
  by rewrite Hun.
Qed.

(** *** The names of the final store *)

Lemma visit_unmatched_NoDup (net : Network) (w : World) (name : string) :
  NoDup (unmatched (output w)) -> NoDup (unmatched (output (visit net w name))).
Proof.
  intros Hnd. destruct (visit_outcome net w name) as [Hc|Hc|result Hc _]; simpl; [done| |done].
  apply classified_false in Hc as (_ & Hu & _). apply NoDup_app. split; [done|].
  split; [|apply NoDup_singleton]. intros n Hn Hn'.
  apply list_elem_of_singleton in Hn' as ->. done.
Qed.

Lemma visit_classified_iff (net : Network) (w : World) (name n : string) :
  classified (output (visit net w name)) n = true
  <-> classified (output w) n = true \/ n = name.
Proof.
  destruct (decide (n = name)) as [->|Hne].
  - split; [by right | intros _; apply visit_classifies].
  - rewrite visit_other_classified by done. split; [by left | by intros [?|?]].
Qed.

Lemma mainLoop_classified_iff (net : Network) (names : list string) (w : World)
    (n : string) :
  classified (output (mainLoop net names w)) n = true
  <-> classified (output w) n = true \/ n ∈ names.
Proof.
  revert w. induction names as [|name names IH]; intros w.
  - rewrite elem_of_nil. split; [by left | by intros [?|?]].
  - rewrite mainLoop_cons, IH, visit_classified_iff, elem_of_cons. tauto.
Qed.

Lemma mainLoop_unmatched_NoDup (net : Network) (names : list string) (w : World) :
  NoDup (unmatched (output w)) -> NoDup (unmatched (output (mainLoop net names w))).
Proof.
  revert w. induction names as [|name names IH]; intros w Hw; [done|].
  rewrite mainLoop_cons. by apply IH, visit_unmatched_NoDup.
Qed.

Lemma visit_skips_inherited (net : Network) (w : World) (name n : string) :
  inherits n = true ->
  stops (output (visit net w name)) !! n = stops (output w) !! n
  /\ (n ∈ unmatched (output (visit net w name)) <-> n ∈ unmatched (output w)).
Proof.
  intros Hi. destruct (decide (n = name)) as [->|Hne]; [|by apply visit_other].
  rewrite visit_classified; [done|]. apply classified_true. by do 2 right.
Qed.

Lemma mainLoop_skips_inherited (net : Network) (names : list string) (w : World)
    (n : string) :
  inherits n = true ->
  stops (output (mainLoop net names w)) !! n = stops (output w) !! n
  /\ (n ∈ unmatched (output (mainLoop net names w)) <-> n ∈ unmatched (output w)).
Proof.
  intros Hi. revert w. induction names as [|name names IH]; intros w; [done|].
  rewrite mainLoop_cons. destruct (IH (visit net w name)) as [-> ->].
  by apply visit_skips_inherited.
Qed.

Lemma recorded_classified (o : Store) (n : string) :
  inherits n = false -> recorded o n <-> classified o n = true.
Proof.
  intros Hi. rewrite classified_true, Hi. unfold recorded.
  split; [tauto | by intros [?|[?|?]]; [left | right |]].
Qed.

(** X10. After a run, a name that is not the name of a property every
    object inherits is a key of [stops] or an element of [unmatched] if
    and only if it was so in the existing store or is a name of the
    input. The name of an inherited property is passed over, since the
    guard finds the inherited value under it: no request is made for it,
    and it is a key of [stops] or an element of [unmatched] only as far
    as it was in the existing store. A list [unmatched] without
    duplicates stays without duplicates. *)
Theorem final_store_classifies_input (net : Network) (now : string)
    (csvStops : list string) (file : option Store) :
  let w := main net now csvStops file in
  (forall n, n ∉ prototypeKeys ->
     recorded (output w) n <-> recorded (existingStore file) n \/ n ∈ csvStops)
  /\ (forall n, n ∈ prototypeKeys ->
        (forall req, Fetch n req ∉ trace w)
        /\ stops (output w) !! n = stops (existingStore file) !! n
        /\ (n ∈ unmatched (output w) <-> n ∈ unmatched (existingStore file)))
  /\ (NoDup (unmatched (existingStore file)) -> NoDup (unmatched (output w))).
Proof.
  intros w. unfold w. rewrite main_output. split; [|split].
  - intros n Hn. apply inherits_false in Hn.
    rewrite !recorded_classified, mainLoop_classified_iff by done. done.
  - intros n Hn. apply inherits_spec in Hn. split.
    + intros req Hin. apply main_fetch, mainLoop_fetch_unclassified in Hin as [Hin|Hin].
      * by apply not_elem_of_nil in Hin.
      * destruct Hin as (_ & Hc & _). apply classified_false in Hc as (_ & _ & Hi).
        congruence.
    + by apply (mainLoop_skips_inherited net csvStops (start now file)).
  - intros Hnd. by apply mainLoop_unmatched_NoDup.
Qed.

End ResolverMore2.

(** ** Reading the CSV *)

Section CsvFacts.
Import JsObject JsString JsCollections JsHost Resolver ResolverSpec MoreSpec.

Lemma append_assoc (a b c : string) : (a +:+ b) +:+ c = a +:+ b +:+ c.
Proof.
  induction a as [|x a IH]; [done|].
  change (String x ((a +:+ b) +:+ c) = String x (a +:+ b +:+ c)). by rewrite IH.
Qed.

Lemma pushed_list (s current : string) :
  String.list_ascii_of_string (pushed s current)
  = rev (String.list_ascii_of_string s) ++ String.list_ascii_of_string current.
Proof.
  revert current. induction s as [|c s IH]; intros current; simpl; [done|].
  rewrite IH. simpl. by rewrite <- app_assoc.
Qed.

Lemma fieldOf_pushed (s : string) :
  String.string_of_list_ascii (rev (String.list_ascii_of_string (pushed s ""))) = s.
Proof.
  rewrite pushed_list. simpl.
  rewrite app_nil_r, rev_involutive. apply String.string_of_list_ascii_of_string.
Qed.

Lemma parseCsvFrom_plain (line current : string) :
  hasChar "034" line = false ->
  parseCsvFrom line current false = splitAcc "," current line.
Proof.
  revert current. induction line as [|c line IH]; intros current Hq; [done|].
  simpl in Hq. apply orb_false_iff in Hq as [Hc Hq]. simpl. rewrite Hc.
  destruct (Ascii.eqb c ","); simpl; by rewrite IH.
Qed.

(** X11. A line without a quote character is split at its commas:
    [parseCsvLine] gives the fields [split] gives, the way the header
    line is read. *)
Theorem parseCsvLine_without_quotes (line : string) :
  hasChar "034" line = false -> parseCsvLine line = split "," line.
Proof. intros Hq. by apply parseCsvFrom_plain. Qed.

Lemma parseCsvFrom_escaped (field rest current : string) :
  parseCsvFrom (escapeQuotes field +:+ rest) current true
  = parseCsvFrom rest (pushed field current) true.
Proof.
  revert current. induction field as [|c field IH]; intros current; [done|].
  simpl. destruct (Ascii.eqb c "034") eqn:Hc.
  - apply Ascii.eqb_eq in Hc as ->.
    change (parseCsvFrom (String "034" (String "034" (escapeQuotes field +:+ rest)))
              current true = parseCsvFrom rest (pushed field (String "034" current)) true).
    simpl. apply IH.
  - change (parseCsvFrom (String c (escapeQuotes field +:+ rest)) current true
            = parseCsvFrom rest (pushed field (String c current)) true).
    simpl. rewrite Hc. destruct (Ascii.eqb c ","); simpl; apply IH.
Qed.

Lemma parseCsvFrom_quoted_last (field : string) :
  parseCsvFrom (quoteField field) "" false = [field].
Proof.
  unfold quoteField. simpl. rewrite parseCsvFrom_escaped. simpl.
  by rewrite fieldOf_pushed.
Qed.

Lemma parseCsvFrom_quoted_more (field rest : string) :
  parseCsvFrom (quoteField field +:+ "," +:+ rest) "" false
  = field :: parseCsvFrom rest "" false.
Proof.
  unfold quoteField.
  change (String "034" (escapeQuotes field +:+ String "034" "") +:+ "," +:+ rest)
    with (String "034" ((escapeQuotes field +:+ String "034" "") +:+ "," +:+ rest)).
  rewrite append_assoc. simpl. rewrite parseCsvFrom_escaped.
  change (String "034" "" +:+ "," +:+ rest) with (String "034" (String "," rest)).
  simpl. by rewrite fieldOf_pushed.
Qed.

(** X12. Quoting round trip: fields written the way a CSV writer quotes
    them (each between quotes, every quote inside doubled) and joined by
    commas are read back as they were, commas and quotes included. *)
Theorem parseCsvLine_reads_quoted_fields (fields : list string) :
  fields <> [] ->
  parseCsvLine (join "," (map quoteField fields)) = fields.
Proof.
  unfold parseCsvLine. induction fields as [|field fields IH]; [done|]. intros _.
  destruct fields as [|next fields].
  - apply parseCsvFrom_quoted_last.
  - change (join "," (map quoteField (field :: next :: fields)))
      with (quoteField field +:+ "," +:+ join "," (map quoteField (next :: fields))).
    rewrite parseCsvFrom_quoted_more. f_equal. by apply IH.
Qed.

End CsvFacts.

Section CsvStops.
Import JsObject JsString JsCollections JsHost Resolver ResolverSpec MoreSpec.
Context `{Host}.

Lemma setAdd_NoDup {K} `{EqDecision K} (s : list K) (k : K) :
  NoDup s -> NoDup (setAdd s k).
Proof.
  intros Hs. unfold setAdd. destruct (decide (k ∈ s)); [done|].
  apply NoDup_app. split; [done|]. split; [|apply NoDup_singleton].
  intros x Hx Hx'. apply list_elem_of_singleton in Hx' as ->. done.
Qed.

Lemma collectStops_spec (vi bi : option nat) (stops : list string) (line n : string) :
  n ∈ collectStops vi bi stops line <-> n ∈ stops \/ namesOf vi bi line n.
Proof.
  unfold collectStops, namesOf.
  destruct (at_ (parseCsvLine line) vi) as [v|], (at_ (parseCsvLine line) bi) as [b|];
    simpl;
    repeat (match goal with |- context [JsString.truthy ?x] =>
              let E := fresh "E" in destruct (JsString.truthy x) eqn:E;
              [apply truthy_spec in E | apply truthy_false in E] end);
    rewrite ?elem_of_setAdd; split; intros Hn;
    repeat (match goal with
            | Hn : _ \/ _ |- _ => destruct Hn as [Hn|Hn]
            | Hn : _ /\ _ |- _ => destruct Hn as [? Hn]
            | Hn : Some _ = Some _ |- _ => injection Hn as ->
            end); subst; try done; auto 6.
Qed.

Lemma collectStops_NoDup (vi bi : option nat) (stops : list string) (line : string) :
  NoDup stops -> NoDup (collectStops vi bi stops line).
Proof.
  intros Hs. unfold collectStops.
  destruct (truthyOpt (at_ (parseCsvLine line) vi)),
           (truthyOpt (at_ (parseCsvLine line) bi)); auto using setAdd_NoDup.
Qed.

Lemma foldCollect_spec (vi bi : option nat) (lines : list string) (stops : list string)
    (n : string) :
  n ∈ fold_left (collectStops vi bi) lines stops
  <-> n ∈ stops \/ exists line, line ∈ lines /\ namesOf vi bi line n.
Proof.
  revert stops. induction lines as [|line lines IH]; intros stops; simpl.
  - split; [by left | intros [?|(line & Hl & _)]; [done|]]. by apply not_elem_of_nil in Hl.
  - rewrite IH, collectStops_spec. split.
    + intros [[?|?]|(l & Hl & Hn)]; [by left | right; exists line; split; [left|done] |].
      right. exists l. split; [by right | done].
    + intros [?|(l & Hl & Hn)]; [by left; left|].
      apply elem_of_cons in Hl as [->|Hl]; [by left; right|]. right. eauto.
Qed.

Lemma foldCollect_NoDup (vi bi : option nat) (lines : list string) (stops : list string) :
  NoDup stops -> NoDup (fold_left (collectStops vi bi) lines stops).
Proof.
  revert stops. induction lines as [|line lines IH]; intros stops Hs; [done|].
  simpl. by apply IH, collectStops_NoDup.
Qed.

(** X13. When the text has a non-empty line, [readCsvStops] returns the
    stop names of the data lines: a name is returned if and only if it is
    not empty and is the field of a non-empty line after the first, at
    the position of [Vertrek] or of [Bestemming] in the header; no name
    is returned twice. *)
Theorem readCsvStops_names (text header : string) (lines : list string) :
  List.filter JsString.truthy (splitLines text) = header :: lines ->
  exists names,
    readCsvStops (Some text) = Return names
    /\ NoDup names
    /\ forall n, n ∈ names <->
         n <> "" /\
         exists line, line ∈ lines /\
           (at_ (parseCsvLine line) (indexOf (split "," header) "Vertrek") = Some n
            \/ at_ (parseCsvLine line) (indexOf (split "," header) "Bestemming") = Some n).
Proof.
  intros Hl. unfold readCsvStops. rewrite Hl. eexists. split; [done|]. split.
  - apply sort_NoDup, foldCollect_NoDup. constructor.
  - intros n. rewrite elem_of_sort, foldCollect_spec. unfold namesOf. split.
    + intros [Hn|(line & Hin & Hne & Hat)]; [by apply not_elem_of_nil in Hn|]. eauto.
    + intros (Hne & line & Hin & Hat). right. eauto.
Qed.

Lemma indexOf_None (l : list string) (x : string) : indexOf l x = None <-> x ∉ l.
Proof.
  induction l as [|y l IH]; simpl; [by split; [intros _; apply not_elem_of_nil|]|].
  destruct (String.eqb y x) eqn:E.
  - apply String.eqb_eq in E as ->. split; [done|]. intros Hn. destruct Hn. left.
  - apply String.eqb_neq in E. rewrite fmap_None, IH, not_elem_of_cons.
    split; [by intros ?; split|by intros [_ ?]].
Qed.

Lemma indexOf_Some (l : list string) (x : string) (i : nat) :
  indexOf l x = Some i -> l !! i = Some x /\ forall j, (j < i)%nat -> l !! j <> Some x.
Proof.
  revert i. induction l as [|y l IH]; intros i; simpl; [done|].
  destruct (String.eqb y x) eqn:E.
  - apply String.eqb_eq in E as ->. intros [= <-]. split; [done|]. lia.
  - apply String.eqb_neq in E. intros Hi. apply fmap_Some in Hi as (i' & Hi' & ->).
    destruct (IH i' Hi') as [Hl Hfirst]. split; [done|].
    intros [|j] Hj; simpl; [congruence|]. apply Hfirst. lia.
Qed.

(** X14. Edge cases of [readCsvStops]: it throws when the file cannot be
    read and when the text has no non-empty line; when the header names
    neither [Vertrek] nor [Bestemming], it returns no name at all,
    whatever the data lines hold. *)
Theorem readCsvStops_edges :
  (exists message, readCsvStops None = Throw message)
  /\ (forall text,
        (forall line, line ∈ splitLines text -> line = "") ->
        exists message, readCsvStops (Some text) = Throw message)
  /\ (forall text header lines,
        List.filter JsString.truthy (splitLines text) = header :: lines ->
        "Vertrek" ∉ split "," header -> "Bestemming" ∉ split "," header ->
        readCsvStops (Some text) = Return []).
Proof.
  split; [by eexists|]. split.
  - intros text Hempty. unfold readCsvStops.
    assert (List.filter JsString.truthy (splitLines text) = []) as ->; [|by eexists].
    induction (splitLines text) as [|line ls IH]; [done|]. simpl.
    rewrite (Hempty line) by left. simpl. apply IH. intros l Hl. apply Hempty. by right.
  - intros text header lines Hl Hv Hb. unfold readCsvStops. rewrite Hl.
    apply indexOf_None in Hv, Hb. rewrite Hv, Hb. f_equal.
    assert (forall stops, fold_left (collectStops None None) lines stops = stops) as ->; [|done].
    clear Hl. induction lines as [|line ls IH]; intros stops; [done|]. simpl. apply IH.
Qed.

(** X15. When the collation orders the strings (it is total and
    transitive), the names [readCsvStops] returns are in that order. *)
Theorem readCsvStops_sorted (csv : option string) (names : list string) :
  (forall a b, (0 < localeCompare a b)%Z -> (localeCompare b a <= 0)%Z) ->
  (forall a b c, (localeCompare a b <= 0)%Z -> (localeCompare b c <= 0)%Z ->
                 (localeCompare a c <= 0)%Z) ->
  readCsvStops csv = Return names ->
  StronglySorted (fun a b => (localeCompare a b <= 0)%Z) names.
Proof.
  intros Htotal Htrans. unfold readCsvStops. destruct csv as [text|]; [|done].
  destruct (List.filter _ _) as [|header lines]; [done|].
  intros [= <-]. by apply sort_sorted.
Qed.

End CsvStops.

(** ** Maps of counts *)

Section MapMore.
Import JsCollections MoreSpec.
Context {K V : Type} `{EqDecision K}.

Lemma mapSet_keys (m : list (K * V)) (k : K) (v : V) :
  (mapSet m k v).*1 = if decide (k ∈ m.*1) then m.*1 else m.*1 ++ [k].
Proof.
  induction m as [|[k' v'] m IH].
  - cbn [mapSet]. rewrite decide_False; [done | apply not_elem_of_nil].
  - cbn [mapSet]. destruct (decide (k' = k)) as [->|Hne].
    + rewrite !fmap_cons. cbn [fst]. rewrite decide_True; [done | left].
    + rewrite !fmap_cons, IH. cbn [fst]. destruct (decide (k ∈ m.*1)) as [Hin|Hnin].
      * rewrite decide_True; [done | by right].
      * rewrite decide_False; [done|]. rewrite not_elem_of_cons. by split.
Qed.

Lemma mapSet_keys_NoDup (m : list (K * V)) (k : K) (v : V) :
  NoDup m.*1 -> NoDup (mapSet m k v).*1.
Proof.
  intros Hnd. rewrite mapSet_keys. destruct (decide (k ∈ m.*1)); [done|].
  apply NoDup_app. split; [done|]. split; [|apply NoDup_singleton].
  intros x Hx Hx'. apply list_elem_of_singleton in Hx' as ->. done.
Qed.

Lemma mapGet_None (m : list (K * V)) (k : K) : mapGet m k = None <-> k ∉ m.*1.
Proof.
  induction m as [|[k' v'] m IH]; simpl.
  - split; [intros _; apply not_elem_of_nil | done].
  - destruct (decide (k' = k)) as [->|Hne].
    + split; [done|]. intros Hn. destruct Hn. left.
    + rewrite IH, not_elem_of_cons. split; [by intros ?; split | by intros [_ ?]].
Qed.

Lemma elem_of_mapGet (m : list (K * V)) (k : K) (v : V) :
  NoDup m.*1 -> (k, v) ∈ m <-> mapGet m k = Some v.
Proof.
  intros Hnd. split; [|apply mapGet_Some_elem].
  induction m as [|[k' v'] m IH]; simpl; [by intros ?%not_elem_of_nil|].
  apply NoDup_cons in Hnd as [Hk' Hnd]. intros Hin.
  apply elem_of_cons in Hin as [[= <- <-]|Hin].
  - by rewrite decide_True.
  - destruct (decide (k' = k)) as [->|Hne]; [|by apply IH].
    destruct Hk'. apply list_elem_of_fmap. by exists (k, v).
Qed.

End MapMore.

Section CountMaps.
Import JsObject JsCollections MoreSpec App.
Context {K : Type} `{EqDecision K}.

Lemma sum_mapSet (m : list (K * nat)) (k : K) (v : nat) :
  (sum_list_with snd (mapSet m k v) + countOf m k = sum_list_with snd m + v)%nat.
Proof.
  unfold countOf. induction m as [|[k' v'] m IH]; simpl; [lia|].
  destruct (decide (k' = k)) as [->|Hne]; simpl; lia.
Qed.

Lemma sum_increment (m : list (K * nat)) (k : K) :
  sum_list_with snd (increment m k) = S (sum_list_with snd m).
Proof.
  unfold increment. pose proof (sum_mapSet m k (default 0 (mapGet m k) + 1)%nat) as Hs.
  unfold countOf in Hs. lia.
Qed.

Lemma countOf_increment (m : list (K * nat)) (k k' : K) :
  countOf (increment m k) k' = (countOf m k' + if decide (k = k') then 1 else 0)%nat.
Proof.
  unfold countOf, increment. destruct (decide (k = k')) as [->|Hne].
  - rewrite mapGet_mapSet_eq. simpl. lia.
  - rewrite mapGet_mapSet_ne by done. lia.
Qed.

Lemma increment_positive (m : list (K * nat)) (k : K) :
  positive m -> positive (increment m k).
Proof.
  intros Hp e He. apply elem_of_mapSet in He as [->|He]; [simpl; lia | by apply Hp].
Qed.

Lemma increment_keys_NoDup (m : list (K * nat)) (k : K) :
  NoDup m.*1 -> NoDup (increment m k).*1.
Proof. apply mapSet_keys_NoDup. Qed.

(** An entry of a map of counts, by the count of its key. *)
Lemma elem_of_counts (m : list (K * nat)) (k : K) (c : nat) :
  NoDup m.*1 -> positive m ->
  (k, c) ∈ m <-> countOf m k = c /\ (1 <= c)%nat.
Proof.
  intros Hnd Hp. rewrite elem_of_mapGet by done. unfold countOf. split.
  - intros Hg. rewrite Hg. split; [done|].
    apply mapGet_Some_elem in Hg. by apply Hp in Hg.
  - intros [Hc Hpos]. destruct (mapGet m k) as [c'|]; simpl in Hc; [by subst|lia].
Qed.

End CountMaps.

(** ** More on [analytics] *)

Section TallyMore.
Import JsObject JsString JsCollections JsDate JsHost App AppSpec MoreSpec.

Lemma resolvedJourney_spec (coords : Coords) (trip : Trip) :
  resolvedJourney coords trip = true <->
    isJourney trip = true
    /\ is_Some (coordOf coords (from trip)) /\ is_Some (coordOf coords (to trip)).
Proof.
  unfold resolvedJourney. rewrite !andb_true_iff, !bool_decide_eq_true. tauto.
Qed.

Lemma tally_productMap (coords : Coords) (acc : Tally.t) (trip : Trip) :
  Tally.productMap (tally coords acc trip) = increment (Tally.productMap acc) (product trip).
Proof.
  destruct (isJourney trip) eqn:Hj.
  - rewrite tally_journey by done. simpl.
    by destruct (coordOf coords (from trip)), (coordOf coords (to trip)).
  - by rewrite tally_not_journey.
Qed.

Lemma tally_resolved (coords : Coords) (acc : Tally.t) (trip : Trip) :
  resolvedJourney coords trip = true ->
  exists fromCoord toCoord,
    coordOf coords (from trip) = Some fromCoord /\ coordOf coords (to trip) = Some toCoord
    /\ Tally.routeMap (tally coords acc trip)
       = mapSet (Tally.routeMap acc) (routeKey (from trip) (to trip))
                (routeAfter coords acc trip fromCoord toCoord)
    /\ Tally.stopMap (tally coords acc trip)
       = increment (increment (Tally.stopMap acc) (from trip)) (to trip)
    /\ Tally.missing (tally coords acc trip) = Tally.missing acc.
Proof.
  intros Hr. apply resolvedJourney_spec in Hr as (Hj & [fc Hf] & [tc Ht]).
  exists fc, tc. rewrite tally_journey by done. simpl. by rewrite Hf, Ht.
Qed.

Lemma tally_not_resolved (coords : Coords) (acc : Tally.t) (trip : Trip) :
  resolvedJourney coords trip = false ->
  Tally.routeMap (tally coords acc trip) = Tally.routeMap acc
  /\ Tally.stopMap (tally coords acc trip) = Tally.stopMap acc.
Proof.
  intros Hr. destruct (isJourney trip) eqn:Hj; [|by rewrite tally_not_journey].
  apply tally_unresolved.
  destruct (coordOf coords (from trip)) eqn:Hf; [|by left].
  destruct (coordOf coords (to trip)) eqn:Ht; [|by right].
  assert (resolvedJourney coords trip = true); [|congruence].
  apply resolvedJourney_spec. rewrite Hf, Ht. eauto.
Qed.

Lemma tally_missing (coords : Coords) (acc : Tally.t) (trip : Trip) (x : string) :
  x ∈ Tally.missing (tally coords acc trip) <->
    x ∈ Tally.missing acc
    \/ (isJourney trip = true /\ coordOf coords x = None /\ (x = from trip \/ x = to trip)).
Proof.
  destruct (isJourney trip) eqn:Hj.
  2:{ rewrite tally_not_journey by done. simpl. split; [by left | by intros [?|[? _]]]. }
  rewrite tally_journey by done. simpl.
  destruct (coordOf coords (from trip)) eqn:Hf, (coordOf coords (to trip)) eqn:Ht; simpl;
    rewrite ?elem_of_setAdd; split; intros Hx;
    repeat (match goal with
            | Hx : _ \/ _ |- _ => destruct Hx as [Hx|Hx]
            | Hx : _ /\ _ |- _ => destruct Hx as [? Hx]
            end); subst; try congruence; auto 7.
Qed.

Lemma tally_missing_NoDup (coords : Coords) (acc : Tally.t) (trip : Trip) :
  NoDup (Tally.missing acc) -> NoDup (Tally.missing (tally coords acc trip)).
Proof.
  intros Hnd. destruct (isJourney trip) eqn:Hj; [|by rewrite tally_not_journey].
  rewrite tally_journey by done. simpl.
  destruct (coordOf coords (from trip)), (coordOf coords (to trip)); simpl; auto using setAdd_NoDup.
Qed.

Lemma routeAfter_sound (coords : Coords) (acc : Tally.t) (trip : Trip)
    (fc tc : Value Resolver.StopCoordinateEntry) :
  (forall e, e ∈ Tally.routeMap acc -> routeSound coords e) ->
  isJourney trip = true ->
  coordOf coords (from trip) = Some fc -> coordOf coords (to trip) = Some tc ->
  routeSound coords (routeKey (from trip) (to trip), routeAfter coords acc trip fc tc).
Proof.
  intros Hall Hj Hf Ht. unfold routeAfter.
  destruct (mapGet (Tally.routeMap acc) _) as [r|] eqn:Hg; simpl.
  - apply mapGet_Some_elem, Hall in Hg.
    destruct Hg as (Hk & Hpos & Hd & Hp & Hnd & Hpp & Hfr & Hto & Hcf & Hct).
    simpl in *. unfold routeSound. simpl.
    rewrite sum_increment, length_app. simpl.
    repeat split; auto using increment_keys_NoDup, increment_positive; lia.
  - apply isJourney_spec in Hj as (_ & Hfr & Hto). unfold routeSound. simpl.
    repeat split;
      first [ done | lia | apply NoDup_singleton
            | apply increment_positive; intros e He; by apply not_elem_of_nil in He ].
Qed.

Lemma tally_sound (coords : Coords) (acc : Tally.t) (trip : Trip) :
  tallySound coords acc -> tallySound coords (tally coords acc trip).
Proof.
  intros ((Hrk & Hrs) & (Hsk & Hsp & Hsc) & (Hpk & Hpp) & (Hmk & Hmc)).
  assert (NoDup (Tally.productMap (tally coords acc trip)).*1
          /\ positive (Tally.productMap (tally coords acc trip))) as Hprod.
  { rewrite tally_productMap. auto using increment_keys_NoDup, increment_positive. }
  assert (NoDup (Tally.missing (tally coords acc trip))
          /\ forall x, x ∈ Tally.missing (tally coords acc trip) -> coordOf coords x = None)
    as Hmiss.
  { split; [by apply tally_missing_NoDup|]. intros x Hx.
    apply tally_missing in Hx as [Hx|(_ & Hx & _)]; [by apply Hmc | done]. }
  unfold tallySound. destruct (resolvedJourney coords trip) eqn:Hr.
  - destruct (tally_resolved coords acc trip Hr) as (fc & tc & Hf & Ht & Hrm & Hsm & _).
    apply resolvedJourney_spec in Hr as (Hj & _ & _).
    split; [|split; [|done]].
    + rewrite Hrm. split; [by apply mapSet_keys_NoDup|].
      intros e He. apply elem_of_mapSet in He as [->|He]; [|by apply Hrs].
      by apply routeAfter_sound.
    + rewrite Hsm. split; [by do 2 apply increment_keys_NoDup|].
      split; [by do 2 apply increment_positive|].
      intros e He. unfold increment in He.
      apply elem_of_mapSet in He as [->|He]; [cbn [fst]; by rewrite Ht|].
      apply elem_of_mapSet in He as [->|He]; [cbn [fst]; by rewrite Hf|]. by apply Hsc.
  - destruct (tally_not_resolved coords acc trip Hr) as [-> ->]. done.
Qed.

Lemma tallyAll_sound (coords : Coords) (l : list Trip) :
  tallySound coords (tallyAll coords l).
Proof.
  unfold tallyAll.
  assert (tallySound coords Tally.empty) as Hempty.
  { unfold tallySound, positive. simpl.
    split; [split; [constructor | by intros e ?%not_elem_of_nil]|].
    split; [split; [constructor | split; by intros e ?%not_elem_of_nil]|].
    split; [split; [constructor | by intros e ?%not_elem_of_nil]|].
    split; [constructor | by intros e ?%not_elem_of_nil]. }
  revert Hempty. generalize Tally.empty.
  induction l as [|t l IH]; intros acc Hacc; [done|].
  simpl. by apply IH, tally_sound.
Qed.

End TallyMore.

Section TallyCounts.
Import JsObject JsString JsCollections JsDate JsHost App AppSpec MoreSpec.

Lemma sum_mapSet_with {K V} `{EqDecision K} (f : V -> nat) (m : list (K * V)) (k : K) (v : V) :
  (sum_list_with (fun e => f e.2) (mapSet m k v) + default 0 (f <$> mapGet m k)
   = sum_list_with (fun e => f e.2) m + f v)%nat.
Proof.
  induction m as [|[k' v'] m IH]; simpl; [lia|].
  destruct (decide (k' = k)) as [->|Hne]; simpl; lia.
Qed.

Lemma tally_sums (coords : Coords) (acc : Tally.t) (trip : Trip) :
  let acc' := tally coords acc trip in
  let r := if resolvedJourney coords trip then 1%nat else 0%nat in
  sum_list_with snd (Tally.productMap acc') = S (sum_list_with snd (Tally.productMap acc))
  /\ sum_list_with (fun e => Route.count e.2) (Tally.routeMap acc')
     = (sum_list_with (fun e => Route.count e.2) (Tally.routeMap acc) + r)%nat
  /\ sum_list_with snd (Tally.stopMap acc')
     = (sum_list_with snd (Tally.stopMap acc) + 2 * r)%nat.
Proof.
  intros acc' r. subst acc' r. split; [by rewrite tally_productMap, sum_increment|].
  destruct (resolvedJourney coords trip) eqn:Hr.
  - destruct (tally_resolved coords acc trip Hr) as (fc & tc & _ & _ & -> & -> & _).
    rewrite !sum_increment. split; [|lia].
    pose proof (sum_mapSet_with Route.count (Tally.routeMap acc)
                  (routeKey (from trip) (to trip)) (routeAfter coords acc trip fc tc)) as Hs.
    unfold routeAfter in *.
    destruct (mapGet (Tally.routeMap acc) _) as [r|]; simpl in *; lia.
  - destruct (tally_not_resolved coords acc trip Hr) as [-> ->]. lia.
Qed.

Lemma foldTally_sums (coords : Coords) (l : list Trip) (acc : Tally.t) :
  let acc' := fold_left (tally coords) l acc in
  let r := length (List.filter (resolvedJourney coords) l) in
  sum_list_with snd (Tally.productMap acc')
    = (sum_list_with snd (Tally.productMap acc) + length l)%nat
  /\ sum_list_with (fun e => Route.count e.2) (Tally.routeMap acc')
     = (sum_list_with (fun e => Route.count e.2) (Tally.routeMap acc) + r)%nat
  /\ sum_list_with snd (Tally.stopMap acc')
     = (sum_list_with snd (Tally.stopMap acc) + 2 * r)%nat.
Proof.
  revert acc. induction l as [|t l IH]; intros acc; simpl; [lia|].
  destruct (IH (tally coords acc t)) as (Hp & Hr & Hs).
  destruct (tally_sums coords acc t) as (Hp' & Hr' & Hs').
  rewrite Hp, Hr, Hs, Hp', Hr', Hs'.
  destruct (resolvedJourney coords t); simpl; lia.
Qed.

Lemma tally_stopCount (coords : Coords) (acc : Tally.t) (trip : Trip) (name : string) :
  countOf (Tally.stopMap (tally coords acc trip)) name
  = (countOf (Tally.stopMap acc) name
     + (if leavesFrom coords name trip then 1 else 0)
     + (if arrivesAt coords name trip then 1 else 0))%nat.
Proof.
  unfold leavesFrom, arrivesAt. destruct (resolvedJourney coords trip) eqn:Hr; simpl.
  - destruct (tally_resolved coords acc trip Hr) as (fc & tc & _ & _ & _ & -> & _).
    rewrite !countOf_increment.
    destruct (decide (from trip = name)) as [Hf|Hf], (decide (to trip = name)) as [Ht|Ht];
      [apply String.eqb_eq in Hf | apply String.eqb_eq in Hf
      | apply String.eqb_neq in Hf | apply String.eqb_neq in Hf];
      [apply String.eqb_eq in Ht | apply String.eqb_neq in Ht
      | apply String.eqb_eq in Ht | apply String.eqb_neq in Ht];
      rewrite Hf, Ht; lia.
  - destruct (tally_not_resolved coords acc trip Hr) as [_ ->]. lia.
Qed.

Lemma foldTally_stopCount (coords : Coords) (l : list Trip) (acc : Tally.t) (name : string) :
  countOf (Tally.stopMap (fold_left (tally coords) l acc)) name
  = (countOf (Tally.stopMap acc) name
     + length (List.filter (leavesFrom coords name) l)
     + length (List.filter (arrivesAt coords name) l))%nat.
Proof.
  revert acc. induction l as [|t l IH]; intros acc; simpl; [lia|].
  rewrite IH, tally_stopCount.
  destruct (leavesFrom coords name t), (arrivesAt coords name t); simpl; lia.
Qed.

Lemma foldTally_productCount (coords : Coords) (l : list Trip) (acc : Tally.t)
    (p : option string) :
  countOf (Tally.productMap (fold_left (tally coords) l acc)) p
  = (countOf (Tally.productMap acc) p + length (List.filter (hasProductName p) l))%nat.
Proof.
  revert acc. induction l as [|t l IH]; intros acc; simpl; [lia|].
  rewrite IH, tally_productMap, countOf_increment. unfold hasProductName.
  destruct (decide (product t = p)) as [Hp|Hp].
  - rewrite bool_decide_eq_true_2 by done. simpl. lia.
  - rewrite bool_decide_eq_false_2 by done. lia.
Qed.

End TallyCounts.

Section AnalyticsMore.
Import JsObject JsString JsCollections JsDate JsHost App AppSpec MoreSpec.
Context `{Host}.

Lemma sum_list_with_map {A B} (f : B -> nat) (g : A -> B) (l : list A) :
  sum_list_with f (map g l) = sum_list_with (fun x => f (g x)) l.
Proof. induction l as [|x l IH]; simpl; [done | by rewrite IH]. Qed.

Lemma elem_of_routes (coords : Coords) (l : list Trip) (r : Route.t) :
  r ∈ Analytics.routes (analytics coords l)
  <-> exists key, (key, r) ∈ Tally.routeMap (tallyAll coords l).
Proof.
  unfold analytics. simpl. rewrite elem_of_sort. change (map snd ?m) with (m.*2).
  rewrite list_elem_of_fmap. split.
  - intros ([key r'] & -> & He). by exists key.
  - intros (key & He). by exists (key, r).
Qed.

(** X16. Every route aggregate is consistent with itself and with the
    trips: its count is at least 1, is the number of its dates, is the
    sum of its product tallies, and is the number of trips counted under
    its key (the journeys with that key for both of whose stop names the
    read of the coordinate object finds a value); its stop names are not
    empty and its coordinates are what the read of the coordinate object
    yields for them: the entry of the name, or the value the object
    inherits under the name. *)
Theorem route_aggregate_is_consistent (coords : Coords) (l : list Trip) (r : Route.t) :
  r ∈ Analytics.routes (analytics coords l) ->
  (1 <= Route.count r)%nat
  /\ Route.count r = length (Route.dates r)
  /\ Route.count r = sum_list_with snd (Route.products r)
  /\ Route.count r
     = length (List.filter (countedUnder coords (routeKey (Route.from r) (Route.to r))) l)
  /\ Route.from r <> "" /\ Route.to r <> ""
  /\ coordOf coords (Route.from r) = Some (Route.fromCoord r)
  /\ coordOf coords (Route.to r) = Some (Route.toCoord r).
Proof.
  intros Hin. apply elem_of_routes in Hin as (key & Hin).
  destruct (tallyAll_sound coords l) as ((Hnd & Hs) & _).
  destruct (Hs _ Hin) as (Hk & Hpos & Hd & Hp & _ & _ & Hfr & Hto & Hcf & Hct).
  simpl in *. repeat split; try done.
  rewrite <- route_counts_by_key. unfold routeCount. rewrite <- Hk.
  apply elem_of_mapGet in Hin; [|done]. by rewrite Hin.
Qed.

Lemma routeMap_keys (coords : Coords) (l : list Trip) :
  map (fun r => routeKey (Route.from r) (Route.to r)) (map snd (Tally.routeMap (tallyAll coords l)))
  = (Tally.routeMap (tallyAll coords l)).*1.
Proof.
  destruct (tallyAll_sound coords l) as ((_ & Hs) & _).
  induction (Tally.routeMap (tallyAll coords l)) as [|e m IH]; [done|].
  simpl. rewrite IH.
  - destruct (Hs e) as (-> & _); [left | done].
  - intros e' He'. apply Hs. by right.
Qed.

(** X17. The route aggregates are in the order of descending count, no
    two of them have the same key, and their counts add up to the number
    of journeys for both of whose stop names the read of the coordinate
    object finds a value, an entry or an inherited property. *)
Theorem route_aggregates_as_a_list (coords : Coords) (l : list Trip) :
  let routes := Analytics.routes (analytics coords l) in
  StronglySorted (fun a b => (Route.count b <= Route.count a)%nat) routes
  /\ NoDup (map (fun r => routeKey (Route.from r) (Route.to r)) routes)
  /\ sum_list_with Route.count routes
     = length (List.filter (resolvedJourney coords) l).
Proof.
  intros routes. subst routes. unfold analytics. simpl. split; [apply sort_byCountDesc|].
  split.
  - rewrite sort_Permutation, routeMap_keys.
    by destruct (tallyAll_sound coords l) as ((Hnd & _) & _).
  - rewrite sort_Permutation, sum_list_with_map.
    destruct (foldTally_sums coords l Tally.empty) as (_ & Hs & _). simpl in Hs.
    unfold tallyAll. by rewrite <- Hs.
Qed.

(** X18. The stop aggregates are in the order of descending count and no
    name has two of them. A stop aggregate stands for a name if and only
    if its count is the number of counted journeys that leave from the
    name plus the number that arrive at it, that count is at least 1, and
    its coordinate is what the read of the coordinate object yields for
    the name (the entry of the name, or the value the object inherits
    under it), which is never [undefined]. The counts add up to twice the
    number of counted journeys, the journeys for both of whose stop names
    that read finds a value. *)
Theorem stop_aggregates_as_a_list (coords : Coords) (l : list Trip) :
  let stops := Analytics.stops (analytics coords l) in
  StronglySorted (fun a b => (StopAggregate.count b <= StopAggregate.count a)%nat) stops
  /\ NoDup (map StopAggregate.name stops)
  /\ (forall s, s ∈ stops <->
        StopAggregate.count s
          = (length (List.filter (leavesFrom coords (StopAggregate.name s)) l)
             + length (List.filter (arrivesAt coords (StopAggregate.name s)) l))%nat
        /\ (1 <= StopAggregate.count s)%nat
        /\ StopAggregate.coord s = coordOf coords (StopAggregate.name s))
  /\ (forall s, s ∈ stops -> is_Some (StopAggregate.coord s))
  /\ sum_list_with StopAggregate.count stops
     = (2 * length (List.filter (resolvedJourney coords) l))%nat.
Proof.
  intros stops. subst stops. unfold analytics. simpl.
  destruct (tallyAll_sound coords l) as (_ & (Hnd & Hpos & Hco) & _).
  split; [apply sort_byCountDesc|]. split; [|split; [|split]].
  - rewrite sort_Permutation, map_map. simpl. by change (map fst ?m) with (m.*1).
  - intros [n c co]. rewrite elem_of_sort. simpl.
    change (map ?f ?m) with (f <$> m). rewrite list_elem_of_fmap. split.
    + intros ([n' c'] & [= -> -> ->] & He). simpl.
      apply (elem_of_counts _ _ _ Hnd Hpos) in He as [Hc Hp].
      unfold tallyAll in Hc. rewrite foldTally_stopCount in Hc. simpl in Hc.
      split; [|done]. unfold countOf in Hc. simpl in Hc. lia.
    + intros (Hc & Hp & ->). exists (n, c). split; [done|].
      apply (elem_of_counts _ _ _ Hnd Hpos). split; [|done].
      unfold tallyAll. rewrite foldTally_stopCount. unfold countOf. simpl. lia.
  - intros s. rewrite elem_of_sort. change (map ?f ?m) with (f <$> m).
    rewrite list_elem_of_fmap. intros (e & -> & He). simpl. by apply Hco.
  - rewrite sort_Permutation, sum_list_with_map. simpl.
    destruct (foldTally_sums coords l Tally.empty) as (_ & _ & Hs). simpl in Hs.
    unfold tallyAll. by rewrite <- Hs.
Qed.

(** X19. The product aggregates are in the order of descending count and
    no product has two of them. A product aggregate stands for a product
    if and only if its count is the number of filtered trips with that
    product (journeys or not) and that count is at least 1. The counts
    add up to the number of filtered trips. *)
Theorem product_aggregates_as_a_list (coords : Coords) (l : list Trip) :
  let products := Analytics.products (analytics coords l) in
  StronglySorted (fun a b => (ProductAggregate.count b <= ProductAggregate.count a)%nat)
                 products
  /\ NoDup (map ProductAggregate.name products)
  /\ (forall p, p ∈ products <->
        ProductAggregate.count p
          = length (List.filter (hasProductName (ProductAggregate.name p)) l)
        /\ (1 <= ProductAggregate.count p)%nat)
  /\ sum_list_with ProductAggregate.count products = length l.
Proof.
  intros products. subst products. unfold analytics. simpl.
  destruct (tallyAll_sound coords l) as (_ & _ & (Hnd & Hpos) & _).
  split; [apply sort_byCountDesc|]. split; [|split].
  - rewrite sort_Permutation, map_map. simpl. by change (map fst ?m) with (m.*1).
  - intros [p c]. rewrite elem_of_sort. simpl.
    change (map ?f ?m) with (f <$> m). rewrite list_elem_of_fmap. split.
    + intros ([p' c'] & [= -> ->] & He). simpl.
      apply (elem_of_counts _ _ _ Hnd Hpos) in He as [Hc Hp].
      unfold tallyAll in Hc. rewrite foldTally_productCount in Hc. by split.
    + intros (Hc & Hp). exists (p, c). split; [done|].
      apply (elem_of_counts _ _ _ Hnd Hpos). split; [|done].
      unfold tallyAll. by rewrite foldTally_productCount.
  - rewrite sort_Permutation, sum_list_with_map. simpl.
    destruct (foldTally_sums coords l Tally.empty) as (Hs & _). simpl in Hs.
    unfold tallyAll. by rewrite <- Hs.
Qed.

Lemma foldTally_missing (coords : Coords) (l : list Trip) (acc : Tally.t) (x : string) :
  x ∈ Tally.missing (fold_left (tally coords) l acc) <->
    x ∈ Tally.missing acc
    \/ exists trip, trip ∈ l /\ isJourney trip = true /\ coordOf coords x = None
                    /\ (x = from trip \/ x = to trip).
Proof.
  revert acc. induction l as [|t l IH]; intros acc; simpl.
  - split; [by left | intros [?|(t & Ht & _)]; [done|]]. by apply not_elem_of_nil in Ht.
  - rewrite IH, tally_missing. split.
    + intros [[?|Ht]|(t' & Ht' & Hrest)]; [by left | right; exists t; split; [left|done] |].
      right. exists t'. split; [by right | done].
    + intros [?|(t' & Ht' & Hrest)]; [by left; left|].
      apply elem_of_cons in Ht' as [->|Ht']; [by left; right|]. right. eauto.
Qed.

(** X20. The missing list holds a name if and only if the coordinate
    object has no entry of that name, the name is not that of a property
    every object inherits, and the name is the origin or the destination
    of a filtered journey with both names not empty; no name is in it
    twice, and no name of it has a stop aggregate. *)
Theorem missing_names (coords : Coords) (l : list Trip) :
  let a := analytics coords l in
  (forall x, x ∈ Analytics.missing a <->
     coords !! x = None /\ (x ∉ prototypeKeys)
     /\ exists trip, trip ∈ l /\ transactie trip = Some "Reis"
          /\ from trip <> "" /\ to trip <> "" /\ (x = from trip \/ x = to trip))
  /\ NoDup (Analytics.missing a)
  /\ (forall x s, x ∈ Analytics.missing a -> s ∈ Analytics.stops a ->
        StopAggregate.name s <> x).
Proof.
  intros a. subst a.
  assert (forall x, x ∈ Analytics.missing (analytics coords l) <->
            coordOf coords x = None
            /\ exists trip, trip ∈ l /\ transactie trip = Some "Reis"
                 /\ from trip <> "" /\ to trip <> "" /\ (x = from trip \/ x = to trip))
    as Hchar.
  { intros x. unfold analytics. simpl. rewrite elem_of_sort. unfold tallyAll.
    rewrite foldTally_missing. simpl. split.
    - intros [Hx|(t & Ht & Hj & Hc & Hx)]; [by apply not_elem_of_nil in Hx|].
      apply isJourney_spec in Hj as (? & ? & ?). split; [done|]. exists t. done.
    - intros (Hc & t & Ht & Hr & Hf & Hto & Hx). right. exists t.
      split; [done|]. split; [by apply isJourney_spec | done]. }
  split; [|split].
  - intros x. rewrite Hchar. unfold coordOf. rewrite get_None, inherits_false. tauto.
  - unfold analytics. simpl. apply sort_NoDup.
    by destruct (tallyAll_sound coords l) as (_ & _ & _ & (Hnd & _)).
  - intros x s Hx Hs Heq. apply Hchar in Hx as [Hc _].
    destruct (tallyAll_resolvedEnds coords l) as [_ Hstop].
    unfold analytics in Hs. simpl in Hs.
    apply elem_of_sort, list_elem_of_fmap in Hs as (e & -> & He).
    destruct (Hstop e He) as [c Hc']. simpl in Heq. congruence.
Qed.

End AnalyticsMore.

(** ** What the app derives *)

Section SelectionMore.
Import JsObject App AppView.

(** X21. Toggling a product twice gives the selection back; after one
    toggle the product is selected if and only if it was not, and the
    other products are as they were. *)
Theorem toggleProduct_flips_one (selected : gset string) (product : string) :
  toggleProduct (toggleProduct selected product) product = selected
  /\ (product ∈ toggleProduct selected product <-> product ∉ selected)
  /\ (forall other, other <> product ->
        other ∈ toggleProduct selected product <-> other ∈ selected).
Proof.
  unfold toggleProduct. destruct (decide (product ∈ selected)) as [Hin|Hnin].
  - rewrite (bool_decide_eq_true_2 _ Hin).
    assert (product ∉ selected ∖ {[product]}) as Hout.
    { rewrite elem_of_difference, elem_of_singleton. by intros [_ ?]. }
    rewrite (bool_decide_eq_false_2 _ Hout). split; [|split].
    + apply set_eq. intros x.
      rewrite elem_of_union, elem_of_difference, elem_of_singleton. split.
      * by intros [[? _]| ->].
      * intros Hx. destruct (decide (x = product)); [by right | by left].
    + split; [done | by intros ?].
    + intros other Hne. rewrite elem_of_difference, elem_of_singleton.
      split; [by intros [? _] | by intros ?].
  - rewrite (bool_decide_eq_false_2 _ Hnin).
    assert (product ∈ selected ∪ {[product]}) as Hnow.
    { rewrite elem_of_union, elem_of_singleton. by right. }
    rewrite (bool_decide_eq_true_2 _ Hnow). split; [|split].
    + apply set_eq. intros x.
      rewrite elem_of_difference, elem_of_union, elem_of_singleton. split.
      * by intros [[?| ->] ?].
      * intros Hx. split; [by left | by intros ->].
    + split; [done | by intros ?].
    + intros other Hne. rewrite elem_of_union, elem_of_singleton.
      split; [by intros [?|?] | by left].
Qed.

End SelectionMore.

Section ViewMore.
Import JsObject JsString JsCollections JsDate JsHost App AppSpec AppView MoreSpec.
Context `{Host}.

Lemma addProduct_spec (set : list string) (trip : Trip) (p : string) :
  p ∈ addProduct set trip <-> p ∈ set \/ (p <> "" /\ product trip = Some p).
Proof.
  unfold addProduct. destruct (product trip) as [q|]; simpl.
  - destruct (JsString.truthy q) eqn:Hq.
    + apply truthy_spec in Hq. rewrite elem_of_setAdd. split.
      * intros [->|?]; [by right | by left].
      * intros [?|[_ [= ->]]]; [by right | by left].
    + apply truthy_false in Hq. subst. split; [by left|]. by intros [?|[? [= <-]]].
  - split; [by left | by intros [?|[_ ?]]].
Qed.

Lemma foldAddProduct_spec (trips : list Trip) (set : list string) (p : string) :
  p ∈ fold_left addProduct trips set <->
    p ∈ set \/ (p <> "" /\ exists trip, trip ∈ trips /\ product trip = Some p).
Proof.
  revert set. induction trips as [|t trips IH]; intros set; simpl.
  - split; [by left | intros [?|(_ & t & Ht & _)]; [done|]]. by apply not_elem_of_nil in Ht.
  - rewrite IH, addProduct_spec. split.
    + intros [[?|[? ?]]|(? & t' & Ht' & ?)]; [by left | right | right].
      * split; [done|]. exists t. split; [left | done].
      * split; [done|]. exists t'. split; [by right | done].
    + intros [?|(Hne & t' & Ht' & Hp)]; [by left; left|].
      apply elem_of_cons in Ht' as [->|Ht']; [by left; right|]. right. eauto.
Qed.

Lemma foldAddProduct_NoDup (trips : list Trip) (set : list string) :
  NoDup set -> NoDup (fold_left addProduct trips set).
Proof.
  revert set. induction trips as [|t trips IH]; intros set Hs; [done|].
  simpl. apply IH. unfold addProduct.
  destruct (truthyOpt (product t)); auto using setAdd_NoDup.
Qed.

(** X22. [allProducts] holds a product if and only if it is not empty and
    is the product of a trip; no product is in it twice. *)
Theorem allProducts_names (trips : list Trip) :
  NoDup (allProducts trips)
  /\ forall p, p ∈ allProducts trips <->
       p <> "" /\ exists trip, trip ∈ trips /\ product trip = Some p.
Proof.
  unfold allProducts. split.
  - apply sort_NoDup, foldAddProduct_NoDup. constructor.
  - intros p. rewrite elem_of_sort, foldAddProduct_spec. split.
    + by intros [?%not_elem_of_nil|?].
    + by right.
Qed.

End ViewMore.

Section RangeMore.
Import JsObject JsString JsCollections JsDate JsHost App AppSpec AppView MoreSpec.
Local Open Scope Z_scope.

Lemma foldMin_None (rest : list (option Z)) : fold_left minNumber rest None = None.
Proof. induction rest as [|x rest IH]; [done|]. simpl. done. Qed.

Lemma foldMax_None (rest : list (option Z)) : fold_left maxNumber rest None = None.
Proof. induction rest as [|x rest IH]; [done|]. simpl. done. Qed.

(** The least of the numbers, [NaN] when one of them is [NaN]. *)
Lemma foldMin_spec (rest : list (option Z)) (first : option Z) :
  match fold_left minNumber rest first with
  | Some m =>
      Some m ∈ first :: rest /\ forall x, Some x ∈ first :: rest -> m <= x
  | None => None ∈ first :: rest
  end.
Proof.
  revert first. induction rest as [|y rest IH]; intros first; simpl.
  - destruct first as [m|]; [|left]. split; [left|].
    intros x Hx. apply list_elem_of_singleton in Hx. injection Hx as ->. lia.
  - destruct first as [a|], y as [b|]; simpl;
      [|rewrite foldMin_None; right; left
       |rewrite foldMin_None; left|rewrite foldMin_None; left].
    specialize (IH (Some (Z.min a b))).
    destruct (fold_left minNumber rest (Some (Z.min a b))) as [m|].
    + destruct IH as [Hin Hle]. assert (m <= Z.min a b) by (apply Hle; left). split.
      * apply elem_of_cons in Hin as [[= ->]|Hin]; [|by do 2 right].
        destruct (Z.min_spec a b) as [[_ ->]|[_ ->]]; [left | right; left].
      * intros x Hx. apply elem_of_cons in Hx as [[= ->]|Hx]; [lia|].
        apply elem_of_cons in Hx as [[= ->]|Hx]; [lia|]. apply Hle. by right.
    + apply elem_of_cons in IH as [IH|IH]; [done | by do 2 right].
Qed.

(** The greatest of the numbers, [NaN] when one of them is [NaN]. *)
Lemma foldMax_spec (rest : list (option Z)) (first : option Z) :
  match fold_left maxNumber rest first with
  | Some m =>
      Some m ∈ first :: rest /\ forall x, Some x ∈ first :: rest -> x <= m
  | None => None ∈ first :: rest
  end.
Proof.
  revert first. induction rest as [|y rest IH]; intros first; simpl.
  - destruct first as [m|]; [|left]. split; [left|].
    intros x Hx. apply list_elem_of_singleton in Hx. injection Hx as ->. lia.
  - destruct first as [a|], y as [b|]; simpl;
      [|rewrite foldMax_None; right; left
       |rewrite foldMax_None; left|rewrite foldMax_None; left].
    specialize (IH (Some (Z.max a b))).
    destruct (fold_left maxNumber rest (Some (Z.max a b))) as [m|].
    + destruct IH as [Hin Hle]. assert (Z.max a b <= m) by (apply Hle; left). split.
      * apply elem_of_cons in Hin as [[= ->]|Hin]; [|by do 2 right].
        destruct (Z.max_spec a b) as [[_ ->]|[_ ->]]; [right; left | left].
      * intros x Hx. apply elem_of_cons in Hx as [[= ->]|Hx]; [lia|].
        apply elem_of_cons in Hx as [[= ->]|Hx]; [lia|]. apply Hle. by right.
    + apply elem_of_cons in IH as [IH|IH]; [done | by do 2 right].
Qed.

Lemma foldMin_invalid (rest : list (option Z)) (first : option Z) :
  None ∈ first :: rest -> fold_left minNumber rest first = None.
Proof.
  revert first. induction rest as [|y rest IH]; intros first Hin; simpl.
  - by apply list_elem_of_singleton in Hin.
  - destruct first as [a|]; [|apply foldMin_None].
    destruct y as [b|]; [|apply foldMin_None]. simpl. apply IH.
    apply elem_of_cons in Hin as [?|Hin]; [done|].
    apply elem_of_cons in Hin as [?|Hin]; [done|]. by right.
Qed.

Lemma foldMax_invalid (rest : list (option Z)) (first : option Z) :
  None ∈ first :: rest -> fold_left maxNumber rest first = None.
Proof.
  revert first. induction rest as [|y rest IH]; intros first Hin; simpl.
  - by apply list_elem_of_singleton in Hin.
  - destruct first as [a|]; [|apply foldMax_None].
    destruct y as [b|]; [|apply foldMax_None]. simpl. apply IH.
    apply elem_of_cons in Hin as [?|Hin]; [done|].
    apply elem_of_cons in Hin as [?|Hin]; [done|]. by right.
Qed.

Lemma TimeClip_Some (time : option Z) (t : Z) :
  TimeClip time = Some t -> time = Some t.
Proof.
  destruct time as [x|]; simpl; [|done]. by destruct (Z.abs x <=? maxTime); [intros [= ->]|].
Qed.

Lemma TimeClip_valid (t : Z) : Z.abs t <= maxTime -> TimeClip (Some t) = Some t.
Proof. intros Ht. simpl. by rewrite (proj2 (Z.leb_le _ _) Ht). Qed.

(** The bounds of the data range, for a list of trips that is not empty. *)
Lemma dataRange_spec (trips : list Trip) :
  trips <> [] ->
  exists lo hi,
    dataRange trips = DataRange.mk (Some lo) (Some hi)
    /\ ((exists t, t ∈ trips /\ timeValue (date t) = None) ->
        timeValue lo = None /\ timeValue hi = None)
    /\ (forall t, t ∈ trips -> notBefore (date t) lo /\ notAfter (date t) hi)
    /\ ((forall t, t ∈ trips ->
           exists x, timeValue (date t) = Some x /\ Z.abs x <= maxTime) ->
        (exists t, t ∈ trips /\ date t = lo) /\ (exists t, t ∈ trips /\ date t = hi)).
Proof.
  intros Hne. unfold dataRange.
  assert (forall o, o ∈ map (fun trip => timeValue (date trip)) trips <->
            exists t, t ∈ trips /\ timeValue (date t) = o) as Hmem.
  { intros o. change (map ?f ?l) with (f <$> l). rewrite list_elem_of_fmap.
    split; intros (t & ? & ?); eauto. }
  destruct (map (fun trip => timeValue (date trip)) trips) as [|first rest] eqn:Hl.
  { by destruct trips. }
  eexists _, _. split; [done|]. simpl.
  pose proof (foldMin_spec rest first) as Hmin.
  pose proof (foldMax_spec rest first) as Hmax.
  split; [|split].
  - intros (t & Ht & Hnone).
    assert (None ∈ first :: rest) as Hin by (apply Hmem; eauto).
    by rewrite (foldMin_invalid _ _ Hin), (foldMax_invalid _ _ Hin).
  - intros t Ht. split; intros x y Hx Hy.
    + apply TimeClip_Some in Hy. rewrite Hy in Hmin. destruct Hmin as [_ Hle].
      apply Hle, Hmem. eauto.
    + apply TimeClip_Some in Hy. rewrite Hy in Hmax. destruct Hmax as [_ Hle].
      apply Hle, Hmem. eauto.
  - intros Hvalid.
    assert (forall o, o ∈ first :: rest -> exists x, o = Some x /\ Z.abs x <= maxTime)
      as Hall.
    { intros o Ho. apply Hmem in Ho as (t & Ht & <-). by apply Hvalid. }
    split.
    + destruct (fold_left minNumber rest first) as [m|].
      * destruct Hmin as [Hin _]. destruct (Hall _ Hin) as (x & [= <-] & Hx).
        apply Hmem in Hin as (t & Ht & Htv). exists t. split; [done|].
        rewrite TimeClip_valid by done. destruct (date t). simpl in Htv. by subst.
      * destruct (Hall _ Hmin) as (x & ? & _). done.
    + destruct (fold_left maxNumber rest first) as [m|].
      * destruct Hmax as [Hin _]. destruct (Hall _ Hin) as (x & [= <-] & Hx).
        apply Hmem in Hin as (t & Ht & Htv). exists t. split; [done|].
        rewrite TimeClip_valid by done. destruct (date t). simpl in Htv. by subst.
      * destruct (Hall _ Hmax) as (x & ? & _). done.
Qed.

(** X23. [dataRange] has no bounds for an empty list of trips. For a list
    that is not empty it has both: no trip is before the lower bound or
    after the upper; when every date is valid, each bound is the date of
    a trip; when one date is invalid, both bounds are invalid dates. *)
Theorem dataRange_bounds (trips : list Trip) :
  dataRange [] = DataRange.mk None None
  /\ (trips <> [] ->
      exists lo hi,
        dataRange trips = DataRange.mk (Some lo) (Some hi)
        /\ ((exists t, t ∈ trips /\ timeValue (date t) = None) ->
            timeValue lo = None /\ timeValue hi = None)
        /\ (forall t, t ∈ trips -> notBefore (date t) lo /\ notAfter (date t) hi)
        /\ ((forall t, t ∈ trips ->
               exists x, timeValue (date t) = Some x /\ Z.abs x <= maxTime) ->
            (exists t, t ∈ trips /\ date t = lo)
            /\ (exists t, t ∈ trips /\ date t = hi))).
Proof. split; [done | apply dataRange_spec]. Qed.

End RangeMore.

Section DefaultFilter.
Import JsObject JsString JsCollections JsDate JsHost App AppSpec AppView MoreSpec.
Context `{Host}.

Lemma elem_of_allProducts (trips : list Trip) (p : string) :
  p ∈ allProducts trips <-> p <> "" /\ exists trip, trip ∈ trips /\ product trip = Some p.
Proof.
  unfold allProducts. rewrite elem_of_sort, foldAddProduct_spec. split.
  - by intros [?%not_elem_of_nil|?].
  - by right.
Qed.

Lemma initProducts_selected (products : list string) (f : FilterState) :
  selectedProducts f = ∅ ->
  selectedProducts (initProducts products f) = list_to_set products.
Proof. intros Hf. by destruct products. Qed.

Lemma defaultFilter_fields (trips : list Trip) :
  includeNonTrips (defaultFilter trips) = false
  /\ selectedProducts (defaultFilter trips) = list_to_set (allProducts trips)
  /\ search (defaultFilter trips) = ""
  /\ dateStart (defaultFilter trips) = DataRange.min (dataRange trips)
  /\ dateEnd (defaultFilter trips) = DataRange.max (dataRange trips).
Proof.
  unfold defaultFilter, initDates.
  assert (DataRange.min (dataRange trips) = None /\ DataRange.max (dataRange trips) = None
          \/ exists lo hi, DataRange.min (dataRange trips) = Some lo
                           /\ DataRange.max (dataRange trips) = Some hi) as [[-> ->]|Hr].
  { unfold dataRange. destruct (map _ trips); simpl; [by left | right; eauto]. }
  - destruct (allProducts trips); simpl; by repeat split.
  - destruct Hr as (lo & hi & -> & ->). destruct (allProducts trips); simpl; by repeat split.
Qed.

Lemma hasProduct_allProducts (trips : list Trip) (trip : Trip) :
  trip ∈ trips ->
  hasProduct (list_to_set (allProducts trips)) (product trip) = truthyOpt (product trip).
Proof.
  intros Hin. destruct (product trip) as [p|] eqn:Hp; simpl; [|done].
  destruct (JsString.truthy p) eqn:Ht.
  - apply bool_decide_eq_true, elem_of_list_to_set, elem_of_allProducts.
    apply truthy_spec in Ht. eauto.
  - apply bool_decide_eq_false. rewrite elem_of_list_to_set, elem_of_allProducts.
    apply truthy_false in Ht. by intros [? _].
Qed.

Lemma passes_defaultFilter (trips : list Trip) (trip : Trip) :
  trip ∈ trips ->
  passes (defaultFilter trips) trip
  = isReis (transactie trip) && truthyOpt (product trip).
Proof.
  intros Hin. unfold passes.
  destruct (defaultFilter_fields trips) as (-> & -> & -> & -> & ->).
  assert (trips <> []) as Hne by (by intros ->; apply not_elem_of_nil in Hin).
  destruct (dataRange_spec trips Hne) as (lo & hi & -> & _ & Hbounds & _).
  destruct (Hbounds trip Hin) as [Hlo Hhi].
  apply dateLt_false in Hlo. apply dateGt_false in Hhi.
  cbn [DataRange.min DataRange.max]. rewrite Hlo, Hhi.
  rewrite (hasProduct_allProducts trips trip Hin).
  destruct (isReis (transactie trip)); simpl; [|done].
  destruct (truthyOpt (product trip)) eqn:Ht; simpl.
  - destruct (size _ =? 0)%nat eqn:Hsize; [|done].
    apply Nat.eqb_eq, size_empty_iff in Hsize.
    destruct (product trip) as [p|] eqn:Hp; [|done]. simpl in Ht.
    apply truthy_spec in Ht.
    assert (p ∈ (list_to_set (allProducts trips) : gset string)) as Hel.
    { apply elem_of_list_to_set, elem_of_allProducts. eauto. }
    rewrite Hsize in Hel. by apply not_elem_of_empty in Hel.
  - by destruct (size _ =? 0)%nat.
Qed.

(** X24. With the filter state the component has once its two
    initialising effects have run on the loaded trips (every product
    selected, the date bounds set to the data range, no search text,
    other transactions excluded), [filteredTrips] is the list of the
    trips whose [transactie] is ['Reis'] and whose product is truthy: the
    default bounds and the default selection exclude no other trip. *)
Theorem default_filter_keeps_journeys_with_a_product (trips : list Trip) :
  filteredTrips (defaultFilter trips) trips
  = List.filter (fun trip => isReis (transactie trip) && truthyOpt (product trip)) trips.
Proof.
  unfold filteredTrips. apply List.filter_ext_in. intros trip Hin.
  apply passes_defaultFilter. by apply list_elem_of_In.
Qed.

End DefaultFilter.

Section VisibleMore.
Import JsObject JsString JsCollections JsDate JsHost App AppSpec AppView MoreSpec.

Lemma filter_sorted_prefix {A} (count : A -> nat) (threshold : Z) (l : list A) :
  StronglySorted (fun a b => (count b <= count a)%nat) l ->
  exists rest,
    l = List.filter (fun x => (threshold <=? Z.of_nat (count x))%Z) l ++ rest
    /\ forall x, x ∈ rest -> (Z.of_nat (count x) < threshold)%Z.
Proof.
  induction 1 as [|x l Hl IH Hx]; simpl.
  - exists []. split; [done|]. by intros x ?%not_elem_of_nil.
  - destruct (threshold <=? Z.of_nat (count x))%Z eqn:Hc.
    + destruct IH as (rest & Heq & Hrest). exists rest. split; [|done].
      simpl. by rewrite <- Heq.
    + apply Z.leb_gt in Hc. exists (x :: l). split.
      * replace (List.filter _ l) with (@nil A); [done|]. symmetry.
        clear IH Hl. induction l as [|y l IH]; [done|]. simpl.
        apply Forall_cons in Hx as [Hy Hx].
        destruct (threshold <=? Z.of_nat (count y))%Z eqn:Hy'; [|by apply IH].
        apply Z.leb_le in Hy'. lia.
      * intros y Hy. apply elem_of_cons in Hy as [->|Hy]; [done|].
        rewrite Forall_forall in Hx. apply Hx in Hy. lia.
Qed.

Lemma filter_all {A} (f : A -> bool) (l : list A) :
  (forall x, x ∈ l -> f x = true) -> List.filter f l = l.
Proof.
  induction l as [|x l IH]; intros Hl; [done|]. simpl.
  rewrite Hl by left. rewrite IH; [done|]. intros y Hy. apply Hl. by right.
Qed.

Lemma foldMax_le (counts : list nat) (bound : nat) :
  (forall c, c ∈ counts -> (c <= bound)%nat) -> (fold_right Nat.max 0 counts <= bound)%nat.
Proof.
  induction counts as [|c counts IH]; intros Hb; simpl; [lia|].
  apply Nat.max_lub; [apply Hb; left | apply IH; intros; apply Hb; by right].
Qed.

Lemma maxOrOne_head {A} (count : A -> nat) (x : A) (l : list A) :
  (forall y, y ∈ l -> (count y <= count x)%nat) ->
  maxOrOne (map count (x :: l)) = count x.
Proof.
  intros Hl. simpl. apply Nat.max_l, foldMax_le. intros c Hc.
  change (map ?f ?l) with (f <$> l) in Hc.
  apply list_elem_of_fmap in Hc as (y & -> & Hy). by apply Hl.
Qed.

Lemma sorted_head_bounds {A} (count : A -> nat) (x : A) (l : list A) :
  StronglySorted (fun a b => (count b <= count a)%nat) (x :: l) ->
  forall y, y ∈ x :: l -> (count y <= count x)%nat.
Proof.
  intros Hs y Hy. apply StronglySorted_inv in Hs as [_ Hx].
  apply elem_of_cons in Hy as [->|Hy]; [done|].
  rewrite Forall_forall in Hx. by apply Hx.
Qed.

(** Where a stable sort by descending count puts the head: it is the
    first of the elements whose count is the greatest. *)
Lemma head_sort_byCountDesc {A} (count : A -> nat) (l : list A) :
  l <> [] ->
  exists x before after,
    head (sort (byCountDesc count) l) = Some x
    /\ l = before ++ x :: after
    /\ (forall y, y ∈ before -> (count y < count x)%nat)
    /\ (forall y, y ∈ after -> (count y <= count x)%nat).
Proof.
  induction l as [|a l IH]; [done|]. intros _. simpl.
  destruct l as [|b l].
  - exists a, [], []. simpl. repeat split; by intros y ?%not_elem_of_nil.
  - destruct IH as (x & before & after & Hhead & Heq & Hb & Ha); [done|].
    destruct (sort (byCountDesc count) (b :: l)) as [|y s] eqn:Hs; [done|].
    injection Hhead as ->. simpl.
    destruct (byCountDesc count a x <=? 0)%Z eqn:Hc.
    + apply Z.leb_le, byCountDesc_le in Hc. exists a, [], (b :: l).
      split; [done|]. split; [done|]. split; [by intros y ?%not_elem_of_nil|].
      intros y Hy. rewrite Heq in Hy. apply elem_of_app in Hy as [Hy|Hy].
      * apply Hb in Hy. lia.
      * apply elem_of_cons in Hy as [->|Hy]; [done|]. apply Ha in Hy. lia.
    + apply Z.leb_gt in Hc. unfold byCountDesc in Hc.
      exists x, (a :: before), after. split; [done|]. split; [by rewrite Heq|].
      split; [|done]. intros y Hy. apply elem_of_cons in Hy as [->|Hy]; [lia|].
      by apply Hb.
Qed.

Context `{Host}.

Lemma routes_sorted (coords : Coords) (l : list Trip) :
  StronglySorted (fun a b => (Route.count b <= Route.count a)%nat)
                 (Analytics.routes (analytics coords l)).
Proof. unfold analytics. simpl. apply sort_byCountDesc. Qed.

Lemma route_sound (coords : Coords) (l : list Trip) (r : Route.t) :
  r ∈ Analytics.routes (analytics coords l) ->
  exists key, routeSound coords (key, r).
Proof.
  intros Hin. apply elem_of_routes in Hin as (key & Hin).
  destruct (tallyAll_sound coords l) as ((_ & Hs) & _). exists key. by apply Hs.
Qed.

(** X25. The routes drawn on the map are a leading part of the route
    aggregates: the aggregates after them have a count below the
    threshold. With a minimum of 1 or less every aggregate is drawn. The
    greatest count is the count of the first aggregate, and as soon as
    one route is drawn the greatest count of the drawn routes is the
    greatest count of all. *)
Theorem visible_routes_lead_the_list (coords : Coords) (l : list Trip) (minRouteCount : Z) :
  let a := analytics coords l in
  (exists rest,
      Analytics.routes a = visibleRoutes minRouteCount a ++ rest
      /\ forall r, r ∈ rest -> (Z.of_nat (Route.count r) < routeThreshold minRouteCount)%Z)
  /\ ((minRouteCount <= 1)%Z -> visibleRoutes minRouteCount a = Analytics.routes a)
  /\ maxRouteCount a = default 1%nat (Route.count <$> head (Analytics.routes a))
  /\ (forall r, r ∈ Analytics.routes a -> (Route.count r <= maxRouteCount a)%nat)
  /\ (visibleRoutes minRouteCount a <> [] ->
      visibleMaxRouteCount minRouteCount a = maxRouteCount a).
Proof.
  intros a. subst a. pose proof (routes_sorted coords l) as Hsorted.
  pose proof (route_sound coords l) as Hsound.
  destruct (filter_sorted_prefix Route.count (routeThreshold minRouteCount) _ Hsorted)
    as (rest & Heq & Hrest).
  fold (visibleRoutes minRouteCount (analytics coords l)) in Heq.
  assert (maxRouteCount (analytics coords l)
          = default 1%nat (Route.count <$> head (Analytics.routes (analytics coords l))))
    as Hmax.
  { unfold maxRouteCount.
    destruct (Analytics.routes (analytics coords l)) as [|x routes]; [done|].
    rewrite maxOrOne_head; [done|]. intros y Hy.
    apply (sorted_head_bounds _ _ _ Hsorted). by right. }
  split; [by exists rest|]. split; [|split; [done|split]].
  - intros Hmin. unfold visibleRoutes, routeThreshold. rewrite Z.max_l by done.
    apply filter_all. intros r Hr.
    destruct (Hsound r Hr) as (key & _ & Hpos & _). simpl in Hpos.
    apply Z.leb_le. lia.
  - intros r Hr. rewrite Hmax.
    destruct (Analytics.routes (analytics coords l)) as [|x routes]; [by apply not_elem_of_nil in Hr|].
    simpl. by apply (sorted_head_bounds _ _ _ Hsorted).
  - intros Hne. rewrite Hmax. unfold visibleMaxRouteCount.
    destruct (visibleRoutes minRouteCount (analytics coords l)) as [|x visible]; [done|].
    rewrite Heq in Hsorted |- *. simpl. simpl in Hsorted.
    apply Nat.max_l, foldMax_le. intros c Hc.
    change (map ?f ?l) with (f <$> l) in Hc.
    apply list_elem_of_fmap in Hc as (y & -> & Hy).
    apply (sorted_head_bounds _ _ _ Hsorted). right. apply elem_of_app. by left.
Qed.

(** X26. The product a route is coloured by. Every route aggregate has
    one; it is one of the products tallied on the route, with its tally,
    which is at least 1; no product of the route has a greater tally, and
    of the products with that tally it is the one tallied first. *)
Theorem dominant_is_first_of_greatest_tally (coords : Coords) (l : list Trip) (r : Route.t) :
  r ∈ Analytics.routes (analytics coords l) ->
  exists p n before after,
    dominant r = Some (p, n)
    /\ Route.products r = before ++ (p, n) :: after
    /\ (1 <= n)%nat
    /\ (forall e, e ∈ before -> (e.2 < n)%nat)
    /\ (forall e, e ∈ after -> (e.2 <= n)%nat).
Proof.
  intros Hin. destruct (route_sound coords l r Hin)
    as (key & _ & Hpos & _ & Hsum & _ & Hprod & _). simpl in *.
  assert (Route.products r <> []) as Hne.
  { intros Hnil. rewrite Hnil in Hsum. simpl in Hsum. lia. }
  destruct (head_sort_byCountDesc snd (Route.products r) Hne)
    as ([p n] & before & after & Hhead & Heq & Hb & Ha).
  exists p, n, before, after. split; [done|]. split; [done|]. split; [|done].
  apply (Hprod (p, n)). rewrite Heq. apply elem_of_app. right. left.
Qed.

End VisibleMore.

(** ** The summary figures *)

Section SummaryMore.
Import JsObject JsString JsCollections JsDate JsHost App AppSpec AppView MoreSpec.

Lemma filter_length_impl {A} (f g : A -> bool) (l : list A) :
  (forall x, x ∈ l -> f x = true -> g x = true) ->
  (length (List.filter f l) <= length (List.filter g l))%nat.
Proof.
  induction l as [|x l IH]; intros Himp; [done|]. simpl.
  assert (length (List.filter f l) <= length (List.filter g l))%nat as Hle.
  { apply IH. intros y Hy. apply Himp. by right. }
  destruct (f x) eqn:Hf.
  - rewrite (Himp x) by (done || left). simpl. lia.
  - destruct (g x); simpl; lia.
Qed.

Lemma length_le_sum {A} (count : A -> nat) (l : list A) :
  (forall x, x ∈ l -> (1 <= count x)%nat) -> (length l <= sum_list_with count l)%nat.
Proof.
  induction l as [|x l IH]; intros Hpos; [done|]. simpl.
  assert (1 <= count x)%nat by (apply Hpos; left).
  assert (length l <= sum_list_with count l)%nat by (apply IH; intros; apply Hpos; by right).
  lia.
Qed.

Lemma omap_length_all {A B} (f : A -> option B) (l : list A) :
  (forall x, x ∈ l -> is_Some (f x)) -> length (omap f l) = length l.
Proof.
  induction l as [|x l IH]; intros Hall; [done|]. simpl.
  destruct (Hall x) as [y ->]; [left|]. simpl. f_equal. apply IH.
  intros z Hz. apply Hall. by right.
Qed.

Context `{Host}.

Lemma stops_sorted (coords : Coords) (l : list Trip) :
  StronglySorted (fun a b => (StopAggregate.count b <= StopAggregate.count a)%nat)
                 (Analytics.stops (analytics coords l)).
Proof. unfold analytics. simpl. apply sort_byCountDesc. Qed.

Lemma stops_have_coords (coords : Coords) (l : list Trip) (s : StopAggregate.t) :
  s ∈ Analytics.stops (analytics coords l) -> is_Some (StopAggregate.coord s).
Proof.
  unfold analytics. simpl. rewrite elem_of_sort. change (map ?f ?m) with (f <$> m).
  rewrite list_elem_of_fmap. intros (e & -> & He). simpl.
  destruct (tallyAll_sound coords l) as (_ & (_ & _ & Hco) & _). by apply Hco.
Qed.

(** X27. The figures of the summary, for any filter state. The number of
    journeys is at most the number of filtered trips, and is that number
    when other transactions are excluded. Every stop aggregate
    contributes a point to the bounds of the map. The top stop is missing
    exactly when there is no stop aggregate, and its count is the
    greatest stop count. There are at most as many route aggregates as
    journeys. *)
Theorem summary_figures (coords : Coords) (f : FilterState) (trips : list Trip) :
  let shown := filteredTrips f trips in
  let a := analytics coords shown in
  (tripCount shown <= filteredCount shown <= length trips)%nat
  /\ (includeNonTrips f = false -> tripCount shown = filteredCount shown)
  /\ length (boundsPoints a) = uniqueStops a
  /\ (topStop a = None <-> uniqueStops a = 0%nat)
  /\ (forall s, topStop a = Some s -> StopAggregate.count s = maxStopCount a)
  /\ (uniqueRoutes a <= tripCount shown)%nat.
Proof.
  intros shown a. subst shown a. unfold tripCount, filteredCount.
  split; [|split; [|split; [|split; [|split]]]].
  - split; [apply List.filter_length_le|]. unfold filteredTrips. apply List.filter_length_le.
  - intros Hinc. f_equal. apply filter_all. intros trip Htrip.
    apply elem_of_filteredTrips in Htrip as [_ Hpass].
    apply passes_spec in Hpass as ([Hreis|Hn] & _); [|congruence].
    by apply isReis_spec.
  - unfold boundsPoints, uniqueStops. apply omap_length_all. intros s Hs.
    destruct (stops_have_coords _ _ _ Hs) as [c ->]. by eexists.
  - unfold topStop, uniqueStops.
    by destruct (Analytics.stops (analytics coords (filteredTrips f trips))).
  - intros s. unfold topStop, maxStopCount.
    pose proof (stops_sorted coords (filteredTrips f trips)) as Hsorted.
    destruct (Analytics.stops (analytics coords (filteredTrips f trips))) as [|x stops];
      [done|]. intros [= ->]. symmetry. apply maxOrOne_head. intros y Hy.
    apply (sorted_head_bounds _ _ _ Hsorted). by right.
  - unfold uniqueRoutes.
    transitivity (length (List.filter (resolvedJourney coords) (filteredTrips f trips))).
    + destruct (foldTally_sums coords (filteredTrips f trips) Tally.empty) as (_ & Hs & _).
      simpl in Hs. unfold analytics. simpl. rewrite sort_length, length_map.
      fold (tallyAll coords (filteredTrips f trips)) in Hs. rewrite <- Hs.
      apply length_le_sum. intros e He.
      destruct (tallyAll_sound coords (filteredTrips f trips)) as ((_ & Hsound) & _).
      by destruct (Hsound e He) as (_ & Hpos & _).
    + apply filter_length_impl. intros trip _ Hr.
      apply resolvedJourney_spec in Hr as [Hj _]. unfold isJourney in Hj.
      by destruct (isReis (transactie trip)).
Qed.

End SummaryMore.

(** ** The trips of the rows *)

Section TripsMore.
Import JsObject JsString JsCollections JsDate JsHost App AppSpec AppView MoreSpec.
Context `{Host}.

Lemma parseDate_label (value : option string) (d : Date) :
  parseDate value = Some d -> exists label, value = Some label /\ label <> "".
Proof.
  unfold parseDate. destruct value as [label|]; simpl; [|done].
  destruct (JsString.truthy label) eqn:Ht; [|done]. intros _.
  exists label. split; [done|]. by apply truthy_spec.
Qed.

Lemma tripOfRow_Some (index : nat) (row : Row) (trip : Trip) :
  tripOfRow index row = Some trip ->
  dateLabel trip = row !! "Datum" /\ parseDate (row !! "Datum") = Some (date trip).
Proof.
  unfold tripOfRow. destruct (parseDate (row !! "Datum")) as [d|]; [|done].
  by intros [= <-].
Qed.

Lemma tripOfRow_None (index : nat) (row : Row) :
  tripOfRow index row = None <-> parseDate (row !! "Datum") = None.
Proof. unfold tripOfRow. by destruct (parseDate (row !! "Datum")). Qed.

Lemma labels_of_kept_rows (build : nat -> Row -> option Trip) (rows : list Row) :
  (forall i row, build i row = None <-> parseDate (row !! "Datum") = None) ->
  (forall i row trip, build i row = Some trip -> dateLabel trip = row !! "Datum") ->
  map dateLabel (omap (fun x => x) (imap build rows))
  = List.filter (fun value => bool_decide (is_Some (parseDate value)))
                (map (fun row => row !! "Datum") rows).
Proof.
  revert build. induction rows as [|row rows IH]; intros build Hnone Hsome; [done|].
  simpl. rewrite <- (IH (build ∘ S)) by (intros; first [apply Hnone | by eapply Hsome]).
  destruct (build 0%nat row) as [trip|] eqn:Hb.
  - rewrite bool_decide_true.
    + simpl. by rewrite (Hsome _ _ _ Hb).
    + destruct (parseDate (row !! "Datum")) eqn:Hp; [by eexists|].
      apply (Hnone 0%nat) in Hp. by rewrite Hp in Hb.
  - apply Hnone in Hb. rewrite Hb. by rewrite bool_decide_false by by intros [? ?].
Qed.

Lemma omap_length_le {A B} (f : A -> option B) (l : list A) :
  (length (omap f l) <= length l)%nat.
Proof. induction l as [|x l IH]; csimpl; [done|]. destruct (f x); csimpl; lia. Qed.

(** X28. The trips are the rows whose [Datum] parses, in the order of
    the rows: the labels of the trips are the [Datum] fields that parse.
    A trip is the object built for a row at its index among all rows; its
    label is not empty and its date is the parse of its label. *)
Theorem trips_are_the_rows_with_a_date (rows : list Row) :
  map dateLabel (trips rows)
  = List.filter (fun value => bool_decide (is_Some (parseDate value)))
                (map (fun row => row !! "Datum") rows)
  /\ (forall trip, trip ∈ trips rows <->
        exists index row, rows !! index = Some row /\ tripOfRow index row = Some trip)
  /\ (forall trip, trip ∈ trips rows ->
        parseDate (dateLabel trip) = Some (date trip)
        /\ exists label, dateLabel trip = Some label /\ label <> "")
  /\ (length (trips rows) <= length rows)%nat.
Proof.
  assert (forall trip, trip ∈ trips rows <->
            exists index row, rows !! index = Some row /\ tripOfRow index row = Some trip)
    as Hmem.
  { intros trip. unfold trips. rewrite list_elem_of_omap. split.
    - intros (o & Ho & Heq). apply elem_of_lookup_imap in Ho as (i & row & Hb & Hrow).
      exists i, row. split; [done|]. by rewrite <- Hb.
    - intros (i & row & Hrow & Hb). exists (Some trip). split; [|done].
      apply elem_of_lookup_imap. by exists i, row. }
  split; [|split; [done|split]].
  - unfold trips. apply labels_of_kept_rows.
    + apply tripOfRow_None.
    + intros i row trip Hb. by apply tripOfRow_Some in Hb as [? _].
  - intros trip Htrip. apply Hmem in Htrip as (i & row & _ & Hb).
    apply tripOfRow_Some in Hb as [Hl Hp]. rewrite Hl. split; [done|].
    by apply parseDate_label in Hp.
  - unfold trips. etransitivity; [apply omap_length_le|]. by rewrite length_imap.
Qed.

End TripsMore.

(** ** Runs of the properties above on sample data *)

Section MoreRuns.
Import JsObject JsString JsCollections JsDate JsHost Resolver ResolverSpec App AppSpec AppView.
Import Samples MoreSpec MoreSamples.
Local Existing Instance referenceHost.

Lemma compareCodeUnits_total (a b : string) :
  (0 < compareCodeUnits a b)%Z -> (compareCodeUnits b a <= 0)%Z.
Proof.
  revert b. induction a as [|x a IH]; intros [|y b]; cbn [compareCodeUnits]; try lia.
  destruct (N.ltb_spec (code x) (code y)), (N.ltb_spec (code y) (code x));
    try lia. apply IH.
Defined.

Lemma compareCodeUnits_trans (a b c : string) :
  (compareCodeUnits a b <= 0)%Z -> (compareCodeUnits b c <= 0)%Z ->
  (compareCodeUnits a c <= 0)%Z.
Proof.
  revert b c. induction a as [|x a IH]; intros [|y b] [|z c];
    cbn [compareCodeUnits]; try lia.
  destruct (N.ltb_spec (code x) (code y)), (N.ltb_spec (code y) (code x)),
    (N.ltb_spec (code y) (code z)), (N.ltb_spec (code z) (code y)),
    (N.ltb_spec (code x) (code z)), (N.ltb_spec (code z) (code x));
    try lia; apply IH.
Defined.

Lemma requests_are_for_new_names_witness :
  Fetch "Dam" (searchRequest "Dam, Amsterdam, Netherlands")
    ∈ trace (main offline timeStamp ["Dam"] None)
  /\ "Dam" ∈ ["Dam"]
  /\ classified (existingStore None) "Dam" = false
  /\ guessQuery "Dam" = Some (QueryText "Dam, Amsterdam, Netherlands").
Proof.
  assert (Fetch "Dam" (searchRequest "Dam, Amsterdam, Netherlands")
            ∈ trace (main offline timeStamp ["Dam"] None)) as Hin by left.
  split; [exact Hin|].
  destruct (requests_are_for_new_names offline timeStamp ["Dam"] None "Dam"
              (searchRequest "Dam, Amsterdam, Netherlands") Hin) as (H1 & H2 & H3 & _).
  split; [exact H1|]. split; [exact H2 | exact H3].
Defined.

Lemma successful_lookup_is_recorded_witness :
  "Dam" ∈ ["Dam"; "Onbekend"]
  /\ stops (output (main online timeStamp ["Dam"; "Onbekend"] None)) !! "Dam"
     = Some {| lat := Number "52"; lng := Number "4";
               label := "Dam, Amsterdam, Noord-Holland, Nederland";
               Resolver.query := "Dam, Amsterdam, Netherlands" |}
  /\ ("Dam" ∈ unmatched (output (main online timeStamp ["Dam"; "Onbekend"] None)) -> False).
Proof.
  assert ("Dam" ∈ ["Dam"; "Onbekend"]) as Hin by left.
  split; [exact Hin|].
  exact (successful_lookup_is_recorded online timeStamp ["Dam"; "Onbekend"] None "Dam"
           "Dam, Amsterdam, Netherlands" 200
           (mkPlace "52" "4" "Dam, Amsterdam, Noord-Holland, Nederland") []
           Hin eq_refl eq_refl eq_refl).
Defined.

Lemma second_run_changes_nothing_witness :
  let first := main online timeStamp ["Dam"; "Onbekend"] None in
  let second := main offline timeStamp ["Dam"; "Onbekend"] (Some (output first)) in
  unmatched (output first) = ["Onbekend"]
  /\ fetched (trace second) = []
  /\ stops (output second) = stops (output first)
  /\ unmatched (output second) = unmatched (output first).
Proof.
  intros first second. split; [reflexivity|].
  destruct (second_run_changes_nothing online offline timeStamp timeStamp
              ["Dam"; "Onbekend"] None (output first) (fun n => iff_refl _) eq_refl)
    as (H1 & H2 & H3 & _).
  split; [exact H1|]. split; [exact H2 | exact H3].
Defined.

(** The name of a property every object inherits: [guessQuery] returns
    the inherited value for it, and a run passes over it, since the guard
    of the loop finds the inherited value under that name. *)
Example inherited_name_is_passed_over :
  let w := main online timeStamp ["constructor"; "Dam"] None in
  guessQuery "constructor" = Some (QueryInherited "constructor")
  /\ classified (existingStore None) "constructor" = true
  /\ fetched (trace w) = ["Dam"]
  /\ stops (output w) !! "constructor" = None
  /\ unmatched (output w) = [].
Proof. intros w. repeat split; by vm_compute. Qed.

Lemma parseCsvLine_without_quotes_witness :
  hasChar "034" "01-02-2024,08:15,Spui,,Dam" = false
  /\ parseCsvLine "01-02-2024,08:15,Spui,,Dam" = ["01-02-2024"; "08:15"; "Spui"; ""; "Dam"].
Proof.
  split; [reflexivity|].
  exact (parseCsvLine_without_quotes "01-02-2024,08:15,Spui,,Dam" eq_refl).
Defined.

Lemma parseCsvLine_reads_quoted_fields_witness :
  join "," (map quoteField ["Den Haag, Centraal"; ""; "Spui"])
  = String "034" "Den Haag, Centraal" +:+ String "034" "," +:+ String "034" (String "034" ",")
      +:+ String "034" "Spui" +:+ String "034" EmptyString
  /\ parseCsvLine (join "," (map quoteField ["Den Haag, Centraal"; ""; "Spui"]))
     = ["Den Haag, Centraal"; ""; "Spui"].
Proof.
  split; [reflexivity|].
  apply (parseCsvLine_reads_quoted_fields ["Den Haag, Centraal"; ""; "Spui"]).
  discriminate.
Defined.

Lemma readCsvStops_names_witness :
  List.filter JsString.truthy (splitLines twoJourneys)
  = "Datum,Check in,Vertrek,Check uit,Bestemming"
      :: ["01-02-2024,08:15,Spui,08:40,Dam"; "02-02-2024,17:05,Dam,17:30,Spui"]
  /\ exists names,
       readCsvStops (Some twoJourneys) = Return names
       /\ NoDup names
       /\ forall n, n ∈ names <->
            n <> "" /\
            exists line,
              line ∈ ["01-02-2024,08:15,Spui,08:40,Dam"; "02-02-2024,17:05,Dam,17:30,Spui"]
              /\ (at_ (parseCsvLine line)
                      (indexOf (split "," "Datum,Check in,Vertrek,Check uit,Bestemming")
                               "Vertrek") = Some n
                  \/ at_ (parseCsvLine line)
                        (indexOf (split "," "Datum,Check in,Vertrek,Check uit,Bestemming")
                                 "Bestemming") = Some n).
Proof.
  assert (List.filter JsString.truthy (splitLines twoJourneys)
          = "Datum,Check in,Vertrek,Check uit,Bestemming"
              :: ["01-02-2024,08:15,Spui,08:40,Dam"; "02-02-2024,17:05,Dam,17:30,Spui"])
    as Hlines by reflexivity.
  split; [exact Hlines|].
  exact (readCsvStops_names twoJourneys _ _ Hlines).
Defined.

Lemma readCsvStops_sorted_witness :
  readCsvStops (Some twoJourneys) = Return ["Dam"; "Spui"]
  /\ StronglySorted (fun a b => (localeCompare a b <= 0)%Z) ["Dam"; "Spui"].
Proof.
  assert (readCsvStops (Some twoJourneys) = Return ["Dam"; "Spui"]) as Hread by reflexivity.
  split; [exact Hread|].
  exact (readCsvStops_sorted (Some twoJourneys) ["Dam"; "Spui"]
           compareCodeUnits_total compareCodeUnits_trans Hread).
Defined.

Lemma routeAB_in_routes :
  routeAB ∈ Analytics.routes
              (analytics {[ "A" := somewhere; "B" := somewhere ]} [journey "A" "B"]).
Proof. vm_compute. left. Defined.

Lemma route_aggregate_is_consistent_witness :
  routeAB ∈ Analytics.routes
              (analytics {[ "A" := somewhere; "B" := somewhere ]} [journey "A" "B"])
  /\ Route.count routeAB
     = length (List.filter
                 (countedUnder {[ "A" := somewhere; "B" := somewhere ]}
                    (routeKey (Route.from routeAB) (Route.to routeAB)))
                 [journey "A" "B"]).
Proof.
  split; [exact routeAB_in_routes|].
  exact (proj1 (proj2 (proj2 (proj2
    (route_aggregate_is_consistent {[ "A" := somewhere; "B" := somewhere ]}
       [journey "A" "B"] routeAB routeAB_in_routes))))).
Defined.

Lemma dominant_is_first_of_greatest_tally_witness :
  routeAB ∈ Analytics.routes
              (analytics {[ "A" := somewhere; "B" := somewhere ]} [journey "A" "B"])
  /\ exists p n before after,
       dominant routeAB = Some (p, n)
       /\ Route.products routeAB = before ++ (p, n) :: after
       /\ (1 <= n)%nat
       /\ (forall e, e ∈ before -> (e.2 < n)%nat)
       /\ (forall e, e ∈ after -> (e.2 <= n)%nat).
Proof.
  split; [exact routeAB_in_routes|].
  exact (dominant_is_first_of_greatest_tally {[ "A" := somewhere; "B" := somewhere ]}
           [journey "A" "B"] routeAB routeAB_in_routes).
Defined.

End MoreRuns.
